(** * BiScore data scripts: the guide extractors and the cross-phase merge

    A shallow embedding of [scripts/extract_wowhead_items.py],
    [scripts/extract_wowhead_guide_markup.py] and
    [scripts/parse_wowhead_html.py], with the properties their specification
    states about them. *)

From Stdlib Require Import ZArith String Ascii List Lia Bool.
From stdpp Require Import gmap list strings.

Local Open Scope Z_scope.

(** ** Python values *)

(** [Dict[int, List[int]]]: slot id to ranked item ids. *)
Abbreviation slot_map := (gmap Z (list Z)).

(** A list without its repeated items: each item stays where it first
    appears.  This is the specification's reading of "in its existing order,
    skipping ones already added". *)
Fixpoint dedup_keep_first `{EqDecision A} (l : list A) : list A :=
  match l with
  | [] => []
  | x :: l' => x :: filter (fun y => y ≠ x) (dedup_keep_first l')
  end.

(** [d.get(k, [])] *)
Definition dict_get (d : slot_map) (k : Z) : list Z := default [] (d !! k).

(** ** Python strings

    Text is modelled as Rocq's [string], a character being a code point below
    256: [\s], [str.isspace], [\d] and [str.lower] are given on that range
    as Python has them. *)

Module Str.

Definition dq : ascii := "034"%char.   (* the double quote *)
Definition nl : ascii := "010"%char.   (* the newline *)
Definition quoted (s : string) : string := String dq (s +:+ String dq "").

Definition code (c : ascii) : nat := nat_of_ascii c.

(** [c.isspace()], which is also what [\s] matches *)
Definition is_space (c : ascii) : bool :=
  let n := code c in
  ((9 <=? n) && (n <=? 13) || (28 <=? n) && (n <=? 32)
   || (n =? 133) || (n =? 160))%nat.

(** [\d] *)
Definition is_digit (c : ascii) : bool :=
  let n := code c in ((48 <=? n) && (n <=? 57))%nat.

(** [c.lower()] *)
Definition lower_char (c : ascii) : ascii :=
  let n := code c in
  if ((65 <=? n) && (n <=? 90)
      || (192 <=? n) && (n <=? 222) && negb (n =? 215))%nat
  then ascii_of_nat (n + 32) else c.

(** [s.lower()] *)
Fixpoint lower (s : string) : string :=
  match s with
  | EmptyString => EmptyString
  | String c s' => String (lower_char c) (lower s')
  end.

(** [needle in hay] *)
Fixpoint contains (needle hay : string) : bool :=
  if String.prefix needle hay then true
  else match hay with
       | EmptyString => false
       | String _ hay' => contains needle hay'
       end.

Fixpoint lstrip (s : string) : string :=
  match s with
  | EmptyString => EmptyString
  | String c s' => if is_space c then lstrip s' else s
  end.

Fixpoint rstrip (s : string) : string :=
  match s with
  | EmptyString => EmptyString
  | String c s' =>
      match rstrip s' with
      | EmptyString => if is_space c then EmptyString else String c EmptyString
      | r => String c r
      end
  end.

(** [s.strip()] *)
Definition strip (s : string) : string := rstrip (lstrip s).

(** [s[start:stop]] for indices that are not negative *)
Definition slice (s : string) (start stop : nat) : string :=
  substring start (stop - start) s.

(** [s[start:]] *)
Fixpoint drop (n : nat) (s : string) : string :=
  match n, s with
  | O, _ => s
  | S n', String _ s' => drop n' s'
  | S _, EmptyString => EmptyString
  end.

(** [s.endswith(suffix)] *)
Definition endswith (s suffix : string) : bool :=
  String.eqb (drop (String.length s - String.length suffix) s) suffix
  && (String.length suffix <=? String.length s)%nat.

(** [s.replace(old, new)] for a non-empty [old]; [skip] counts the
    characters of a replaced occurrence that are still to be passed. *)
Fixpoint replace_from (old new : string) (skip : nat) (s : string) : string :=
  match s with
  | EmptyString => EmptyString
  | String c s' =>
      match skip with
      | S k => replace_from old new k s'
      | O =>
          if String.prefix old s
          then new +:+ replace_from old new (String.length old - 1) s'
          else String c (replace_from old new 0 s')
      end
  end.

Definition replace (old new s : string) : string := replace_from old new 0 s.

(** [int(s)] for a string of decimal digits *)
Fixpoint int_of_digits_from (acc : Z) (s : string) : Z :=
  match s with
  | EmptyString => acc
  | String c s' => int_of_digits_from (10 * acc + Z.of_nat (code c - 48)) s'
  end.

Definition int (s : string) : Z := int_of_digits_from 0 s.

Fixpoint digits_of (fuel : nat) (n : Z) (acc : string) : string :=
  match fuel with
  | O => acc
  | S fuel' =>
      let acc' := String (ascii_of_nat (48 + Z.to_nat (n mod 10))) acc in
      if n <? 10 then acc' else digits_of fuel' (n / 10) acc'
  end.

(** [str(n)] for [n >= 0] *)
Definition str (n : Z) : string :=
  digits_of (S (Z.to_nat (Z.log2 n))) n EmptyString.

(** [key in table] and [table.get(key)] for a dict literal, kept as the list
    of its entries (the last entry of a repeated key is the one a literal
    keeps; the tables below repeat no key with two values). *)
Fixpoint assoc (key : string) (table : list (string * string)) : option string :=
  match table with
  | [] => None
  | (k, v) :: rest => if String.eqb key k then Some v else assoc key rest
  end.

Definition mem (x : string) (l : list string) : bool :=
  existsb (String.eqb x) l.

(** *** Whitespace, in the words of a reader

    [collapse_from in_ws s]: the text [s] with every run of whitespace
    replaced by one space ([in_ws]: the text follows whitespace that has been
    replaced already). *)
Fixpoint collapse_from (in_ws : bool) (s : string) : string :=
  match s with
  | EmptyString => EmptyString
  | String c s' =>
      if is_space c
      then if in_ws then collapse_from true s'
           else String " " (collapse_from true s')
      else String c (collapse_from false s')
  end.

(** The characters before the first whitespace, and the text from there. *)
Fixpoint word (s : string) : string :=
  match s with
  | EmptyString => EmptyString
  | String c s' => if is_space c then EmptyString else String c (word s')
  end.

Fixpoint after_word (s : string) : string :=
  match s with
  | EmptyString => EmptyString
  | String c s' => if is_space c then s else after_word s'
  end.

(** Every whitespace character of the text is a space that does not follow
    another one ([prev_space]: the text follows a space). *)
Fixpoint single_spaced_from (prev_space : bool) (s : string) : bool :=
  match s with
  | EmptyString => true
  | String c s' =>
      if is_space c
      then Ascii.eqb c " " && negb prev_space && single_spaced_from true s'
      else single_spaced_from false s'
  end.

Definition single_spaced (s : string) : bool := single_spaced_from false s.

End Str.

(** ** Regular expressions

    The patterns of the scripts, with the backtracking semantics of Python's
    [re]: alternatives are tried left to right, a greedy star tries one more
    iteration first, a lazy star tries to stop first, and the first way that
    lets the rest of the pattern match is the match. *)

Module Re.

Import Str.

Inductive regex :=
| Eps
| Chr (p : ascii -> bool)      (* one character of a class *)
| Cat (r1 r2 : regex)
| Alt (r1 r2 : regex)          (* r1|r2 *)
| Star (r : regex)             (* r*   *)
| StarLazy (r : regex)         (* r*?  *)
| Grp (n : nat) (r : regex)    (* the capture group number n *)
| Eos.                         (* $, without re.MULTILINE *)

(** The text of the groups matched so far, latest first. *)
Abbreviation captures := (list (nat * string)).

(** [$]: at the end, or before a newline that ends the text *)
Definition at_end (s : string) : bool :=
  match s with
  | EmptyString => true
  | String c EmptyString => Ascii.eqb c nl
  | _ => false
  end.

(** A matcher takes the text, the groups so far and a continuation for the
    rest of the pattern; it returns what the continuation returns on the
    first way to match that the continuation accepts. *)
Definition matcher (R : Type) : Type :=
  string -> captures -> (string -> captures -> option R) -> option R.

(** The greedy star of a matcher: one more iteration first, then the rest of
    the pattern.  An iteration has to consume text; [fuel] bounds the number
    of iterations by the length of the text. *)
Fixpoint star_loop {R} (body : matcher R) (k : string -> captures -> option R)
    (fuel : nat) (s : string) (cs : captures) : option R :=
  match fuel with
  | O => k s cs
  | S fuel' =>
      match body s cs (fun s' cs' =>
              if (String.length s' <? String.length s)%nat
              then star_loop body k fuel' s' cs' else None) with
      | Some x => Some x
      | None => k s cs
      end
  end.

(** The lazy star: the rest of the pattern first, then one more iteration. *)
Fixpoint lazy_loop {R} (body : matcher R) (k : string -> captures -> option R)
    (fuel : nat) (s : string) (cs : captures) : option R :=
  match k s cs with
  | Some x => Some x
  | None =>
      match fuel with
      | O => None
      | S fuel' =>
          body s cs (fun s' cs' =>
            if (String.length s' <? String.length s)%nat
            then lazy_loop body k fuel' s' cs' else None)
      end
  end.

(** [exec r s cs k] matches [r] at the start of [s] and hands the rest of the
    text and the groups to [k]; when [k] fails it backtracks. *)
Fixpoint exec {R} (r : regex) (s : string) (cs : captures)
    (k : string -> captures -> option R) {struct r} : option R :=
  match r with
  | Eps => k s cs
  | Chr p =>
      match s with
      | String c s' => if p c then k s' cs else None
      | EmptyString => None
      end
  | Cat r1 r2 => exec r1 s cs (fun s1 cs1 => exec r2 s1 cs1 k)
  | Alt r1 r2 =>
      match exec r1 s cs k with
      | Some x => Some x
      | None => exec r2 s cs k
      end
  | Star r1 => star_loop (exec r1) k (String.length s) s cs
  | StarLazy r1 => lazy_loop (exec r1) k (String.length s) s cs
  | Grp n r1 =>
      exec r1 s cs (fun s' cs' =>
        k s' ((n, substring 0 (String.length s - String.length s') s) :: cs'))
  | Eos => if at_end s then k s cs else None
  end.

(** A match object: [m.start()], [m.end()] and the groups. *)
Record rmatch := { m_start : nat; m_end : nat; m_groups : captures }.

(** [m.group(n)] *)
Definition group (n : nat) (m : rmatch) : string :=
  match List.find (fun '(i, _) => Nat.eqb i n) (m_groups m) with
  | Some (_, t) => t
  | None => EmptyString
  end.

(** [pattern.search] on the text [s] that starts at offset [pos]. *)
Fixpoint search_from (r : regex) (pos : nat) (s : string) : option rmatch :=
  match exec r s [] (fun s' cs => Some (s', cs)) with
  | Some (s', cs) =>
      Some {| m_start := pos;
              m_end := pos + (String.length s - String.length s');
              m_groups := cs |}
  | None =>
      match s with
      | EmptyString => None
      | String _ s' => search_from r (S pos) s'
      end
  end.

Definition search (r : regex) (s : string) : option rmatch := search_from r 0 s.

(** [pattern.finditer]: the matches from left to right, each search starting
    where the last match ended (one character further after an empty match;
    no pattern of the scripts matches the empty string). *)
Fixpoint finditer_from (fuel : nat) (r : regex) (pos : nat) (s : string)
    : list rmatch :=
  match fuel with
  | O => []
  | S fuel' =>
      match search_from r pos s with
      | None => []
      | Some m =>
          let next := if (m_start m <? m_end m)%nat then m_end m
                      else S (m_end m) in
          m :: finditer_from fuel' r next (drop (next - pos) s)
      end
  end.

Definition finditer (r : regex) (s : string) : list rmatch :=
  finditer_from (S (String.length s)) r 0 s.

(** [pattern.findall] for a pattern with one group *)
Definition findall (r : regex) (s : string) : list string :=
  map (group 1) (finditer r s).

(** [pattern.findall] for a pattern without a group: the matched texts *)
Definition findall0 (r : regex) (s : string) : list string :=
  map (fun m => slice s (m_start m) (m_end m)) (finditer r s).

Fixpoint sub_from (repl : string) (s : string) (pos : nat) (ms : list rmatch)
    : string :=
  match ms with
  | [] => drop pos s
  | m :: rest => slice s pos (m_start m) +:+ repl +:+ sub_from repl s (m_end m) rest
  end.

(** [pattern.sub(repl, s)] for a replacement without group references *)
Definition sub (r : regex) (repl : string) (s : string) : string :=
  sub_from repl s 0 (finditer r s).

(** *** Building patterns *)

Definition any : regex := Chr (fun _ => true).                  (* . with re.DOTALL *)
Definition dot : regex := Chr (fun c => negb (Ascii.eqb c nl)). (* . *)
Definition chr (c : ascii) : regex := Chr (Ascii.eqb c).
Definition chr_ci (c : ascii) : regex :=
  Chr (fun x => Ascii.eqb (lower_char x) (lower_char c)).
Definition notc (c : ascii) : regex := Chr (fun x => negb (Ascii.eqb x c)).
Definition space : regex := Chr is_space.                       (* \s *)
Definition digit : regex := Chr is_digit.                       (* \d *)
Definition range (lo hi : ascii) : regex :=
  Chr (fun x => (code lo <=? code x)%nat && (code x <=? code hi)%nat).
Definition Plus (r : regex) : regex := Cat r (Star r).          (* r+ *)

(** A literal text, and the same under [re.IGNORECASE]. *)
Fixpoint lit (s : string) : regex :=
  match s with
  | EmptyString => Eps
  | String c s' => Cat (chr c) (lit s')
  end.

Fixpoint lit_ci (s : string) : regex :=
  match s with
  | EmptyString => Eps
  | String c s' => Cat (chr_ci c) (lit_ci s')
  end.

Fixpoint Seq (rs : list regex) : regex :=
  match rs with
  | [] => Eps
  | r :: rest => Cat r (Seq rest)
  end.

(** [r{n}] *)
Fixpoint times (n : nat) (r : regex) : regex :=
  match n with
  | O => Eps
  | S n' => Cat r (times n' r)
  end.

(** *** What a pattern matches

    [matches r s rest]: the pattern [r] matches the text [s] when [rest]
    follows it (only [$] looks at what follows). *)
Inductive matches : regex -> string -> string -> Prop :=
| matches_eps rest : matches Eps "" rest
| matches_chr p c rest : p c = true -> matches (Chr p) (String c "") rest
| matches_cat r1 r2 s1 s2 rest :
    matches r1 s1 (s2 +:+ rest) -> matches r2 s2 rest ->
    matches (Cat r1 r2) (s1 +:+ s2) rest
| matches_alt_l r1 r2 s rest : matches r1 s rest -> matches (Alt r1 r2) s rest
| matches_alt_r r1 r2 s rest : matches r2 s rest -> matches (Alt r1 r2) s rest
| matches_star_nil r rest : matches (Star r) "" rest
| matches_star_cons r s1 s2 rest :
    matches r s1 (s2 +:+ rest) -> matches (Star r) s2 rest ->
    matches (Star r) (s1 +:+ s2) rest
| matches_lazy_nil r rest : matches (StarLazy r) "" rest
| matches_lazy_cons r s1 s2 rest :
    matches r s1 (s2 +:+ rest) -> matches (StarLazy r) s2 rest ->
    matches (StarLazy r) (s1 +:+ s2) rest
| matches_grp n r s rest : matches r s rest -> matches (Grp n r) s rest
| matches_eos rest : at_end rest = true -> matches Eos "" rest.

(** The pattern has no [$]: what it matches does not depend on what
    follows. *)
Fixpoint eos_free (r : regex) : bool :=
  match r with
  | Eps | Chr _ => true
  | Cat r1 r2 | Alt r1 r2 => eos_free r1 && eos_free r2
  | Star r1 | StarLazy r1 | Grp _ r1 => eos_free r1
  | Eos => false
  end.

(** The pattern matches somewhere in the text. *)
Definition occurs (r : regex) (text : string) : Prop :=
  exists pre mid post, text = pre +:+ mid +:+ post /\ matches r mid post.

(** A matcher finds only matches of [r]. *)
Definition matcher_sound {R} (r : regex) (body : matcher R) : Prop :=
  forall s cs k x, body s cs k = Some x ->
    exists s1 s2 cs', s = s1 +:+ s2 /\ matches r s1 s2 /\ k s2 cs' = Some x.

(** The result of a matcher depends on the values of its continuation only,
    and a continuation that always fails makes it fail. *)
Definition matcher_ext {R} (body : matcher R) : Prop :=
  forall s cs k1 k2, (forall s' c, k1 s' c = k2 s' c) ->
    body s cs k1 = body s cs k2.

Definition matcher_fail {R} (body : matcher R) : Prop :=
  forall s cs k, (forall s' c, k s' c = None) -> body s cs k = None.

End Re.

(** ** [extract_wowhead_items.py] *)

Module Items.

Import Str Re.

(** [PRINT_HTML_RE], compiled with [re.DOTALL] *)
Definition PRINT_HTML_RE : regex :=
  Seq [lit "WH.markup.printHtml("; Star space;
       Grp 1 (Seq [chr dq;
                   Star (Alt (Cat (chr "\") any)
                             (Chr (fun c => negb (Ascii.eqb c dq || Ascii.eqb c "\"))));
                   chr dq]);
       Star space; Alt (chr ",") (chr ")")].

(** The patterns below are compiled with [re.IGNORECASE | re.DOTALL]
    ([ITEM_RE] and [REF_RE] with [re.IGNORECASE]). *)
Definition H3_RE : regex :=
  Seq [lit_ci "[h3"; Star (notc "]"); lit_ci "toc="; chr dq;
       Grp 1 (Plus (notc dq)); chr dq; Star (notc "]"); chr "]";
       StarLazy any; lit_ci "[/h3]"].

Definition H4_RE : regex :=
  Seq [lit_ci "[h4"; Star (notc "]"); chr "]"; Grp 1 (StarLazy any);
       lit_ci "[/h4]"].

Definition TABLE_RE : regex :=
  Seq [lit_ci "[table"; Star (notc "]"); chr "]"; Grp 1 (StarLazy any);
       lit_ci "[/table]"].

Definition TR_RE : regex :=
  Seq [lit_ci "[tr]"; Grp 1 (StarLazy any); lit_ci "[/tr]"].

Definition TD_RE : regex :=
  Seq [lit_ci "[td"; Star (notc "]"); chr "]"; Grp 1 (StarLazy any);
       lit_ci "[/td]"].

Definition ITEM_RE : regex :=
  Seq [lit_ci "[item="; Grp 1 (Plus digit); chr "]"].

Definition REF_RE : regex :=
  Seq [chr "["; Grp 1 (Alt (lit_ci "item") (lit_ci "spell")); chr "=";
       Grp 2 (Plus digit); chr "]"].

Definition TAG_RE : regex := Seq [chr "["; Plus (notc "]"); chr "]"].

Definition WS_RE : regex := Plus space.

(** The pattern of [normalize_slot], with [re.IGNORECASE]:
    [\s+for\s+.+$] *)
Definition FOR_RE : regex :=
  Seq [Plus space; lit_ci "for"; Plus space; Plus dot; Eos].

Definition slot_alias : list (string * string) :=
  [ ("shoulder", "Shoulders"); ("shoulders", "Shoulders"); ("back", "Back");
    ("chest", "Chest"); ("wrist", "Wrist"); ("wrists", "Wrist");
    ("hands", "Hands"); ("hand", "Hands"); ("waist", "Waist");
    ("legs", "Legs"); ("feet", "Feet"); ("neck", "Neck"); ("head", "Head");
    ("ring", "Rings"); ("rings", "Rings"); ("finger", "Rings");
    ("fingers", "Rings"); ("trinket", "Trinkets"); ("trinkets", "Trinkets");
    ("weapon", "Weapons"); ("weapons", "Weapons");
    ("1-handed weapon", "Weapons"); ("1-handed weapons", "Weapons");
    ("1handed weapon", "Weapons"); ("1handed weapons", "Weapons");
    ("one-handed weapon", "Weapons"); ("one-handed weapons", "Weapons");
    ("1h weapons", "Main-Hand"); ("2h weapons", "Main-Hand");
    ("off-hand", "Off-Hand"); ("off-hands", "Off-Hand");
    ("off hand", "Off-Hand"); ("offhands", "Off-Hand");
    ("offhands and shields", "Off-Hand");
    ("off-hands and shields", "Off-Hand");
    ("shields / off-hands", "Off-Hand"); ("shields & offhands", "Off-Hand");
    ("shields & offhands", "Off-Hand"); ("main-hand", "Main-Hand");
    ("main hand", "Main-Hand"); ("main-hands", "Main-Hand");
    ("totem", "Totems"); ("totems", "Totems"); ("idol", "Idols");
    ("idols", "Idols"); ("libram", "Librams"); ("librams", "Librams");
    ("ranged", "Ranged") ].

Definition normalize_slot (raw : string) : string :=
  let cleaned := strip raw in
  let cleaned := sub FOR_RE "" cleaned in
  let cleaned := strip (sub WS_RE " " cleaned) in
  let key := lower cleaned in
  default cleaned (assoc key slot_alias).

Definition VALID_SLOTS : list string :=
  [ "Head"; "Shoulders"; "Back"; "Chest"; "Wrist"; "Hands"; "Waist"; "Legs";
    "Feet"; "Neck"; "Rings"; "Trinkets"; "Weapons"; "Off-Hand"; "Main-Hand";
    "Totems"; "Idols"; "Librams"; "Ranged" ].

Definition ENHANCEMENT_SLOT_ALIASES : list (string * string) :=
  [ ("head enchant", "Head"); ("shoulder enchant", "Shoulders");
    ("cloak enchant", "Back"); ("chest enchant", "Chest");
    ("bracer enchant", "Wrist"); ("gloves enchant", "Hands");
    ("legs enchant", "Legs"); ("leg enchant", "Legs");
    ("boots enchant", "Feet"); ("weapon enchant", "Weapons");
    ("main-hand enchant", "Main-Hand"); ("off-hand enchant", "Off-Hand");
    ("rings enchant", "Rings"); ("ring enchant", "Rings") ].

Definition GEM_GROUP_ALIASES : list (string * string) :=
  [ ("best meta", "Meta"); ("best meta gems", "Meta"); ("meta gem", "Meta");
    ("meta gems", "Meta"); ("best red", "Red"); ("best red gems", "Red");
    ("red gem", "Red"); ("red gems", "Red"); ("best yellow", "Yellow");
    ("best yellow gems", "Yellow"); ("yellow gem", "Yellow");
    ("yellow gems", "Yellow"); ("best blue", "Blue");
    ("best blue gems", "Blue"); ("blue gem", "Blue"); ("blue gems", "Blue") ].

Definition VALID_ENHANCEMENT_BUCKETS : list string :=
  ["Meta"; "Red"; "Yellow"; "Blue"] ++ VALID_SLOTS.

Definition clean_text (text : string) : string :=
  let no_tags := sub TAG_RE "" text in
  strip (sub WS_RE " " no_tags).

Inductive exn :=
| ValueError (msg : string)
| JSONDecodeError.

Inductive outcome (A : Type) :=
| Return (a : A)
| Raise (e : exn).
Arguments Return {A} a.
Arguments Raise {A} e.

Section with_json.
(** [json.loads] on the text of a JSON string literal: the decoded string,
    or [None] where it raises [JSONDecodeError].  Library code. *)
Variable json_loads : string -> option string.

Definition extract_markup (html_text : string) : outcome string :=
  match search PRINT_HTML_RE html_text with
  | None => Raise (ValueError "Could not find WH.markup.printHtml content")
  | Some m =>
      match json_loads (group 1 m) with
      | Some markup => Return markup
      | None => Raise JSONDecodeError
      end
  end.
End with_json.

Definition _normalize_enhancement_bucket (raw : string) : string :=
  let cleaned := lower (strip (sub WS_RE " " (strip raw))) in
  match assoc cleaned GEM_GROUP_ALIASES with
  | Some bucket => bucket
  | None =>
      match assoc cleaned ENHANCEMENT_SLOT_ALIASES with
      | Some slot => slot
      | None =>
          let maybe_slot :=
            normalize_slot (slice cleaned 0 (String.length cleaned - 8)) in
          if endswith cleaned " enchant" && mem maybe_slot VALID_SLOTS
          then maybe_slot
          else strip raw
      end
  end.

(** One ranked item: the dict built for it.  A key that a dict may lack is
    an [option]; [item_name] is present with the value [None] when the
    lookup has no name. *)
Record entry := {
  order : Z;
  rank : string;
  source : string;
  tie_group_size : Z;
  tie_group_index : Z;
  tie_with_previous : bool;
  ref_type : string;
  ref_id : Z;
  item_id : option Z;
  item_name : option (option string);
  spell_id : option Z }.

(** The loop of [_extract_inline_refs]: [seen], [items] and [order]. *)
Definition inline_step (item_lookup : gmap string string)
    (st : list (string * Z) * list entry * Z) (m : rmatch)
    : list (string * Z) * list entry * Z :=
  let '(seen, items, order) := st in
  let ref_type := lower (group 1 m) in
  let ref_id := int (group 2 m) in
  let key := (ref_type, ref_id) in
  if bool_decide (key ∈ seen) then st
  else
    let is_item := String.eqb ref_type "item" in
    let row :=
      {| order := order;
         rank := if order =? 1 then "Best" else "Alternative";
         source := "";
         tie_group_size := 1;
         tie_group_index := 1;
         tie_with_previous := false;
         ref_type := ref_type;
         ref_id := ref_id;
         item_id := if is_item then Some ref_id else None;
         item_name := if is_item then Some (item_lookup !! str ref_id) else None;
         spell_id := if is_item then None else Some ref_id |} in
    (key :: seen, items ++ [row], order + 1).

Definition _extract_inline_refs (section : string)
    (item_lookup : gmap string string) : list entry :=
  let '(_, items, _) :=
    foldl (inline_step item_lookup) ([], [], 1) (finditer REF_RE section) in
  items.

(** The dict appended for one item reference of a table row. *)
Definition row_entry (item_lookup : gmap string string) (row_order : Z)
    (rank_text source : string) (tie_group_size tie_index : Z)
    (item_id : string) : entry :=
  {| order := row_order;
     rank := rank_text;
     source := source;
     tie_group_size := tie_group_size;
     tie_group_index := tie_index;
     tie_with_previous := 1 <? tie_index;
     ref_type := "item";
     ref_id := int item_id;
     item_id := Some (int item_id);
     item_name := Some (item_lookup !! item_id);
     spell_id := None |}.

(** [for tie_index, item_id in enumerate(item_ids, start=1)] *)
Definition row_entries (item_lookup : gmap string string) (row_order : Z)
    (rank_text source : string) (item_ids : list string) : list entry :=
  let tie_group_size := Z.of_nat (length item_ids) in
  imap (fun i item_id =>
          row_entry item_lookup row_order rank_text source tie_group_size
                    (Z.of_nat i + 1) item_id)
       item_ids.

(** The body of [for row_match in TR_RE.finditer(table_body)], on the state
    [(items, row_order)]. *)
Definition row_step (item_lookup : gmap string string)
    (st : list entry * Z) (row_match : rmatch) : list entry * Z :=
  let '(items, row_order) := st in
  let cells := findall TD_RE (group 1 row_match) in
  if (length cells <? 2)%nat then st
  else
    let item_ids := findall ITEM_RE (nth 1 cells "") in
    match item_ids with
    | [] => st
    | _ =>
        let rank_text := clean_text (nth 0 cells "") in
        if String.eqb rank_text "" || String.eqb (lower rank_text) "rank"
        then st
        else
          let source :=
            if (3 <=? length cells)%nat then clean_text (nth 2 cells "")
            else "" in
          (items ++ row_entries item_lookup row_order rank_text source item_ids,
           row_order + 1)
    end.

(** [for table_block in TABLE_RE.finditer(section)] *)
Definition table_step (item_lookup : gmap string string)
    (st : list entry * Z) (table_block : rmatch) : list entry * Z :=
  let table_body := group 1 table_block in
  foldl (row_step item_lookup) st (finditer TR_RE table_body).

Definition table_items (item_lookup : gmap string string) (section : string)
    : list entry :=
  fst (foldl (table_step item_lookup) ([], 1) (finditer TABLE_RE section)).

(** A header: [(m.start(), m.end(), name)]. *)
Abbreviation header := (nat * nat * string)%type.

Definition h_start (h : header) : nat := fst (fst h).
Definition h_end (h : header) : nat := snd (fst h).
Definition h_name (h : header) : string := snd h.

(** [headers.sort(key=lambda x: x[0])]: a stable sort on the start. *)
Fixpoint insert_header (h : header) (l : list header) : list header :=
  match l with
  | [] => [h]
  | h' :: l' =>
      if (h_start h' <? h_start h)%nat then h' :: insert_header h l'
      else h :: l
  end.

Definition sort_headers (l : list header) : list header :=
  foldr insert_header [] l.

Definition headers_of (markup : string) : list header :=
  sort_headers
    (map (fun m => (m_start m, m_end m, group 1 m)) (finditer H3_RE markup) ++
     map (fun m => (m_start m, m_end m, clean_text (group 1 m)))
         (finditer H4_RE markup)).

Record slot_entry := { slot : string; items : list entry }.

(** The items of one section: the table rows, else (for a gems and enchants
    guide) the inline references. *)
Definition section_items (item_lookup : gmap string string)
    (guide_type : string) (section : string) : list entry :=
  let items := table_items item_lookup section in
  match items with
  | [] =>
      if String.eqb guide_type "gems_enchants"
      then _extract_inline_refs section item_lookup
      else items
  | _ => items
  end.

Definition slot_name_of (guide_type : string) (header_name : string) : string :=
  if String.eqb guide_type "gems_enchants"
  then _normalize_enhancement_bucket header_name
  else normalize_slot header_name.

Definition valid_slots_of (guide_type : string) : list string :=
  if String.eqb guide_type "gems_enchants" then VALID_ENHANCEMENT_BUCKETS
  else VALID_SLOTS.

(** [markup[section_start:section_end]] of the header number [i]. *)
Definition section_of (markup : string) (headers : list header) (i : nat)
    (hd : header) : string :=
  let section_start := h_end hd in
  let section_end :=
    match headers !! S i with
    | Some next => h_start next
    | None => String.length markup
    end in
  slice markup section_start section_end.

(** The body of [for i, header in enumerate(headers)], on [results]. *)
Definition header_step (markup : string) (item_lookup : gmap string string)
    (guide_type : string) (headers : list header)
    (results : list slot_entry) (ih : nat * header) : list slot_entry :=
  let '(i, hd) := ih in
  let slot_name := slot_name_of guide_type (h_name hd) in
  if negb (mem slot_name (valid_slots_of guide_type)) then results
  else
    let section := section_of markup headers i hd in
    match section_items item_lookup guide_type section with
    | [] => results
    | items => results ++ [{| slot := slot_name; items := items |}]
    end.

Definition extract_by_slot (markup : string)
    (item_lookup : gmap string string) (guide_type : string)
    : list slot_entry :=
  let headers := headers_of markup in
  foldl (header_step markup item_lookup guide_type headers) []
        (imap pair headers).

(** *** The extraction in the words of the specification *)

(** The cells of a table row, the item references of its second cell, its
    rank text and its source. *)
Definition row_cells (row_match : rmatch) : list string :=
  findall TD_RE (group 1 row_match).

Definition row_item_ids (row_match : rmatch) : list string :=
  findall ITEM_RE (nth 1 (row_cells row_match) "").

Definition row_rank (row_match : rmatch) : string :=
  clean_text (nth 0 (row_cells row_match) "").

Definition row_source (row_match : rmatch) : string :=
  if (3 <=? length (row_cells row_match))%nat
  then clean_text (nth 2 (row_cells row_match) "")
  else "".

(** A valid ranked row: at least two cells, an item reference in the second,
    and a first cell whose cleaned text is neither empty nor "rank". *)
Definition row_valid (row_match : rmatch) : bool :=
  (2 <=? length (row_cells row_match))%nat
  && negb (bool_decide (row_item_ids row_match = []))
  && negb (String.eqb (row_rank row_match) ""
           || String.eqb (lower (row_rank row_match)) "rank").

(** The rows of the tables of a section, in document order. *)
Definition section_rows (section : string) : list rmatch :=
  flat_map (fun table_block => finditer TR_RE (group 1 table_block))
           (finditer TABLE_RE section).

(** The tie group of a valid row that is given the order [row_order]. *)
Definition row_group (item_lookup : gmap string string) (row_order : Z)
    (row_match : rmatch) : list entry :=
  row_entries item_lookup row_order (row_rank row_match)
              (row_source row_match) (row_item_ids row_match).

(** The tie groups of the valid rows among [rows], numbered from
    [row_order] on. *)
Fixpoint row_groups (item_lookup : gmap string string) (row_order : Z)
    (rows : list rmatch) : list (list entry) :=
  match rows with
  | [] => []
  | r :: rest =>
      if row_valid r
      then row_group item_lookup row_order r
           :: row_groups item_lookup (row_order + 1) rest
      else row_groups item_lookup row_order rest
  end.

(** The number of valid rows. *)
Definition count_valid (rows : list rmatch) : nat :=
  length (filter (fun r => row_valid r = true) rows).

(** The identity of an entry, and of an inline reference. *)
Definition identity (e : entry) : string * Z := (ref_type e, ref_id e).

Definition ref_key (m : rmatch) : string * Z :=
  (lower (group 1 m), int (group 2 m)).

(** The entry of the inline reference number [i] (from 0) that is kept. *)
Definition inline_entry (item_lookup : gmap string string) (i : nat)
    (key : string * Z) : entry :=
  let is_item := String.eqb (fst key) "item" in
  {| order := Z.of_nat i + 1;
     rank := match i with O => "Best" | S _ => "Alternative" end;
     source := "";
     tie_group_size := 1;
     tie_group_index := 1;
     tie_with_previous := false;
     ref_type := fst key;
     ref_id := snd key;
     item_id := if is_item then Some (snd key) else None;
     item_name := if is_item then Some (item_lookup !! str (snd key)) else None;
     spell_id := if is_item then None else Some (snd key) |}.

(** What one header adds to the result, if anything. *)
Definition header_result (markup : string) (item_lookup : gmap string string)
    (guide_type : string) (headers : list header) (ih : nat * header)
    : option slot_entry :=
  let slot_name := slot_name_of guide_type (h_name (snd ih)) in
  if mem slot_name (valid_slots_of guide_type) then
    match section_items item_lookup guide_type
            (section_of markup headers (fst ih) (snd ih)) with
    | [] => None
    | items => Some {| slot := slot_name; items := items |}
    end
  else None.

(** The key that [normalize_slot] looks up in its alias table. *)
Definition slot_key (raw : string) : string :=
  lower (strip (sub WS_RE " " (sub FOR_RE "" (strip raw)))).

(** *** The flat list of a slot, read entry by entry *)

(** The first entry of a ranked list opens the first tie group. *)
Definition tie_first (e : entry) : Prop :=
  order e = 1 /\ tie_group_index e = 1 /\ tie_with_previous e = false.

(** Two neighbours of a ranked list: the second continues the tie group of
    the first, or the first closes its group and the second opens the
    next. *)
Definition tie_next (e1 e2 : entry) : Prop :=
  (tie_with_previous e2 = true /\ order e2 = order e1 /\
   rank e2 = rank e1 /\ source e2 = source e1 /\
   tie_group_size e2 = tie_group_size e1 /\
   tie_group_index e2 = tie_group_index e1 + 1)
  \/
  (tie_with_previous e2 = false /\ order e2 = order e1 + 1 /\
   tie_group_index e2 = 1 /\ tie_group_index e1 = tie_group_size e1).

(** The last entry of a ranked list closes its group. *)
Definition tie_last (e : entry) : Prop :=
  tie_group_index e = tie_group_size e.

(** [R] holds of every two neighbours of the list. *)
Fixpoint chain {A} (R : A -> A -> Prop) (l : list A) : Prop :=
  match l with
  | [] => True
  | a :: l' => match l' with [] => True | b :: _ => R a b end /\ chain R l'
  end.

(** The reference fields of an entry agree: an item entry has [item_id] and
    [item_name] and no [spell_id], any other entry has only [spell_id]. *)
Definition ref_fields_ok (e : entry) : Prop :=
  (ref_type e = "item" /\ item_id e = Some (ref_id e) /\
   is_Some (item_name e) /\ spell_id e = None)
  \/
  (ref_type e <> "item" /\ item_id e = None /\ item_name e = None /\
   spell_id e = Some (ref_id e)).

End Items.

(** ** [batch_extract_and_report.py] and [report_batch_items.py]

    What [load_guides] computes from the slots of a page, and the counts that
    the report makes of them. *)

Module Batch.

Import Str Re Items.

Definition EXPECTED_SLOTS : gset string :=
  list_to_set
    [ "Head"; "Shoulders"; "Back"; "Chest"; "Wrist"; "Hands"; "Waist";
      "Legs"; "Feet"; "Neck"; "Rings"; "Trinkets"; "Weapons"; "Off-Hand";
      "Main-Hand"; "Ranged"; "Totems"; "Idols"; "Librams" ].

(** [sorted] on strings, which are compared by code points. *)
Fixpoint insert_sorted (x : string) (l : list string) : list string :=
  match l with
  | [] => [x]
  | y :: l' => if String.leb x y then x :: l else y :: insert_sorted x l'
  end.

Definition sorted (l : list string) : list string := foldr insert_sorted [] l.

Section with_lookup.
Variable json_loads : string -> option string.
(** [extract_item_lookup(html_text)]: the item names of the page, or the
    exception of its [json.loads].  JSON code, not modelled. *)
Variable extract_item_lookup : string -> outcome (gmap string string).

(** The [try] block of [load_guides]: the slots of the page, or the
    exception that the [except] clause catches. *)
Definition try_extract (html_text guide_type : string)
    : outcome (list slot_entry) :=
  match extract_markup json_loads html_text with
  | Raise e => Raise e
  | Return markup =>
      match extract_item_lookup html_text with
      | Raise e => Raise e
      | Return item_lookup =>
          Return (extract_by_slot markup item_lookup guide_type)
      end
  end.

(** The keys of the record of a guide that are computed from its slots. *)
Record guide_counts := {
  parse_error : option exn;
  slots : list slot_entry;
  slot_count : nat;
  item_count : nat;
  missing_expected_slots : list string }.

Definition guide_record (html_text guide_type : string) : guide_counts :=
  match try_extract html_text guide_type with
  | Raise e =>
      {| parse_error := Some e;
         slots := [];
         slot_count := 0;
         item_count := 0;
         missing_expected_slots := sorted (elements EXPECTED_SLOTS) |}
  | Return slots =>
      let parsed_slots : gset string := list_to_set (slot <$> slots) in
      {| parse_error := None;
         slots := slots;
         slot_count := length slots;
         item_count := sum_list ((fun s => length (items s)) <$> slots);
         missing_expected_slots :=
           sorted (elements (EXPECTED_SLOTS ∖ parsed_slots)) |}
  end.
End with_lookup.

(** [slot_item_counts] of [report_batch_items.py]. *)
Definition slot_item_counts (slots : list slot_entry) : gmap string nat :=
  foldl (fun counts slot_entry =>
           <[slot slot_entry := length (items slot_entry)]> counts)
        ∅ slots.

End Batch.

(** ** [extract_wowhead_guide_markup.py] *)

Module Markup.

Import Str Re.

(** A character inside a quoted JavaScript string: one that is neither the
    quote nor the backslash, or a backslash and the character after it. *)
Definition js_char : regex :=
  Alt (Chr (fun c => negb (Ascii.eqb c dq || Ascii.eqb c "\")))
      (Cat (chr "\") any).

(** [PRINT_HTML_RE] and [PRINT_HTML_FALLBACK_RE], compiled with [re.S] *)
Definition PRINT_HTML_RE : regex :=
  Seq [lit "WH.markup.printHtml"; Star space; chr "("; Star space; chr dq;
       Grp 1 (Star js_char); chr dq; Star space; chr ")"].

Definition PRINT_HTML_FALLBACK_RE : regex :=
  Seq [lit "WH.markup.printHtml"; Star space; chr "("; Star space; chr dq;
       Grp 1 (Cat (times 100 js_char) (StarLazy js_char)); chr dq].

Definition backslash (c : string) : string := String "\" c.
Definition tab : string := String "009" "".
Definition cr : string := String "013" "".

(** The chain of [str.replace] that undoes the JavaScript escapes. *)
Definition unescape (raw : string) : string :=
  replace (backslash "\") "\"
    (replace (backslash (String dq "")) (String dq "")
      (replace (backslash "t") tab
        (replace (backslash "r") cr
          (replace (backslash "n") (String nl "") raw)))).

Definition extract_print_html_payload (html : string) : option string :=
  match search PRINT_HTML_RE html with
  | Some m => Some (unescape (group 1 m))
  | None =>
      match search PRINT_HTML_FALLBACK_RE html with
      | Some m => Some (unescape (group 1 m))
      | None => None
      end
  end.

(** [ITEM_TAG_RE], [SPELL_TAG_RE] and [ENCHANT_TAG_RE]: no flag, so the tag
    name is matched in lower case only. *)
Definition ITEM_TAG_RE : regex :=
  Seq [lit "[item="; Grp 1 (Plus digit); chr "]"].
Definition SPELL_TAG_RE : regex :=
  Seq [lit "[spell="; Grp 1 (Plus digit); chr "]"].
Definition ENCHANT_TAG_RE : regex :=
  Seq [lit "[enchant="; Grp 1 (Plus digit); chr "]"].

Definition extract_ids_from_markup (markup : string)
    : list Z * list Z * list Z :=
  (map int (findall ITEM_TAG_RE markup),
   map int (findall SPELL_TAG_RE markup),
   map int (findall ENCHANT_TAG_RE markup)).

(** [list(dict.fromkeys(ids))]: the keys of a dict, which keeps a key where
    it is first inserted. *)
Definition fromkeys (ids : list Z) : list Z :=
  foldl (fun keys k => if bool_decide (k ∈ keys) then keys else keys ++ [k])
        [] ids.

(** The dict that [process_file] returns.  [markup] holds [markup_length]
    and [markup_preview], which the dict has unless [items_only] is set. *)
Inductive report :=
| NoMarkup (path : string)
| Found (path : string) (item_ids spell_ids enchant_ids : list Z)
        (markup : option (nat * string)).

Definition crnl : string := String "013" (String nl "").

(** [process_file(path, items_only)], from the text of the file. *)
Definition process_file (path text : string) (items_only : bool) : report :=
  match extract_print_html_payload text with
  | None | Some EmptyString => NoMarkup path
  | Some payload =>
      let '(item_ids, spell_ids, enchant_ids) :=
        extract_ids_from_markup payload in
      Found path (fromkeys item_ids) (fromkeys spell_ids)
            (fromkeys enchant_ids)
            (if items_only then None
             else Some (String.length payload,
                        replace (String nl "") " "
                          (replace crnl (String nl "")
                             (slice payload 0 500))))
  end.

End Markup.

(** ** [parse_wowhead_html.py] *)

Module Parser.

Import Str Re.

Definition HTML_TAG_RE : regex := Seq [chr "<"; Plus (notc ">"); chr ">"].
Definition WS_RE : regex := Plus space.

(** [<noscript>(.*?)</noscript>], with [re.S | re.I] *)
Definition NOSCRIPT_RE : regex :=
  Seq [lit_ci "<noscript>"; Grp 1 (StarLazy any); lit_ci "</noscript>"].

Definition extract_noscript (html_text : string) : option string :=
  match search NOSCRIPT_RE html_text with
  | None => None
  | Some m => Some (group 1 m)
  end.

Definition unescape_js_string (value : string) : string :=
  replace (Markup.backslash "\") "\"
    (replace (Markup.backslash "/") "/"
      (replace (Markup.backslash (String dq "")) (String dq "")
        (replace (Markup.backslash "t") Markup.tab
          (replace (Markup.backslash "r") Markup.cr
            (replace (Markup.backslash "n") (String nl "") value))))).

(** The pattern of [extract_guide_markup], with [re.S] *)
Definition GUIDE_MARKUP_RE : regex :=
  Seq [lit "WH.markup.printHtml("; Star space; chr dq;
       Grp 1 (Star Markup.js_char); chr dq; Star space; chr ","; Star space;
       lit (quoted "guide-body")].

Definition extract_guide_markup (html_text : string) : option string :=
  match search GUIDE_MARKUP_RE html_text with
  | None => None
  | Some m => Some (unescape_js_string (group 1 m))
  end.

Definition section_slot_ids (heading_text section_text : string) : list Z :=
  let lowered := lower heading_text in
  if contains "head" lowered then [1]
  else if contains "neck" lowered then [2]
  else if contains "shoulder" lowered then [3]
  else if contains "back" lowered || contains "cloak" lowered then [15]
  else if contains "chest" lowered then [5]
  else if contains "wrist" lowered then [9]
  else
  let has_dual_wield :=
    contains "dual-wield" lowered || contains "dual wield" lowered in
  let section_lowered := lower section_text in
  if contains "idol" lowered || contains "relic" lowered
     || contains "totem" lowered || contains "libram" lowered
     || contains "ranged" lowered || contains "wand" lowered
  then [18]
  else
  let has_offhand :=
    contains "off-hand" lowered || contains "off hand" lowered
    || contains "offhand" lowered || contains "offhands" lowered
    || contains "shield" lowered
    || contains "off-hand" section_lowered
    || contains "off hand" section_lowered
    || contains "offhand" section_lowered
    || contains "offhands" section_lowered in
  let has_mainhand :=
    contains "weapon" lowered || contains "main hand" lowered
    || contains "main-hand" lowered || contains "mainhand" lowered
    || contains "mainhands" lowered
    || contains "main hand" section_lowered
    || contains "main-hand" section_lowered
    || contains "mainhand" section_lowered in
  let is_weapon_hand_section :=
    has_dual_wield || contains "weapon" lowered || contains "handed" lowered
    || contains "one-hand" lowered || contains "one hand" lowered
    || contains "1-hand" lowered || contains "1 hand" lowered
    || contains "two-hand" lowered || contains "two hand" lowered
    || contains "2-hand" lowered || contains "2 hand" lowered
    || contains "main hand" lowered || contains "off-hand" lowered
    || contains "off hand" lowered || contains "mainhand" lowered
    || contains "offhand" lowered || contains "mainhands" lowered
    || contains "offhands" lowered in
  if (contains "hand" lowered || contains "glove" lowered)
     && negb is_weapon_hand_section
  then [10]
  else if contains "waist" lowered || contains "belt" lowered then [6]
  else if contains "leg" lowered then [7]
  else if contains "feet" lowered || contains "boot" lowered then [8]
  else if contains "ring" lowered then [11; 12]
  else if contains "trinket" lowered then [13; 14]
  else if has_dual_wield then [16; 17]
  else if has_offhand && has_mainhand then [16; 17]
  else if has_offhand then [17]
  else if has_mainhand && has_offhand then [16; 17]
  else if has_mainhand then [16]
  else [].

(** [mentions keywords text]: some keyword occurs in the lowered text. *)
Definition mentions (keywords : list string) (text : string) : bool :=
  existsb (fun k => contains k (lower text)) keywords.

(** The keywords that [section_slot_ids] tests before it looks at hands, and
    the ones that make up [is_weapon_hand_section]. *)
Definition earlier_keywords : list string :=
  [ "head"; "neck"; "shoulder"; "back"; "cloak"; "chest"; "wrist"; "idol";
    "relic"; "totem"; "libram"; "ranged"; "wand" ].

Definition weapon_hand_cues : list string :=
  [ "dual-wield"; "dual wield"; "weapon"; "handed"; "one-hand"; "one hand";
    "1-hand"; "1 hand"; "two-hand"; "two hand"; "2-hand"; "2 hand";
    "main hand"; "off-hand"; "off hand"; "mainhand"; "offhand"; "mainhands";
    "offhands" ].

(** The weapon cues that the specification names. *)
Definition named_weapon_cues : list string :=
  [ "weapon"; "handed"; "main hand"; "off hand" ].

(** The patterns of the table parsers, all with [re.S | re.I]
    (the item patterns with [re.I]). *)
Definition HTML_TR_RE : regex :=
  Seq [lit_ci "<tr"; Star (notc ">"); chr ">"; Grp 1 (StarLazy any);
       lit_ci "</tr>"].
Definition TR_RE : regex :=
  Seq [lit_ci "[tr]"; Grp 1 (StarLazy any); lit_ci "[/tr]"].
Definition HTML_TD_RE : regex :=
  Seq [lit_ci "<td"; Star (notc ">"); chr ">"; Grp 1 (StarLazy any);
       lit_ci "</td>"].
Definition TD_RE : regex :=
  Seq [lit_ci "[td"; Star (notc "]"); chr "]"; Grp 1 (StarLazy any);
       lit_ci "[/td]"].
Definition LINK_ITEM_RE : regex :=
  Seq [lit_ci "/tbc/item="; Grp 1 (Plus digit)].
Definition ITEM_WS_RE : regex :=
  Seq [lit_ci "[item="; Star space; Grp 1 (Plus digit); Star space; chr "]"].
Definition ITEM_RE : regex :=
  Seq [lit_ci "[item="; Grp 1 (Plus digit); chr "]"].
Definition TABLE_RE : regex :=
  Seq [lit_ci "[table"; Star (notc "]"); chr "]"; Grp 1 (StarLazy any);
       lit_ci "[/table]"].
Definition HTML_TABLE_RE : regex :=
  Seq [lit_ci "<table"; Star (notc ">"); chr ">"; StarLazy any;
       lit_ci "</table>"].
Definition HEADING_RE : regex :=
  Seq [lit_ci "[h"; range "2" "6"; Star (notc "]"); chr "]";
       Grp 1 (StarLazy any); lit_ci "[/h"; range "2" "6"; chr "]"].
Definition HTML_HEADING_RE : regex :=
  Seq [lit_ci "<h"; range "2" "6"; Star (notc ">"); chr ">";
       Grp 1 (StarLazy any); lit_ci "</h"; range "2" "6"; chr ">"].


(** The loop body [if item_id not in ranked: ranked.append(item_id)], which
    the parsers and the merge share. *)
Definition append_new (ordered : list Z) (item_id : Z) : list Z :=
  if bool_decide (item_id ∈ ordered) then ordered else ordered ++ [item_id].

(** [for item_id in items: if item_id not in ordered: ordered.append(item_id)] *)
Definition extend_new (ordered items : list Z) : list Z :=
  foldl append_new ordered items.

(** [re.findall(a, s)], or [re.findall(b, s)] when that list is empty. *)
Definition findall_or (a b : regex) (s : string) : list string :=
  match findall a s with
  | [] => findall b s
  | found => found
  end.

(** The body of [for row in rows] in [parse_ranked_items_from_table]. *)
Definition ranked_row_step (ranked : list Z) (row : string) : list Z :=
  let cells := findall_or HTML_TD_RE TD_RE row in
  if (length cells <? 2)%nat then ranked
  else
    let item_cell := nth 1 cells "" in
    let item_ids := map int (findall_or LINK_ITEM_RE ITEM_WS_RE item_cell) in
    extend_new ranked item_ids.

Definition parse_ranked_items_from_table (table_html : string) : list Z :=
  let rows := findall_or HTML_TR_RE TR_RE table_html in
  foldl ranked_row_step [] rows.

Definition parse_linked_item_ids (section_html : string) : list Z :=
  let item_ids := map int (findall_or LINK_ITEM_RE ITEM_WS_RE section_html) in
  extend_new [] item_ids.

(** The body of [for table_inner in table_blocks], markup branch. *)
Definition markup_table_step (ranked : list Z) (table_inner : string) : list Z :=
  let table_markup := "[table]" +:+ table_inner +:+ "[/table]" in
  let parsed := parse_ranked_items_from_table table_markup in
  let ranked := extend_new ranked parsed in
  match parsed with
  | [] => extend_new ranked (map int (findall ITEM_RE table_markup))
  | _ => ranked
  end.

(** The body of [for table_html in table_blocks], [<noscript>] branch. *)
Definition html_table_step (ranked : list Z) (table_html : string) : list Z :=
  extend_new ranked (parse_ranked_items_from_table table_html).

(** The list [ranked] of one section; [is_markup] is the test [if markup]. *)
Definition ranked_of_section (is_markup : bool) (section_html : string)
    : list Z :=
  let ranked :=
    if is_markup
    then foldl markup_table_step [] (findall TABLE_RE section_html)
    else foldl html_table_step [] (findall0 HTML_TABLE_RE section_html) in
  match ranked with
  | [] => parse_linked_item_ids section_html
  | _ => ranked
  end.

(** [for slot_id in target_slots: slot_to_items[slot_id] = ranked] *)
Definition assign_slots (slot_to_items : slot_map) (target_slots : list Z)
    (ranked : list Z) : slot_map :=
  foldl (fun d slot_id => <[slot_id := ranked]> d) slot_to_items target_slots.

Section with_html.
(** [html.unescape]: library code. *)
Variable html_unescape : string -> string.

Definition clean_text (value : string) : string :=
  let value := html_unescape value in
  let value := sub HTML_TAG_RE " " value in
  strip (sub WS_RE " " value).

(** The heading and the text of the section number [idx]. *)
Definition section_heading (m : rmatch) : string := clean_text (group 1 m).

Definition section_text (source_text : string) (sections : list rmatch)
    (idx : nat) (m : rmatch) : string :=
  let start := m_end m in
  let stop :=
    match sections !! S idx with
    | Some next => m_start next
    | None => String.length source_text
    end in
  slice source_text start stop.

(** The body of [for idx, match in enumerate(sections)]. *)
Definition section_step (is_markup : bool) (source_text : string)
    (sections : list rmatch) (slot_to_items : slot_map)
    (im : nat * rmatch) : slot_map :=
  let '(idx, m) := im in
  let heading := section_heading m in
  let section_html := section_text source_text sections idx m in
  let target_slots := section_slot_ids heading section_html in
  match target_slots with
  | [] => slot_to_items
  | _ =>
      match ranked_of_section is_markup section_html with
      | [] => slot_to_items
      | ranked => assign_slots slot_to_items target_slots ranked
      end
  end.

Definition parse_sections (is_markup : bool) (source_text : string)
    (sections : list rmatch) : slot_map :=
  foldl (section_step is_markup source_text sections) ∅ (imap pair sections).

(** [parse_guide_slots], from the text of the file at [guide_path]. *)
Definition parse_guide_slots (html_text : string) : slot_map :=
  match extract_guide_markup html_text with
  | Some (String c rest) =>
      let markup := String c rest in
      parse_sections true markup (finditer HEADING_RE markup)
  | _ =>
      match extract_noscript html_text with
      | Some (String c rest) =>
          let noscript := String c rest in
          parse_sections false noscript (finditer HTML_HEADING_RE noscript)
      | _ => ∅
      end
  end.
End with_html.

(** The list [ordered] that one iteration of the slot loop builds. *)
Definition merge_slot (prev_slots curr_slots : slot_map) (slot_id : Z) : list Z :=
  extend_new (extend_new [] (dict_get curr_slots slot_id))
             (dict_get prev_slots slot_id).

(** One iteration of [for slot_id in all_slot_ids]. *)
Definition merge_step (prev_slots curr_slots : slot_map)
    (merged : slot_map) (slot_id : Z) : slot_map :=
  match merge_slot prev_slots curr_slots slot_id with
  | [] => merged
  | ordered => <[slot_id := ordered]> merged
  end.

(** [merge_slot_maps(prev_slots, curr_slots)].  The slot ids are visited in
    the iteration order of the Python set, here that of [elements]. *)
Definition merge_slot_maps (prev_slots curr_slots : slot_map) : slot_map :=
  let all_slot_ids : gset Z := dom prev_slots ∪ dom curr_slots in
  foldl (merge_step prev_slots curr_slots) ∅ (elements all_slot_ids).

(** The phase loop of [main] for one spec.  [parsed] is the map read for the
    phase ([{}] when the phase has no guide); the result is the entry stored in
    [per_class_profiles] for the phase, if any, and the new [prev_slot_map]. *)
Definition phase_step (phase : Z) (prev_slot_map parsed : slot_map)
    : option slot_map * slot_map :=
  let slot_map :=
    if 1 <? phase then merge_slot_maps prev_slot_map parsed else parsed in
  if bool_decide (slot_map = ∅) then (None, prev_slot_map)
  else (Some slot_map, slot_map).

(** [for phase in range(...)], from [phase] on. *)
Fixpoint run_phases (phase : Z) (prev_slot_map : slot_map)
    (parsed : list slot_map) : list (option slot_map) :=
  match parsed with
  | [] => []
  | m :: rest =>
      let '(stored, prev') := phase_step phase prev_slot_map m in
      stored :: run_phases (phase + 1) prev' rest
  end.

Definition main_phases (parsed : list slot_map) : list (option slot_map) :=
  run_phases 1 ∅ parsed.

(** The slots of phase [k] (1-based) as [write_class_file] reads them:
    [profiles[name].get(phase, {"slots": {}, ...})["slots"]]. *)
Definition phase_slots (parsed : list slot_map) (k : nat) : slot_map :=
  default ∅ (mjoin (main_phases parsed !! (k - 1)%nat)).

(** [PHASE_CATEGORY], in the order of its keys, which is the order of
    [for phase in range(1, 6)]. *)
Definition PHASE_CATEGORY : list (Z * string) :=
  [ (1, "phase_1"); (2, "phase_2"); (3, "phase_3"); (4, "phase_4");
    (5, "phase_5") ].

(** The truth value of [by_category.get(category)]: a path that is there and
    not empty. *)
Definition truthy (local_path : option string) : bool :=
  match local_path with
  | Some (String _ _) => true
  | _ => false
  end.

(** The body of [for phase in range(1, 6)] in [build_spec_phase_paths]. *)
Definition phase_path_step (by_category : gmap string string)
    (phase_paths : gmap Z string) (pc : Z * string) : gmap Z string :=
  let '(phase, category) := pc in
  let local_path := by_category !! category in
  let local_path :=
    if negb (truthy local_path) && (phase =? 1)
    then by_category !! "phase_pre_raid" else local_path in
  match local_path with
  | Some (String c rest) => <[phase := String c rest]> phase_paths
  | _ => phase_paths
  end.

(** [build_spec_phase_paths], from the list [downloaded_pages] of the spec:
    the category and the local path of each page, both strings as the
    download script writes them. *)
Definition build_spec_phase_paths (downloaded_pages : list (string * string))
    : gmap Z string :=
  let by_category : gmap string string :=
    foldl (fun d item => <[fst item := snd item]> d) ∅ downloaded_pages in
  foldl (phase_path_step by_category) ∅ PHASE_CATEGORY.

Section per_spec.
Variable html_unescape : string -> string.
(** The text of the file at [downloads_root / relative_path], or [None]
    when there is no such file. *)
Variable read_text : string -> option string.

(** The map [slot_map] that the phase loop of [main] reads for a phase. *)
Definition phase_guide (phase_paths : gmap Z string) (phase : Z) : slot_map :=
  match phase_paths !! phase with
  | Some relative_path =>
      match read_text relative_path with
      | Some html_text => parse_guide_slots html_unescape html_text
      | None => ∅
      end
  | None => ∅
  end.

(** The maps read for the five phases of a spec, and what [main] stores. *)
Definition spec_guides (downloaded_pages : list (string * string))
    : list slot_map :=
  map (phase_guide (build_spec_phase_paths downloaded_pages)) [1; 2; 3; 4; 5].

Definition spec_phase_slots (downloaded_pages : list (string * string))
    (k : nat) : slot_map :=
  phase_slots (spec_guides downloaded_pages) k.
End per_spec.

(** [lua_quote]: the value between two quotes, every backslash doubled and
    then every quote preceded by a backslash. *)
Definition lua_quote (value : string) : string :=
  String dq "" +:+
  replace (String dq "") (Markup.backslash (String dq ""))
    (replace "\" (Markup.backslash "\") value) +:+
  String dq "".

(** The text of a quoted literal, read the way a Lua reader takes the
    escapes that [lua_quote] writes: the character after a backslash is
    taken as it is, and the first quote without a backslash ends the text,
    which must end there. *)
Fixpoint unquote_from (s : string) : option string :=
  match s with
  | EmptyString => None
  | String c s' =>
      if Ascii.eqb c dq then
        match s' with EmptyString => Some EmptyString | _ => None end
      else if Ascii.eqb c "\" then
        match s' with
        | EmptyString => None
        | String d s'' => String d <$> unquote_from s''
        end
      else String c <$> unquote_from s'
  end.

Definition lua_unquote (s : string) : option string :=
  match s with
  | EmptyString => None
  | String c s' => if Ascii.eqb c dq then unquote_from s' else None
  end.

(** *** The section loop in the words of the specification *)

Section assignments.
Variable html_unescape : string -> string.

(** The assignment that a section makes: its target slots and its ranked
    list, when neither is empty. *)
Definition section_assignment (is_markup : bool) (source_text : string)
    (sections : list rmatch) (im : nat * rmatch)
    : option (list Z * list Z) :=
  let heading := section_heading html_unescape (snd im) in
  let section_html := section_text source_text sections (fst im) (snd im) in
  match section_slot_ids heading section_html,
        ranked_of_section is_markup section_html with
  | [], _ | _, [] => None
  | target_slots, ranked => Some (target_slots, ranked)
  end.

(** The assignments of a guide, in document order. *)
Definition assignments (is_markup : bool) (source_text : string)
    (sections : list rmatch) : list (list Z * list Z) :=
  omap (section_assignment is_markup source_text sections)
       (imap pair sections).

(** The assignments of [parse_guide_slots]: those of the markup, or of the
    [<noscript>] block when the page has no markup. *)
Definition guide_assignments (html_text : string)
    : list (list Z * list Z) :=
  match extract_guide_markup html_text with
  | Some (String c rest) =>
      let markup := String c rest in
      assignments true markup (finditer HEADING_RE markup)
  | _ =>
      match extract_noscript html_text with
      | Some (String c rest) =>
          let noscript := String c rest in
          assignments false noscript (finditer HTML_HEADING_RE noscript)
      | _ => []
      end
  end.
End assignments.

(** The list of the last assignment that targets the slot. *)
Definition last_assigned (slot_id : Z) (made : list (list Z * list Z))
    : option (list Z) :=
  snd <$> last (filter (fun a => slot_id ∈ fst a) made).

(** *** The phases in the words of the specification *)

(** The items seen for slot [s] in the phases [k], [k-1], ..., 1: the most
    recent phase first, each phase in its own order. *)
Definition recent_first (parsed : list slot_map) (k : nat) (s : Z) : list Z :=
  concat (reverse (map (fun m => dict_get m s) (take k parsed))).

(** The lists of one slot over the phases, from the lists read for it. *)
Fixpoint slot_lists (phase : Z) (prevl : list Z) (ls : list (list Z))
    : list (list Z) :=
  match ls with
  | [] => []
  | l :: rest =>
      let cur := if 1 <? phase then dedup_keep_first (l ++ prevl) else l in
      cur :: slot_lists (phase + 1) cur rest
  end.

(** *** The slot ids of the classifier *)

(** The lists that [section_slot_ids] returns for a heading it recognises,
    and the slot ids they name. *)
Definition slot_id_groups : list (list Z) :=
  [ [1]; [2]; [3]; [15]; [5]; [9]; [18]; [10]; [6]; [7]; [8]; [11; 12];
    [13; 14]; [16; 17]; [17]; [16] ].

Definition known_slot_ids : list Z :=
  [1; 2; 3; 5; 6; 7; 8; 9; 10; 11; 12; 13; 14; 15; 16; 17; 18].

(** *** Slot maps with ranked lists *)

(** Every list of the map has an item and names no item twice. *)
Definition well_ranked (m : slot_map) : Prop :=
  map_Forall (fun _ (l : list Z) => l <> [] /\ NoDup l) m.

(** *** The ranked list of a section, in closed form *)

(** The item ids that one table row contributes: those of its second cell,
    when it has two cells. *)
Definition ranked_row_ids (row : string) : list Z :=
  let cells := findall_or HTML_TD_RE TD_RE row in
  if (length cells <? 2)%nat then []
  else map int (findall_or LINK_ITEM_RE ITEM_WS_RE (nth 1 cells "")).

(** The item ids of the rows of a table, with their repetitions. *)
Definition table_row_ids (table_html : string) : list Z :=
  concat (map ranked_row_ids (findall_or HTML_TR_RE TR_RE table_html)).

(** The item ids that a markup table contributes: those of its rows, or
    every [item] tag of the table when its rows give none. *)
Definition markup_table_ids (table_inner : string) : list Z :=
  let table_markup := "[table]" +:+ table_inner +:+ "[/table]" in
  match dedup_keep_first (table_row_ids table_markup) with
  | [] => map int (findall ITEM_RE table_markup)
  | ranked => ranked
  end.

(** The last page of a category, as the dict [by_category] keeps it. *)
Definition last_page (category : string)
    (downloaded_pages : list (string * string)) : option string :=
  snd <$> last (filter (fun item => fst item = category) downloaded_pages).

(** The path that the dict keeps for a category, when it is one that
    [if local_path] accepts. *)
Definition usable_page (category : string)
    (downloaded_pages : list (string * string)) : option string :=
  match last_page category downloaded_pages with
  | Some (String c rest) => Some (String c rest)
  | _ => None
  end.

(** What the section loop of [parse_guide_slots] keeps true of
    [slot_to_items]. *)
Definition slots_inv (d : slot_map) : Prop :=
  well_ranked d /\
  (forall s, s ∈ dom d -> s ∈ known_slot_ids) /\
  d !! 11 = d !! 12 /\ d !! 13 = d !! 14.

End Parser.

(** ** [check_suspicious_data.py] *)

Module Check.

Import Str Parser.

(** [summarize_phase]: the number of slots, the number of ranked items and
    the number of slots with at most one item. *)
Definition summarize_phase (slot_map : slot_map) : nat * nat * nat :=
  let values := (map_to_list slot_map).*2 in
  (size slot_map,
   sum_list (length <$> values),
   length (filter (fun v : list Z => (length v <= 1)%nat) values)).

Section with_files.
Variable html_unescape : string -> string.
(** The text of the file at [downloads_root / rel], or [None] when there is
    no such file. *)
Variable read_text : string -> option string.

(** The body of the first loop of [check_spec], on [phase_maps] and
    [prev_slot_map] (the findings that the loop appends depend on them and
    do not change them). *)
Definition check_phase_step (phase_paths : gmap Z string)
    (st : gmap Z slot_map * slot_map) (phase : Z)
    : gmap Z slot_map * slot_map :=
  let '(phase_maps, prev_slot_map) := st in
  match phase_paths !! phase with
  | None => st
  | Some rel =>
      match read_text rel with
      | None => st
      | Some html_text =>
          let slot_map := parse_guide_slots html_unescape html_text in
          let slot_map :=
            if 1 <? phase then merge_slot_maps prev_slot_map slot_map
            else slot_map in
          (<[phase := slot_map]> phase_maps, slot_map)
      end
  end.

(** [phase_maps] after the first loop. *)
Definition check_phase_maps (downloaded_pages : list (string * string))
    : gmap Z slot_map :=
  fst (foldl (check_phase_step (build_spec_phase_paths downloaded_pages))
             (∅, ∅) [1; 2; 3; 4; 5]).
End with_files.

(** The second loop of [check_spec] at [phase]: [None] where it continues,
    else the two differences [prev_slots - curr_slots] and
    [prev_ranks - curr_ranks] that it tests. *)
Definition phase_drops (phase_maps : gmap Z slot_map) (phase : Z)
    : option (Z * Z) :=
  let prev := default ∅ (phase_maps !! (phase - 1)) in
  let curr := default ∅ (phase_maps !! phase) in
  if bool_decide (prev = ∅) || bool_decide (curr = ∅) then None
  else
    let '(prev_slots, prev_ranks, _) := summarize_phase prev in
    let '(curr_slots, curr_ranks, _) := summarize_phase curr in
    Some (Z.of_nat prev_slots - Z.of_nat curr_slots,
          Z.of_nat prev_ranks - Z.of_nat curr_ranks).

(** The test of the finding "slot_drop_between_phases". *)
Definition slot_drop_found (max_slot_drop : Z) (phase_maps : gmap Z slot_map)
    (phase : Z) : bool :=
  match phase_drops phase_maps phase with
  | Some (slot_drop, _) => max_slot_drop <? slot_drop
  | None => false
  end.

(** What the first loop keeps true after the phases 1..[n]. *)
Definition check_inv (parsed : Z -> slot_map) (n : nat)
    (st : gmap Z slot_map * slot_map) : Prop :=
  (forall k m, fst st !! k = Some m -> 1 <= k <= Z.of_nat n /\ slots_inv m) /\
  slots_inv (snd st) /\
  (forall m, fst st !! Z.of_nat n = Some m -> snd st = m) /\
  (forall k p c, 2 <= k -> fst st !! (k - 1) = Some p -> fst st !! k = Some c ->
     c = merge_slot_maps p (parsed k)).

End Check.

(** ** The merge on Python objects

    Dicts and lists are mutable objects with an identity.  The store below
    keeps them by address, so that a call can be asked what it did to the
    objects it was handed. *)

Module PyHeap.

Abbreviation loc := positive.

Inductive pyobj :=
| PyList (items : list Z)
| PyDict (entries : gmap Z loc).

Abbreviation heap := (gmap loc pyobj).

(** A computation on the store; [None] is a raised exception. *)
Definition M (A : Type) : Type := heap -> option (A * heap).

#[export] Instance M_ret : MRet M := fun A a h => Some (a, h).

#[export] Instance M_bind : MBind M := fun A B f m h =>
  match m h with
  | Some (a, h') => f a h'
  | None => None
  end.

(** A new object. *)
Definition alloc (o : pyobj) : M loc :=
  fun h => let l := fresh (dom h) in Some (l, <[l := o]> h).

Definition read_list (l : loc) : M (list Z) :=
  fun h => match h !! l with
           | Some (PyList xs) => Some (xs, h)
           | _ => None
           end.

Definition read_dict (l : loc) : M (gmap Z loc) :=
  fun h => match h !! l with
           | Some (PyDict e) => Some (e, h)
           | _ => None
           end.

(** [l.append(x)] *)
Definition list_append (l : loc) (x : Z) : M unit :=
  fun h => match h !! l with
           | Some (PyList xs) => Some (tt, <[l := PyList (xs ++ [x])]> h)
           | _ => None
           end.

(** [d[k] = v] *)
Definition dict_setitem (d : loc) (k : Z) (v : loc) : M unit :=
  fun h => match h !! d with
           | Some (PyDict e) => Some (tt, <[d := PyDict (<[k := v]> e)]> h)
           | _ => None
           end.

(** [d.get(k, [])]: the default is a list object of its own. *)
Definition dict_get_or_new (d : loc) (k : Z) : M loc :=
  dflt ← alloc (PyList []);
  e ← read_dict d;
  mret (default dflt (e !! k)).

Fixpoint for_each {A} (xs : list A) (body : A -> M unit) : M unit :=
  match xs with
  | [] => mret tt
  | x :: rest => body x ;; for_each rest body
  end.

(** [for item_id in src: if item_id not in ordered: ordered.append(item_id)].
    The items of [src] are read once: [ordered] is a new object in the only
    caller, so the loop never appends to the list it walks. *)
Definition extend_new (ordered src : loc) : M unit :=
  items ← read_list src;
  for_each items (fun item_id =>
    xs ← read_list ordered;
    if bool_decide (item_id ∈ xs) then mret tt
    else list_append ordered item_id).

Definition merge_body (prev_slots curr_slots merged : loc) (slot_id : Z)
    : M unit :=
  ordered ← alloc (PyList []);
  src ← dict_get_or_new curr_slots slot_id;
  extend_new ordered src ;;
  src ← dict_get_or_new prev_slots slot_id;
  extend_new ordered src ;;
  xs ← read_list ordered;
  match xs with
  | [] => mret tt
  | _ => dict_setitem merged slot_id ordered
  end.

(** [merge_slot_maps(prev_slots, curr_slots)] on objects. *)
Definition merge_slot_maps (prev_slots curr_slots : loc) : M loc :=
  merged ← alloc (PyDict ∅);
  p ← read_dict prev_slots;
  c ← read_dict curr_slots;
  for_each (elements (dom p ∪ dom c))
           (merge_body prev_slots curr_slots merged) ;;
  mret merged.

(** The list object at [l], if it is one. *)
Definition list_at (h : heap) (l : loc) : option (list Z) :=
  match h !! l with
  | Some (PyList xs) => Some xs
  | _ => None
  end.

(** The value of the dict object at [d]: its keys with the contents of the
    lists they refer to. *)
Definition dict_at (h : heap) (d : loc) : option slot_map :=
  match h !! d with
  | Some (PyDict e) => Some (omap (list_at h) e)
  | _ => None
  end.

(** [d] is a [Dict[int, List[int]]]: a dict whose values are lists. *)
Definition is_slot_map (h : heap) (d : loc) : bool :=
  match h !! d with
  | Some (PyDict e) =>
      bool_decide (map_Forall (fun _ l => is_Some (list_at h l)) e)
  | _ => false
  end.

(** [wp m h Q]: from the store [h] the computation [m] returns normally,
    with a value and a store that satisfy [Q]. *)
Definition wp {A} (m : M A) (h : heap) (Q : A -> heap -> Prop) : Prop :=
  match m h with
  | Some (a, h') => Q a h'
  | None => False
  end.

(** What holds between two iterations of the slot loop of the merge that
    started in [h0] on the dicts [e_p] and [e_c]: the objects of [h0] are as
    they were, and the dict [merged] holds the lists of the slots done. *)
Definition merge_inv (h0 : heap) (merged : loc) (e_p e_c : gmap Z loc)
    (processed : list Z) (h : heap) : Prop :=
  h0 ⊆ h /\
  exists e, h !! merged = Some (PyDict e) /\
    (forall k l, e !! k = Some l -> l <> merged /\ is_Some (list_at h l)) /\
    omap (list_at h) e =
      foldl (Parser.merge_step (omap (list_at h0) e_p) (omap (list_at h0) e_c))
            ∅ processed.

(** What the slot loop also keeps: the lists that [merged] refers to are
    objects made since [h0], one for each slot. *)
Definition fresh_inv (h0 : heap) (merged : loc) (h : heap) : Prop :=
  h0 ⊆ h /\
  exists e, h !! merged = Some (PyDict e) /\
    (forall k l, e !! k = Some l ->
       l <> merged /\ is_Some (list_at h l) /\ h0 !! l = None) /\
    (forall k1 k2 l, e !! k1 = Some l -> e !! k2 = Some l -> k1 = k2).

End PyHeap.

(** ** Example pages *)

Module Examples.

Import Str Re.

(** The fixture of [tests/test_smoke_cli.py]. *)
Definition smoke_markup : string :=
  "[h3 toc=" +:+ quoted "Head" +:+ "]Head[/h3]"
  +:+ "[table][tr][td]Rank 1[/td][td][item=12345][/td][td]Source[/td][/tr][/table]".

Definition smoke_lookup : gmap string string := {["12345" := "Example Helm"]}.

(** A section with a header row, a row of two tied items and a row that
    names the first item again. *)
Definition tied_section : string :=
  "[table][tr][td]Rank[/td][td][item=5][/td][/tr]"
  +:+ "[tr][td][b]Best[/b][/td][td][item=5][item=6][/td][td]Raid[/td][/tr]"
  +:+ "[tr][td]Alt[/td][td][item=5][/td][/tr][/table]".

Definition tied_markup : string := "[h4]Hands[/h4]" +:+ tied_section.

(** Its three rows, as [TR_RE] finds them. *)
Definition tied_header_row : rmatch :=
  {| m_start := 0; m_end := 39;
     m_groups := [(1%nat, "[td]Rank[/td][td][item=5][/td]")] |}.

Definition tied_row : rmatch :=
  {| m_start := 39; m_end := 106;
     m_groups :=
       [(1%nat, "[td][b]Best[/b][/td][td][item=5][item=6][/td][td]Raid[/td]")] |}.

Definition tied_last_row : rmatch :=
  {| m_start := 106; m_end := 144;
     m_groups := [(1%nat, "[td]Alt[/td][td][item=5][/td]")] |}.

(** A section without a table: inline references only. *)
Definition inline_section : string :=
  " take [item=1] or [spell=2] or [ITEM=1], then [item=3]".

Definition inline_markup : string := "[h4]Best Red Gems[/h4]" +:+ inline_section.

Definition inline_head_markup : string := "[h4]Head[/h4]" +:+ inline_section.

(** A classified header whose section has no table and no reference. *)
Definition bare_markup : string := "[h4]Head[/h4] nothing listed yet".

(** A page around a guide markup, for [parse_guide_slots]. *)
Definition page (markup : string) : string :=
  "<script>WH.markup.printHtml(" +:+ quoted markup +:+ ", "
  +:+ quoted "guide-body" +:+ ");</script>".

(** Two sections for the head slot, the second without any item, and a
    section for the rings. *)
Definition two_heads : string :=
  "[h2]Head[/h2][table][tr][td]Best[/td][td][item=1][/td][/tr][/table]"
  +:+ "[h3]Rings[/h3][item=7][item=8][item=7]"
  +:+ "[h2]Head[/h2]to be written".

(** A page without guide markup whose [<noscript>] block has a ranked
    table. *)
Definition noscript_page : string :=
  "<html><noscript><h2>Head</h2><table><tr><td>Best</td>"
  +:+ "<td>/tbc/item=77</td></tr></table></noscript></html>".

(** A page that is not a guide. *)
Definition plain_page : string := "<html><body>No guide here</body></html>".

(** Five phases of one slot: the lists read are [10, 20], [20, 30], none,
    [40, 10] and [50]. *)
Definition example_phases : list slot_map :=
  [ {[1 := [10; 20]]}; {[1 := [20; 30]]}; ∅; {[1 := [40; 10]]};
    {[1 := [50]]} ].

(** The store of the example: the dict 1 is [{1: [10]}] and the dict 2 is
    [{1: [20, 10]}]. *)
Definition example_heap : gmap positive PyHeap.pyobj :=
  {[ 1%positive := PyHeap.PyDict {[1 := 3%positive]};
     2%positive := PyHeap.PyDict {[1 := 4%positive]};
     3%positive := PyHeap.PyList [10];
     4%positive := PyHeap.PyList [20; 10] ]}.

(** The pages of a spec: no page for the phases 1, 3 and 5, two for the
    phase 2, an empty path for the phase 4; and the files on disk. *)
Definition example_pages : list (string * string) :=
  [ ("phase_pre_raid", "druid/pre.html"); ("phase_2", "druid/p2.html");
    ("enchants_gems", "druid/gems.html"); ("phase_2", "druid/p2b.html");
    ("phase_4", "") ].

Definition example_files (path : string) : option string :=
  if String.eqb path "druid/pre.html" then Some (page two_heads)
  else if String.eqb path "druid/p2b.html"
       then Some (page "[h2]Neck[/h2][item=9]")
       else None.

End Examples.

(** * Properties *)

(** ** Lists *)

Lemma filter_none {A} (P : A -> Prop) `{!forall x, Decision (P x)} (l : list A) :
  (forall x, x ∈ l -> ~ P x) -> filter P l = [].
Proof.
  induction l as [|x l IH]; intros HP; [done|].
  rewrite filter_cons, decide_False by (apply HP; left).
  apply IH. intros y Hy. apply HP. by right.
Qed.

Lemma filter_every {A} (P : A -> Prop) `{!forall x, Decision (P x)} (l : list A) :
  (forall x, x ∈ l -> P x) -> filter P l = l.
Proof.
  induction l as [|x l IH]; intros HP; [done|].
  rewrite filter_cons, decide_True by (apply HP; left).
  f_equal. apply IH. intros y Hy. apply HP. by right.
Qed.


(** ** The merge and the phases *)

Section merge_properties.
Import Parser.

Section dedup.
Context `{EqDecision A}.
Implicit Types (l : list A) (x : A).

Lemma dedup_filter (P : A -> Prop) `{!forall x, Decision (P x)} l :
  dedup_keep_first (filter P l) = filter P (dedup_keep_first l).
Proof.
  induction l as [|x l IH]; [done|].
  rewrite filter_cons. destruct (decide (P x)) as [HP|HP]; simpl.
  - rewrite filter_cons, decide_True by done. f_equal.
    rewrite IH. rewrite !list_filter_filter. apply list_filter_iff. tauto.
  - rewrite filter_cons, decide_False by done.
    rewrite IH, list_filter_filter. apply list_filter_iff.
    intros y. split; [|tauto]. intros Hy; split; [done|]. congruence.
Qed.

Lemma elem_of_dedup x l : x ∈ dedup_keep_first l <-> x ∈ l.
Proof.
  induction l as [|y l IH]; [done|]. simpl.
  rewrite !elem_of_cons, list_elem_of_filter, IH.
  destruct (decide (x = y)); tauto.
Qed.

Lemma NoDup_dedup l : NoDup (dedup_keep_first l).
Proof.
  induction l as [|y l IH]; simpl; constructor.
  - rewrite list_elem_of_filter. tauto.
  - by apply NoDup_filter.
Qed.

Lemma filter_not_in_nil l : filter (fun y => y ∉ ([] : list A)) l = l.
Proof. apply filter_every. intros x _. apply not_elem_of_nil. Qed.

Lemma dedup_app l1 l2 :
  dedup_keep_first (l1 ++ l2) =
  dedup_keep_first l1 ++ filter (fun y => y ∉ l1) (dedup_keep_first l2).
Proof.
  induction l1 as [|x l1 IH]; simpl.
  - by rewrite filter_not_in_nil.
  - f_equal. rewrite IH, filter_app, list_filter_filter. f_equal.
    apply list_filter_iff. intros y. rewrite elem_of_cons. tauto.
Qed.

End dedup.

Lemma extend_new_spec acc l :
  extend_new acc l = acc ++ dedup_keep_first (filter (fun y => y ∉ acc) l).
Proof.
  unfold extend_new.
  revert acc; induction l as [|x l IH]; intros acc.
  - by rewrite app_nil_r.
  - cbn [foldl]. rewrite IH, filter_cons. unfold append_new.
    case_bool_decide as Hx.
    + by rewrite decide_False by tauto.
    + rewrite decide_True by done. cbn [dedup_keep_first].
      rewrite <- app_assoc. cbn [app]. do 2 f_equal.
      rewrite <- dedup_filter. f_equal.
      rewrite list_filter_filter. apply list_filter_iff.
      intros y. rewrite elem_of_app, list_elem_of_singleton. tauto.
Qed.

Lemma merge_slot_dedup A B s :
  merge_slot A B s = dedup_keep_first (dict_get B s ++ dict_get A s).
Proof.
  unfold merge_slot. rewrite !extend_new_spec, dedup_app. cbn [app].
  rewrite filter_not_in_nil.
  f_equal. rewrite dedup_filter. apply list_filter_iff.
  intros y. by rewrite elem_of_dedup.
Qed.

Lemma merge_step_lookup A B (m : slot_map) k s :
  merge_step A B m k !! s =
  if decide (s = k) then
    match merge_slot A B s with [] => m !! s | l => Some l end
  else m !! s.
Proof.
  unfold merge_step. destruct (decide (s = k)) as [->|Hne].
  - destruct (merge_slot A B k); [done|by rewrite lookup_insert_eq].
  - destruct (merge_slot A B k); [done|by rewrite lookup_insert_ne].
Qed.

Lemma foldl_merge_step_lookup A B ks (m : slot_map) s :
  foldl (merge_step A B) m ks !! s =
  if decide (s ∈ ks) then
    match merge_slot A B s with [] => m !! s | l => Some l end
  else m !! s.
Proof.
  revert m; induction ks as [|k ks IH]; intros m; cbn [foldl].
  - destruct (decide (s ∈ [])) as [H|]; [by apply elem_of_nil in H|done].
  - rewrite IH, merge_step_lookup.
    destruct (decide (s = k)) as [Heq|Hne].
    + subst k. rewrite (decide_True (P := s ∈ s :: ks)) by left.
      destruct (decide (s ∈ ks)); by destruct (merge_slot A B s).
    + destruct (decide (s ∈ ks)), (decide (s ∈ k :: ks)) as [H2|H2];
        try done; rewrite elem_of_cons in H2; tauto.
Qed.

Lemma dict_get_nil_absent (d : slot_map) s : d !! s = None -> dict_get d s = [].
Proof. unfold dict_get. by intros ->. Qed.

Lemma merge_slot_maps_lookup A B s :
  merge_slot_maps A B !! s =
  match merge_slot A B s with [] => None | l => Some l end.
Proof.
  unfold merge_slot_maps. rewrite foldl_merge_step_lookup, lookup_empty.
  destruct (decide _) as [|Hn]; [done|].
  rewrite elem_of_elements, elem_of_union, !elem_of_dom in Hn.
  assert (A !! s = None) by (destruct (A !! s) eqn:?; [exfalso; eauto|done]).
  assert (B !! s = None) by (destruct (B !! s) eqn:?; [exfalso; eauto|done]).
  rewrite merge_slot_dedup, !dict_get_nil_absent by done. done.
Qed.

Lemma dict_get_merge A B s :
  dict_get (merge_slot_maps A B) s = dedup_keep_first (dict_get B s ++ dict_get A s).
Proof.
  unfold dict_get at 1. rewrite merge_slot_maps_lookup, merge_slot_dedup.
  by destruct (dedup_keep_first _).
Qed.

Lemma dedup_nil_inv `{EqDecision A} (l : list A) :
  dedup_keep_first l = [] -> l = [].
Proof. by destruct l. Qed.

Lemma run_phases_slot_lists s ms : forall phase prev i,
  1 <= phase -> (phase = 1 -> dict_get prev s = []) ->
  dict_get (default ∅ (mjoin (run_phases phase prev ms !! i))) s =
  default [] (slot_lists phase (dict_get prev s)
                (map (fun m => dict_get m s) ms) !! i).
Proof.
  induction ms as [|m ms IH]; intros phase prev i Hph Hprev; [done|].
  cbn [run_phases map slot_lists]. unfold phase_step.
  set (sm := if 1 <? phase then merge_slot_maps prev m else m).
  set (cur := if 1 <? phase then _ else _).
  assert (Hcur : dict_get sm s = cur).
  { subst sm cur. destruct (1 <? phase); [apply dict_get_merge|done]. }
  case_bool_decide as Hempty.
  - assert (Hnil : cur = []) by (by rewrite <- Hcur, Hempty).
    assert (Hp : dict_get prev s = []).
    { subst cur. destruct (1 <? phase) eqn:E.
      - apply dedup_nil_inv, app_eq_nil in Hnil. tauto.
      - apply Hprev. apply Z.ltb_ge in E. lia. }
    destruct i as [|i]; cbn [lookup list_lookup].
    + by rewrite Hnil.
    + rewrite IH by lia. by rewrite Hp, Hnil.
  - destruct i as [|i]; cbn [lookup list_lookup]; [done|].
    rewrite IH by lia. by rewrite Hcur.
Qed.

Lemma dedup_id `{EqDecision A} (l : list A) :
  NoDup l -> dedup_keep_first l = l.
Proof.
  induction 1 as [|x l Hx Hl IH]; [done|]. simpl. rewrite IH. f_equal.
  apply filter_every. intros y Hy ->. done.
Qed.

Lemma dedup_app_dedup `{EqDecision A} (a b : list A) :
  dedup_keep_first (a ++ dedup_keep_first b) = dedup_keep_first (a ++ b).
Proof. by rewrite !dedup_app, (dedup_id (dedup_keep_first b)) by apply NoDup_dedup. Qed.

Lemma slot_lists_later ls : forall phase prevl i l,
  1 < phase -> ls !! i = Some l ->
  slot_lists phase prevl ls !! i =
  Some (dedup_keep_first (concat (reverse (take (S i) ls)) ++ prevl)).
Proof.
  induction ls as [|l0 ls IH]; intros phase prevl i l Hph Hi; [done|].
  cbn [slot_lists]. rewrite (proj2 (Z.ltb_lt 1 phase)) by done.
  destruct i as [|i]; cbn [lookup list_lookup] in *.
  - assert (l0 = l) as -> by congruence.
    change (take 1 (l :: ls)) with [l]. cbn. by rewrite app_nil_r.
  - rewrite (IH _ _ _ l) by (done || lia).
    rewrite dedup_app_dedup. do 2 f_equal.
    change (take (S (S i)) (l0 :: ls)) with (l0 :: take (S i) ls).
    rewrite reverse_cons, concat_app. cbn [concat].
    by rewrite app_nil_r, <- app_assoc.
Qed.

Lemma slot_lists_first ls : forall i l,
  ls !! i = Some l ->
  slot_lists 1 [] ls !! i =
  Some (match i with
        | O => l
        | S _ => dedup_keep_first (concat (reverse (take (S i) ls)))
        end).
Proof.
  destruct ls as [|l0 ls]; intros i l Hi; [done|].
  cbn [slot_lists]. change (1 <? 1) with false. cbv iota.
  destruct i as [|i]; cbn [lookup list_lookup] in *; [congruence|].
  rewrite (slot_lists_later _ _ _ _ l) by (done || lia). do 2 f_equal.
  change (take (S (S i)) (l0 :: ls)) with (l0 :: take (S i) ls).
  rewrite reverse_cons, concat_app. cbn. by rewrite app_nil_r.
Qed.

Lemma phase_slots_get parsed (k : nat) (s : Z) m :
  parsed !! k = Some m ->
  dict_get (phase_slots parsed (S k)) s =
  match k with
  | O => dict_get m s
  | S _ => dedup_keep_first (recent_first parsed (S k) s)
  end.
Proof.
  intros Hk. unfold phase_slots, main_phases.
  replace (S k - 1)%nat with k by lia.
  rewrite run_phases_slot_lists by done.
  change (dict_get ∅ s) with (@nil Z).
  rewrite (slot_lists_first _ _ (dict_get m s)) by (by rewrite list_lookup_fmap, Hk).
  cbn [default]. destruct k; [done|].
  unfold recent_first. by rewrite <- fmap_take.
Qed.

Lemma elem_of_recent_first parsed k s x :
  x ∈ recent_first parsed k s <->
  exists j m, (j < k)%nat /\ parsed !! j = Some m /\ x ∈ dict_get m s.
Proof.
  unfold recent_first. rewrite list_elem_of_In, in_concat.
  split.
  - intros (l & Hl & Hx). apply list_elem_of_In in Hl, Hx.
    rewrite elem_of_reverse, list_elem_of_fmap in Hl.
    destruct Hl as (m & -> & Hm). apply list_elem_of_lookup in Hm as [j Hj].
    apply lookup_take_Some in Hj as [Hj Hlt]. eauto.
  - intros (j & m & Hlt & Hj & Hx). exists (dict_get m s).
    rewrite <- !list_elem_of_In. split; [|done].
    rewrite elem_of_reverse, list_elem_of_fmap. exists m; split; [done|].
    apply list_elem_of_lookup. exists j. by apply lookup_take_Some.
Qed.

(** C1. For slot maps [A] (prior) and [B] (current) and a slot [s], the merge
    builds the list of the items of [B[s]] in their order, skipping the ones
    already added, followed by the items of [A[s]] in their order, skipping
    the ones already added.  That list is what the result holds for [s] (a
    list with no item is not stored: the slot is then left out); it has no
    duplicate, it contains every item of [A[s]] and of [B[s]], and a slot
    absent from both inputs is absent from the result. *)
Theorem merge_slot_maps_spec (A B : slot_map) (s : Z) :
  let merged := merge_slot_maps A B in
  let built := dedup_keep_first (dict_get B s ++ dict_get A s) in
  merge_slot A B s = built /\
  merged !! s = match built with [] => None | _ => Some built end /\
  dict_get merged s = built /\
  NoDup (dict_get merged s) /\
  (forall x, x ∈ dict_get A s \/ x ∈ dict_get B s ->
             exists l, merged !! s = Some l /\ x ∈ l) /\
  (s ∉ dom A -> s ∉ dom B -> s ∉ dom merged).
Proof.
  intros merged built.
  assert (Hslot : merge_slot A B s = built) by apply merge_slot_dedup.
  assert (Hlook : merged !! s = match built with [] => None | _ => Some built end).
  { unfold merged. rewrite merge_slot_maps_lookup, Hslot. by destruct built. }
  assert (Hget : dict_get merged s = built) by apply dict_get_merge.
  repeat split; try done.
  - rewrite Hget. apply NoDup_dedup.
  - intros x Hx. exists built. split.
    + rewrite Hlook. destruct built eqn:E; [|done].
      apply dedup_nil_inv, app_eq_nil in E as [EB EA].
      rewrite EA, EB in Hx. destruct Hx as [Hx|Hx]; by apply elem_of_nil in Hx.
    + unfold built. rewrite elem_of_dedup, elem_of_app. tauto.
  - intros HA%not_elem_of_dom HB%not_elem_of_dom. apply not_elem_of_dom.
    rewrite Hlook. unfold built. by rewrite !dict_get_nil_absent.
Qed.

(** C4. For the maps read for the phases 1, 2, ... and merged in turn as
    [main] does, the list of a slot at phase [k] contains exactly the items
    seen for the slot in the phases 1..k.  At phase 1 it is the list that was
    read; from phase 2 on it is the items of phase [k] in their order, then
    those of phase [k-1] not yet listed in their order, and so on down to
    phase 1: the most recent phase first, each phase in its own order. *)
Theorem phases_accumulate (parsed : list slot_map) (k : nat) (s : Z)
    (m : slot_map) :
  parsed !! k = Some m ->
  let result := dict_get (phase_slots parsed (S k)) s in
  (forall x, x ∈ result <->
     exists j mj, (j <= k)%nat /\ parsed !! j = Some mj /\ x ∈ dict_get mj s) /\
  result = match k with
           | O => dict_get m s
           | S _ => dedup_keep_first (recent_first parsed (S k) s)
           end.
Proof.
  intros Hk result. split; [|by apply phase_slots_get].
  intros x. unfold result. rewrite (phase_slots_get _ _ _ m) by done.
  destruct k as [|k].
  - split.
    + intros Hx. exists 0%nat, m. eauto.
    + intros (j & mj & Hj & Hmj & Hx). assert (j = 0%nat) as -> by lia.
      congruence.
  - rewrite elem_of_dedup, elem_of_recent_first.
    split; intros (j & mj & Hj & Hmj & Hx); exists j, mj;
      (split; [lia|done]).
Qed.

Lemma phases_accumulate_witness :
  let result := dict_get (phase_slots Examples.example_phases 5) 1 in
  (forall x, x ∈ result <->
     exists j mj, (j <= 4)%nat /\ Examples.example_phases !! j = Some mj /\
                  x ∈ dict_get mj 1) /\
  result = dedup_keep_first (recent_first Examples.example_phases 5 1).
Proof.
  apply (phases_accumulate Examples.example_phases 4 1 {[1 := [50]]}). reflexivity.
Defined.

Example phases_accumulate_run :
  map (fun k => dict_get (phase_slots Examples.example_phases k) 1) [1; 2; 3; 4; 5]%nat
  = [ [10; 20]; [20; 30; 10]; [20; 30; 10]; [40; 10; 20; 30];
      [50; 40; 10; 20; 30] ].
Proof. vm_compute. reflexivity. Qed.

Example merge_scenario :
  merge_slot_maps {[1 := [10]]} {[1 := [20; 10]]} = {[1 := [20; 10]]}.
Proof. vm_compute. reflexivity. Qed.

End merge_properties.

(** ** The merge on objects *)

Section heap_properties.
Import PyHeap.

Lemma wp_ret {A} (a : A) h Q : Q a h -> wp (mret a) h Q.
Proof. done. Qed.

Lemma wp_bind {A B} (m : M A) (f : A -> M B) h Q :
  wp m h (fun a h' => wp (f a) h' Q) -> wp (m ≫= f) h Q.
Proof.
  unfold wp, mbind, M_bind. by destruct (m h) as [[a h']|].
Qed.

Lemma wp_mono {A} (m : M A) h (Q Q' : A -> heap -> Prop) :
  wp m h Q -> (forall a h', Q a h' -> Q' a h') -> wp m h Q'.
Proof. unfold wp. destruct (m h) as [[a h']|]; [eauto|done]. Qed.

Lemma wp_alloc o h Q :
  (forall l, h !! l = None -> Q l (<[l := o]> h)) -> wp (alloc o) h Q.
Proof.
  intros HQ. unfold wp, alloc. apply HQ.
  apply not_elem_of_dom, is_fresh.
Qed.

Lemma wp_read_list l xs h Q :
  h !! l = Some (PyList xs) -> Q xs h -> wp (read_list l) h Q.
Proof. intros Hl HQ. unfold wp, read_list. by rewrite Hl. Qed.

Lemma wp_read_dict l e h Q :
  h !! l = Some (PyDict e) -> Q e h -> wp (read_dict l) h Q.
Proof. intros Hl HQ. unfold wp, read_dict. by rewrite Hl. Qed.

Lemma wp_list_append l x xs h (Q : unit -> heap -> Prop) :
  h !! l = Some (PyList xs) -> Q tt (<[l := PyList (xs ++ [x])]> h) ->
  wp (list_append l x) h Q.
Proof. intros Hl HQ. unfold wp, list_append. by rewrite Hl. Qed.

Lemma wp_dict_setitem d k v e h (Q : unit -> heap -> Prop) :
  h !! d = Some (PyDict e) -> Q tt (<[d := PyDict (<[k := v]> e)]> h) ->
  wp (dict_setitem d k v) h Q.
Proof. intros Hl HQ. unfold wp, dict_setitem. by rewrite Hl. Qed.

Lemma wp_extend_new ordered src items : forall acc h (Q : unit -> heap -> Prop),
  h !! ordered = Some (PyList acc) ->
  h !! src = Some (PyList items) ->
  Q tt (<[ordered := PyList (Parser.extend_new acc items)]> h) ->
  wp (extend_new ordered src) h Q.
Proof.
  intros acc h Q Hord Hsrc HQ. unfold extend_new.
  apply wp_bind, (wp_read_list _ items); [done|]. clear Hsrc.
  revert acc h Hord HQ. unfold Parser.extend_new.
  induction items as [|x items IH]; intros acc h Hord HQ;
    cbn [for_each foldl] in *.
  - apply wp_ret. by rewrite insert_id in HQ.
  - apply wp_bind, wp_bind, (wp_read_list _ acc); [done|].
    unfold Parser.append_new in *. case_bool_decide.
    + apply wp_ret. by apply (IH acc).
    + apply (wp_list_append _ _ acc); [done|].
      apply (IH (acc ++ [x])); [by rewrite lookup_insert_eq|].
      by rewrite insert_insert_eq.
Qed.

Lemma wp_for_each {A} (I : list A -> heap -> Prop) (body : A -> M unit)
    (xs : list A) h (Q : unit -> heap -> Prop) :
  I [] h ->
  (forall done x h', I done h' -> wp (body x) h' (fun _ h'' => I (done ++ [x]) h'')) ->
  (forall h', I xs h' -> Q tt h') ->
  wp (for_each xs body) h Q.
Proof.
  intros H0 Hstep HQ.
  assert (Hgen : forall rest done h', I done h' -> done ++ rest = xs ->
            wp (for_each rest body) h' Q).
  { induction rest as [|x rest IH]; intros done h' HI Heq; cbn [for_each].
    - apply wp_ret, HQ. by rewrite app_nil_r in Heq; subst.
    - apply wp_bind. eapply wp_mono; [by apply Hstep|].
      intros [] h'' HI'. apply (IH (done ++ [x])); [done|].
      by rewrite <- app_assoc. }
  by apply (Hgen xs []).
Qed.

Lemma list_at_weaken (h h' : heap) l xs :
  h ⊆ h' -> list_at h l = Some xs -> list_at h' l = Some xs.
Proof.
  unfold list_at. intros Hsub Hl.
  destruct (h !! l) as [[ys|e]|] eqn:E; try done.
  by rewrite (lookup_weaken _ _ _ _ E Hsub).
Qed.

Lemma list_at_insert_eq (h : heap) l xs :
  list_at (<[l := PyList xs]> h) l = Some xs.
Proof. unfold list_at. by rewrite lookup_insert_eq. Qed.

Lemma omap_list_at_weaken (h h' : heap) (e : gmap Z loc) :
  h ⊆ h' ->
  (forall k l, e !! k = Some l -> is_Some (list_at h l)) ->
  omap (list_at h') e = omap (list_at h) e.
Proof.
  intros Hsub Hval. apply map_eq. intros k. rewrite !lookup_omap.
  destruct (e !! k) as [l|] eqn:E; [|done]. cbn.
  destruct (Hval _ _ E) as [xs Hxs]. rewrite Hxs.
  by apply (list_at_weaken h).
Qed.

Lemma dom_omap_list_at (h : heap) (e : gmap Z loc) :
  (forall k l, e !! k = Some l -> is_Some (list_at h l)) ->
  dom (omap (list_at h) e) = dom e.
Proof.
  intros Hval. apply set_eq. intros k. rewrite !elem_of_dom, lookup_omap.
  destruct (e !! k) as [l|] eqn:E; cbn.
  - split; [eauto|]. intros _. by apply (Hval k).
  - split; by intros [? ?].
Qed.

Lemma dict_get_omap (h : heap) (e : gmap Z loc) k dflt :
  (forall k l, e !! k = Some l -> is_Some (list_at h l)) ->
  list_at h dflt = Some [] ->
  list_at h (default dflt (e !! k)) = Some (dict_get (omap (list_at h) e) k).
Proof.
  intros Hval Hd. unfold dict_get. rewrite lookup_omap.
  destruct (e !! k) as [l|] eqn:E; cbn; [|done].
  destruct (Hval _ _ E) as [xs Hxs]. by rewrite Hxs.
Qed.

Lemma list_at_lookup (h : heap) l xs :
  list_at h l = Some xs -> h !! l = Some (PyList xs).
Proof. unfold list_at. destruct (h !! l) as [[]|]; naive_solver. Qed.

Section merge_on_heap.
Context (h0 : heap) (prev curr merged : loc) (e_p e_c : gmap Z loc).
Hypothesis Hprev : h0 !! prev = Some (PyDict e_p).
Hypothesis Hcurr : h0 !! curr = Some (PyDict e_c).
Hypothesis Hprev_lists : forall k l, e_p !! k = Some l -> is_Some (list_at h0 l).
Hypothesis Hcurr_lists : forall k l, e_c !! k = Some l -> is_Some (list_at h0 l).
Hypothesis Hmerged : h0 !! merged = None.

Let P : slot_map := omap (list_at h0) e_p.
Let C : slot_map := omap (list_at h0) e_c.

Lemma wp_dict_get_or_new (h : heap) d e k (Q : loc -> heap -> Prop) :
  h0 ⊆ h -> h0 !! d = Some (PyDict e) ->
  (forall k l, e !! k = Some l -> is_Some (list_at h0 l)) ->
  (forall dflt src, h !! dflt = None ->
     list_at (<[dflt := PyList []]> h) src =
       Some (dict_get (omap (list_at h0) e) k) ->
     Q src (<[dflt := PyList []]> h)) ->
  wp (dict_get_or_new d k) h Q.
Proof.
  intros Hsub Hd Hval HQ. unfold dict_get_or_new.
  apply wp_bind, wp_alloc. intros dflt Hfresh.
  assert (Hsub' : h0 ⊆ <[dflt := PyList []]> h).
  { apply insert_subseteq_r; [|done].
    destruct (h0 !! dflt) eqn:E; [|done].
    by rewrite (lookup_weaken _ _ _ _ E Hsub) in Hfresh. }
  apply wp_bind, (wp_read_dict _ e); [by apply (lookup_weaken h0)|].
  apply wp_ret, HQ; [done|].
  rewrite <- (omap_list_at_weaken h0 (<[dflt:=PyList []]> h)) by done.
  apply dict_get_omap; [|apply list_at_insert_eq].
  intros k' l Hl. destruct (Hval _ _ Hl) as [xs Hxs].
  exists xs. by apply (list_at_weaken h0).
Qed.

Lemma merge_body_inv processed k h :
  merge_inv h0 merged e_p e_c processed h ->
  wp (merge_body prev curr merged k) h
     (fun _ h' => merge_inv h0 merged e_p e_c (processed ++ [k]) h').
Proof.
  intros (Hsub & e & Hm & Hval & Habs). unfold merge_body.
  fold P C in Habs.
  apply wp_bind, wp_alloc. intros ordered Hord.
  set (h1 := <[ordered := PyList []]> h).
  assert (Hsub1 : h ⊆ h1) by (by apply insert_subseteq).
  apply wp_bind, (wp_dict_get_or_new _ curr e_c);
    [by etrans|done|done|]. intros d1 src1 Hd1 Hsrc1.
  set (h2 := <[d1 := PyList []]> h1) in *.
  assert (Hsub2 : h1 ⊆ h2) by (by apply insert_subseteq).
  apply wp_bind.
  eapply (wp_extend_new _ _ _ []);
    [apply (lookup_weaken h1); [apply lookup_insert_eq|done]
    |by apply list_at_lookup|].
  set (l1 := Parser.extend_new [] _).
  set (h3 := <[ordered := PyList l1]> h2).
  assert (Hsub3 : h ⊆ h3).
  { apply insert_subseteq_r; [done|by etrans]. }
  apply wp_bind, (wp_dict_get_or_new _ prev e_p);
    [by etrans|done|done|]. intros d2 src2 Hd2 Hsrc2.
  set (h4 := <[d2 := PyList []]> h3) in *.
  assert (Hsub4 : h3 ⊆ h4) by (by apply insert_subseteq).
  apply wp_bind.
  eapply (wp_extend_new _ _ _ l1);
    [apply (lookup_weaken h3); [apply lookup_insert_eq|done]
    |by apply list_at_lookup|].
  change (Parser.extend_new l1 _) with (Parser.merge_slot P C k).
  set (h5 := <[ordered := PyList (Parser.merge_slot P C k)]> h4).
  assert (Hsub5 : h ⊆ h5).
  { apply insert_subseteq_r; [done|by etrans]. }
  assert (Hne : ordered <> merged) by congruence.
  apply wp_bind, (wp_read_list _ (Parser.merge_slot P C k));
    [apply lookup_insert_eq|].
  assert (Hfold : foldl (Parser.merge_step P C) ∅ (processed ++ [k]) =
                  Parser.merge_step P C (omap (list_at h) e) k).
  { by rewrite foldl_app, <- Habs. }
  unfold merge_inv. fold P C. rewrite Hfold. unfold Parser.merge_step.
  destruct (Parser.merge_slot P C k) as [|x xs] eqn:Eslot.
  - apply wp_ret. split; [by transitivity h|]. exists e.
    split; [by apply (lookup_weaken h)|]. split.
    + intros k' l Hl. destruct (Hval _ _ Hl) as [? [ys Hys]].
      split; [done|]. exists ys. by apply (list_at_weaken h).
    + apply omap_list_at_weaken; [done|]. intros k' l Hl. by apply (Hval k').
  - apply (wp_dict_setitem _ _ _ e); [by apply (lookup_weaken h)|].
    set (h6 := <[merged := _]> h5).
    assert (Hat : forall l ys, l <> merged -> list_at h l = Some ys ->
              list_at h6 l = Some ys).
    { intros l ys Hl Hys. unfold list_at, h6. rewrite lookup_insert_ne by done.
      by apply (list_at_weaken h). }
    assert (Hato : list_at h6 ordered = Some (x :: xs)).
    { unfold list_at, h6, h5. rewrite lookup_insert_ne by done.
      by rewrite lookup_insert_eq. }
    split; [apply insert_subseteq_r; [done|by transitivity h]|].
    exists (<[k := ordered]> e). split; [apply lookup_insert_eq|]. split.
    + intros k' l Hl. destruct (decide (k' = k)) as [->|Hk].
      * rewrite lookup_insert_eq in Hl. injection Hl as <-. eauto.
      * rewrite lookup_insert_ne in Hl by done.
        destruct (Hval _ _ Hl) as [? [ys Hys]]. split; [done|].
        exists ys. by apply Hat.
    + apply map_eq. intros k'. rewrite lookup_omap.
      destruct (decide (k' = k)) as [->|Hk].
      * by rewrite !lookup_insert_eq.
      * rewrite !lookup_insert_ne, lookup_omap by done.
        destruct (e !! k') as [l|] eqn:El; [|done]. cbn.
        destruct (Hval _ _ El) as [? [ys Hys]].
        rewrite Hys. by apply Hat.
Qed.
End merge_on_heap.

Lemma is_slot_map_inv (h : heap) (d : loc) :
  is_slot_map h d = true ->
  exists e, h !! d = Some (PyDict e) /\
            forall k l, e !! k = Some l -> is_Some (list_at h l).
Proof.
  unfold is_slot_map. destruct (h !! d) as [[xs|e]|]; try done.
  intros He%bool_decide_eq_true. by exists e.
Qed.

(** C9. [merge_slot_maps] returns a dict object that did not exist before the
    call and leaves every object that did, the two input dicts and their
    lists among them, as it was: after the call both inputs hold the slot
    keys and item lists they held before.  The new dict holds the merge of
    the two inputs. *)
Theorem merge_slot_maps_frame (h : heap) (prev curr : loc) :
  is_slot_map h prev = true -> is_slot_map h curr = true ->
  exists merged h' P C,
    dict_at h prev = Some P /\ dict_at h curr = Some C /\
    PyHeap.merge_slot_maps prev curr h = Some (merged, h') /\
    h !! merged = None /\
    (forall l o, h !! l = Some o -> h' !! l = Some o) /\
    dict_at h' prev = Some P /\ dict_at h' curr = Some C /\
    dict_at h' merged = Some (Parser.merge_slot_maps P C).
Proof.
  intros (e_p & Hp & Hpl)%is_slot_map_inv (e_c & Hc & Hcl)%is_slot_map_inv.
  set (P := omap (list_at h) e_p). set (C := omap (list_at h) e_c).
  assert (Hwp : wp (PyHeap.merge_slot_maps prev curr) h (fun merged h' =>
    h !! merged = None /\ h ⊆ h' /\
    dict_at h' merged = Some (Parser.merge_slot_maps P C))).
  { unfold PyHeap.merge_slot_maps.
    apply wp_bind, wp_alloc. intros merged Hfresh.
    assert (Hsub : h ⊆ <[merged := PyDict ∅]> h) by (by apply insert_subseteq).
    apply wp_bind, (wp_read_dict _ e_p); [by apply (lookup_weaken h)|].
    apply wp_bind, (wp_read_dict _ e_c); [by apply (lookup_weaken h)|].
    apply wp_bind.
    apply (wp_for_each (merge_inv h merged e_p e_c)).
    - split; [done|]. exists ∅. split; [apply lookup_insert_eq|].
      split; [by intros k l; rewrite lookup_empty|]. by rewrite omap_empty.
    - intros done_ k h' Hinv. by apply (merge_body_inv h prev curr).
    - intros h' (Hsub' & e & Hm & Hval & Habs). apply wp_ret.
      split; [done|]. split; [done|].
      unfold dict_at. rewrite Hm, Habs. unfold Parser.merge_slot_maps.
      unfold P, C. by rewrite !dom_omap_list_at. }
  unfold wp in Hwp.
  destruct (PyHeap.merge_slot_maps prev curr h) as [[merged h']|]; [|done].
  destruct Hwp as (Hfresh & Hsub & Hmerged).
  exists merged, h', P, C. unfold dict_at at 1 2. rewrite Hp, Hc.
  repeat split; try done.
  - intros l o Hl. by apply (lookup_weaken h).
  - unfold dict_at. rewrite (lookup_weaken _ _ _ _ Hp Hsub).
    f_equal. by apply omap_list_at_weaken.
  - unfold dict_at. rewrite (lookup_weaken _ _ _ _ Hc Hsub).
    f_equal. by apply omap_list_at_weaken.
Qed.

Lemma merge_slot_maps_frame_witness :
  exists merged h' P C,
    dict_at Examples.example_heap 1 = Some P /\ dict_at Examples.example_heap 2 = Some C /\
    PyHeap.merge_slot_maps 1 2 Examples.example_heap = Some (merged, h') /\
    Examples.example_heap !! merged = None /\
    (forall l o, Examples.example_heap !! l = Some o -> h' !! l = Some o) /\
    dict_at h' 1 = Some P /\ dict_at h' 2 = Some C /\
    dict_at h' merged = Some (Parser.merge_slot_maps P C).
Proof.
  apply (merge_slot_maps_frame Examples.example_heap 1 2); vm_compute; reflexivity.
Defined.

End heap_properties.

(** ** The slot classifier *)

Section classifier_properties.
Import Str Parser.

Ltac split_orb_false H :=
  repeat match type of H with
         | (_ || _)%bool = false =>
             let H1 := fresh "Hk" in
             apply orb_false_elim in H as [H1 H]; try split_orb_false H1
         end.

(** C8 (amended). A heading that mentions "hand" or "glove", none of the
    keywords tested before the hands rule (head, neck, shoulder, back, cloak,
    chest, wrist, idol, relic, totem, libram, ranged, wand) and no weapon
    cue (dual-wield, weapon, handed, one-hand, 1-hand, two-hand, 2-hand,
    main hand, main-hand, off-hand, off hand, mainhand, offhand, with their
    spaced spellings) classifies to Hands, slot 10, whatever the body of the
    section says.  A heading with the hyphenated cue "main-hand" is outside
    this statement. *)
Theorem hands_heading (heading body : string) :
  mentions ["hand"; "glove"] heading = true ->
  mentions earlier_keywords heading = false ->
  mentions weapon_hand_cues heading = false ->
  mentions ["main-hand"] heading = false ->
  section_slot_ids heading body = [10].
Proof.
  unfold mentions, earlier_keywords, weapon_hand_cues.
  cbn [existsb]. rewrite !orb_false_r.
  intros Hhand Hearly Hcues _.
  split_orb_false Hearly. split_orb_false Hcues.
  unfold section_slot_ids.
  repeat match goal with
         | H : contains ?k ?l = false |- _ => rewrite H; clear H
         end.
  cbn [orb negb andb]. rewrite Hhand. reflexivity.
Qed.

Lemma hands_heading_witness : section_slot_ids "Gloves" "" = [10].
Proof. apply hands_heading; reflexivity. Defined.

(** C8 (as stated) fails: "Head and Hands" has "hand" and none of weapon,
    handed, main hand, off hand, and classifies to Head; "One-Hand Swords"
    has "hand" and none of the four, and classifies to nothing. *)
Lemma hands_heading_counterexample :
  (mentions ["hand"; "glove"] "Head and Hands" = true /\
   mentions named_weapon_cues "Head and Hands" = false /\
   mentions named_weapon_cues "" = false /\
   section_slot_ids "Head and Hands" "" = [1]) /\
  (mentions ["hand"; "glove"] "One-Hand Swords" = true /\
   mentions named_weapon_cues "One-Hand Swords" = false /\
   section_slot_ids "One-Hand Swords" "" = []).
Proof. vm_compute. repeat split. Qed.

End classifier_properties.

(** ** The row and item extractor *)

Section extractor_properties.
Import Str Re Items.

Lemma foldl_flat_map {A B C} (f : A -> C -> A) (g : B -> list C) l a :
  foldl f a (flat_map g l) = foldl (fun a x => foldl f a (g x)) a l.
Proof.
  revert a; induction l as [|x l IH]; intros a; [done|].
  cbn [flat_map foldl]. by rewrite foldl_app, IH.
Qed.

Lemma row_step_spec tbl items o r :
  row_step tbl (items, o) r =
  if row_valid r then (items ++ row_group tbl o r, o + 1) else (items, o).
Proof.
  unfold row_step, row_valid, row_group, row_rank, row_source, row_item_ids,
    row_cells.
  set (cells := findall TD_RE (group 1 r)).
  destruct (Nat.ltb_spec (length cells) 2) as [Hlt|Hge].
  - by rewrite (proj2 (Nat.leb_gt 2 (length cells))) by done.
  - rewrite (proj2 (Nat.leb_le 2 (length cells))) by done. cbn [andb].
    destruct (findall ITEM_RE (nth 1 cells "")) as [|id ids] eqn:Eids.
    + by rewrite bool_decide_eq_true_2.
    + rewrite bool_decide_eq_false_2 by done. cbn [negb andb].
      by destruct (_ || _)%bool.
Qed.

Lemma foldl_row_step tbl rows : forall items o,
  foldl (row_step tbl) (items, o) rows =
  (items ++ concat (row_groups tbl o rows),
   o + Z.of_nat (count_valid rows)).
Proof.
  unfold count_valid.
  induction rows as [|r rows IH]; intros items o; cbn [foldl row_groups].
  - cbn. rewrite app_nil_r. f_equal. lia.
  - rewrite row_step_spec, filter_cons. destruct (row_valid r) eqn:Ev.
    + rewrite IH, decide_True by done. cbn [concat length].
      rewrite <- app_assoc. f_equal. lia.
    + rewrite IH, decide_False by done. done.
Qed.

Lemma table_items_groups tbl section :
  table_items tbl section = concat (row_groups tbl 1 (section_rows section)).
Proof.
  unfold table_items, section_rows.
  change (foldl (table_step tbl) ([], 1) (finditer TABLE_RE section))
    with (foldl (fun st tb => foldl (row_step tbl) st
                                 (finditer TR_RE (group 1 tb)))
                ([], 1) (finditer TABLE_RE section)).
  rewrite <- (foldl_flat_map (row_step tbl)
                (fun tb => finditer TR_RE (group 1 tb))).
  by rewrite foldl_row_step.
Qed.

Lemma length_row_group tbl o r :
  length (row_group tbl o r) = length (row_item_ids r).
Proof. unfold row_group, row_entries. apply length_imap. Qed.

Lemma row_valid_ids r : row_valid r = true -> row_item_ids r <> [].
Proof.
  unfold row_valid. intros H.
  apply andb_prop in H as [H _]. apply andb_prop in H as [_ H].
  apply negb_true_iff in H. by apply bool_decide_eq_false in H.
Qed.

Lemma row_group_nonempty tbl o r :
  row_valid r = true -> row_group tbl o r <> [].
Proof.
  intros Hv Hnil. apply (row_valid_ids r Hv).
  apply length_zero_iff_nil. rewrite <- (length_row_group tbl o r).
  by rewrite Hnil.
Qed.

Lemma count_valid_app l1 l2 :
  count_valid (l1 ++ l2) = (count_valid l1 + count_valid l2)%nat.
Proof. unfold count_valid. by rewrite filter_app, length_app. Qed.

Lemma row_groups_app tbl l1 : forall o l2,
  row_groups tbl o (l1 ++ l2) =
  row_groups tbl o l1 ++
  row_groups tbl (o + Z.of_nat (count_valid l1)) l2.
Proof.
  unfold count_valid.
  induction l1 as [|r l1 IH]; intros o l2; cbn [app row_groups].
  - cbn. f_equal. lia.
  - rewrite filter_cons. destruct (row_valid r) eqn:Ev.
    + rewrite decide_True by done. rewrite IH. cbn [app length].
      do 3 f_equal. lia.
    + rewrite decide_False by done. apply IH.
Qed.

Lemma length_row_groups tbl rows : forall o,
  length (row_groups tbl o rows) = count_valid rows.
Proof.
  unfold count_valid.
  induction rows as [|r rows IH]; intros o; cbn [row_groups]; [done|].
  rewrite filter_cons. destruct (row_valid r) eqn:Ev.
  - rewrite decide_True by done. cbn [length]. by rewrite IH.
  - rewrite decide_False by done. apply IH.
Qed.

(** The group number [k] holds entries of order [o + k]. *)
Lemma row_groups_lookup tbl rows : forall o k g,
  row_groups tbl o rows !! k = Some g ->
  exists r, r ∈ rows /\ row_valid r = true /\
            g = row_group tbl (o + Z.of_nat k) r.
Proof.
  induction rows as [|r rows IH]; intros o k g; cbn [row_groups]; [done|].
  destruct (row_valid r) eqn:Ev.
  - destruct k as [|k]; cbn [lookup list_lookup].
    + intros [= <-]. exists r. split; [left|]. split; [done|].
      f_equal. lia.
    + intros Hg. destruct (IH _ _ _ Hg) as (r' & Hin & Hv & ->).
      exists r'. split; [by right|]. split; [done|]. f_equal. lia.
  - intros Hg. destruct (IH _ _ _ Hg) as (r' & Hin & Hv & ->).
    exists r'. split; [by right|]. done.
Qed.

Lemma row_group_order tbl o r e :
  e ∈ row_group tbl o r ->
  order e = o /\ tie_group_size e = Z.of_nat (length (row_item_ids r)).
Proof.
  unfold row_group, row_entries. intros He.
  apply list_elem_of_lookup in He as [i Hi].
  rewrite list_lookup_imap in Hi.
  destruct (row_item_ids r !! i) as [id|]; [|done].
  by injection Hi as <-.
Qed.

Lemma elem_of_concat {A} (x : A) (ls : list (list A)) :
  x ∈ concat ls <-> exists k l, ls !! k = Some l /\ x ∈ l.
Proof.
  rewrite list_elem_of_In, in_concat. split.
  - intros (l & Hl & Hx). apply list_elem_of_In, list_elem_of_lookup in Hl as [k Hk].
    exists k, l. by rewrite list_elem_of_In.
  - intros (k & l & Hk & Hx). exists l. rewrite <- !list_elem_of_In.
    split; [|done]. apply list_elem_of_lookup. eauto.
Qed.

(** The entries of order [o + k] among the groups are the group number [k]. *)
Lemma filter_order_groups tbl rows o pre r post :
  rows = pre ++ r :: post -> row_valid r = true ->
  let o' := o + Z.of_nat (count_valid pre) in
  filter (fun e => order e = o') (concat (row_groups tbl o rows)) =
  row_group tbl o' r.
Proof.
  intros -> Hv o'. rewrite row_groups_app. cbn [row_groups]. rewrite Hv.
  fold o'. rewrite concat_app. cbn [concat]. rewrite !filter_app.
  rewrite (filter_none _ (concat (row_groups tbl o pre))).
  2:{ intros e (k & g & Hk & He)%elem_of_concat Ho.
      pose proof (lookup_lt_Some _ _ _ Hk) as Hlt.
      rewrite length_row_groups in Hlt.
      apply row_groups_lookup in Hk as (r' & _ & _ & ->).
      apply row_group_order in He as [He _]. lia. }
  rewrite (filter_none _ (concat (row_groups tbl (o' + 1) post))).
  2:{ intros e (k & g & Hk & He)%elem_of_concat Ho.
      apply row_groups_lookup in Hk as (r' & _ & _ & ->).
      apply row_group_order in He as [He _]. lia. }
  rewrite (filter_every _ (row_group tbl o' r)).
  2:{ intros e He. by apply row_group_order in He as [He _]. }
  cbn [app]. by rewrite app_nil_r.
Qed.

(** *** The entries of one tie group *)

Lemma row_group_lookup tbl o r i :
  row_group tbl o r !! i =
  row_entry tbl o (row_rank r) (row_source r)
            (Z.of_nat (length (row_item_ids r))) (Z.of_nat i + 1)
    <$> row_item_ids r !! i.
Proof. unfold row_group, row_entries. by rewrite list_lookup_imap. Qed.

Lemma row_group_indices tbl o r :
  map tie_group_index (row_group tbl o r) =
  map Z.of_nat (seq 1 (length (row_item_ids r))).
Proof.
  apply list_eq. intros i.
  rewrite !list_lookup_fmap, row_group_lookup.
  destruct (row_item_ids r !! i) as [id|] eqn:Ei.
  - rewrite lookup_seq_lt by (by eapply lookup_lt_Some). cbn. f_equal. lia.
  - rewrite lookup_seq_ge by (by apply lookup_ge_None). done.
Qed.

Lemma row_group_ref_ids tbl o r :
  map ref_id (row_group tbl o r) = map int (row_item_ids r).
Proof.
  apply list_eq. intros i.
  rewrite !list_lookup_fmap, row_group_lookup.
  by destruct (row_item_ids r !! i).
Qed.

Lemma row_group_tie_flag tbl o r e :
  e ∈ row_group tbl o r ->
  tie_with_previous e = true <-> tie_group_index e <> 1.
Proof.
  intros He. apply list_elem_of_lookup in He as [i Hi].
  rewrite row_group_lookup in Hi.
  destruct (row_item_ids r !! i) as [id|]; [|done].
  injection Hi as <-. cbn. rewrite Z.ltb_lt. lia.
Qed.

Lemma count_tie_with_previous (f : nat -> string -> entry) (ids : list string) :
  (forall i id, tie_with_previous (f i id) = (1 <=? i)%nat) ->
  length (filter (fun e => tie_with_previous e = true) (imap f ids)) =
  (length ids - 1)%nat.
Proof.
  intros Hf. destruct ids as [|id ids]; [done|].
  rewrite imap_cons, filter_cons, decide_False
    by (rewrite Hf; cbn; congruence).
  rewrite filter_every.
  - rewrite length_imap. cbn. lia.
  - intros e (i & id' & -> & _)%elem_of_lookup_imap.
    unfold compose. by rewrite Hf.
Qed.

Lemma row_group_tie_count tbl o r :
  length (filter (fun e => tie_with_previous e = true) (row_group tbl o r)) =
  (length (row_item_ids r) - 1)%nat.
Proof.
  unfold row_group, row_entries. apply count_tie_with_previous.
  intros i id. cbn. destruct i; [done|].
  cbn. apply Z.ltb_lt. lia.
Qed.

Lemma section_items_tables tbl guide_type section :
  table_items tbl section <> [] ->
  section_items tbl guide_type section = table_items tbl section.
Proof. unfold section_items. by destruct (table_items tbl section). Qed.

Lemma table_items_nonempty tbl section pre r post :
  section_rows section = pre ++ r :: post -> row_valid r = true ->
  table_items tbl section <> [].
Proof.
  intros Hrows Hv. rewrite table_items_groups, Hrows, row_groups_app.
  cbn [row_groups]. rewrite Hv, concat_app. cbn [concat].
  intros Hnil. apply app_eq_nil in Hnil as [_ Hnil].
  apply app_eq_nil in Hnil as [Hnil _].
  by apply row_group_nonempty in Hnil.
Qed.

(** The tie group of a valid row within the items of its section: [n]
    entries of one order that no other entry of the section has, the size
    [n], the indices 1..n in cell order, all but the first flagged. *)
Lemma row_tie_group (tbl : gmap string string) (guide_type section : string)
    (pre post : list rmatch) (row : rmatch) :
  section_rows section = pre ++ row :: post ->
  row_valid row = true ->
  let ids := row_item_ids row in
  let n := length ids in
  let o := 1 + Z.of_nat (count_valid pre) in
  let group :=
    filter (fun e => order e = o) (section_items tbl guide_type section) in
  (1 <= n)%nat /\
  group = row_group tbl o row /\
  length group = n /\
  Forall (fun e => order e = o /\ tie_group_size e = Z.of_nat n) group /\
  map tie_group_index group = map Z.of_nat (seq 1 n) /\
  map ref_id group = map int ids /\
  Forall (fun e => tie_with_previous e = true <-> tie_group_index e <> 1) group /\
  length (filter (fun e => tie_with_previous e = true) group) = (n - 1)%nat.
Proof.
  intros Hrows Hv ids n o group.
  assert (Hgroup : group = row_group tbl o row).
  { unfold group.
    rewrite section_items_tables by (by eapply table_items_nonempty).
    rewrite table_items_groups. by apply (filter_order_groups tbl _ 1 pre row post). }
  split.
  { pose proof (row_valid_ids row Hv) as Hne. unfold n, ids.
    destruct (row_item_ids row); [done|cbn; lia]. }
  split; [done|]. rewrite Hgroup.
  split; [apply length_row_group|].
  split; [apply Forall_forall; intros e He; by apply row_group_order in He|].
  split; [apply row_group_indices|].
  split; [apply row_group_ref_ids|].
  split; [apply Forall_forall; intros e He; by eapply row_group_tie_flag|].
  apply row_group_tie_count.
Qed.

(** *** The inline references *)

Lemma inline_step_spec tbl seen items (n : nat) m :
  inline_step tbl (seen, items, Z.of_nat n + 1) m =
  if bool_decide (ref_key m ∈ seen) then (seen, items, Z.of_nat n + 1)
  else (ref_key m :: seen, items ++ [inline_entry tbl n (ref_key m)],
        Z.of_nat (S n) + 1).
Proof.
  unfold inline_step. fold (ref_key m).
  case_bool_decide; [done|].
  f_equal; [|lia]. do 3 f_equal.
  unfold inline_entry. cbn [fst snd ref_key].
  destruct n as [|n]; [done|].
  by rewrite (proj2 (Z.eqb_neq (Z.of_nat (S n) + 1) 1)) by lia.
Qed.

Lemma foldl_inline_step tbl ms : forall seen items n,
  let keys :=
    dedup_keep_first (filter (fun k => k ∉ seen) (map ref_key ms)) in
  foldl (inline_step tbl) (seen, items, Z.of_nat n + 1) ms =
  (reverse keys ++ seen,
   items ++ imap (fun i => inline_entry tbl (n + i)) keys,
   Z.of_nat (n + length keys) + 1).
Proof.
  induction ms as [|m ms IH]; intros seen items n; cbn [foldl map].
  - cbn. rewrite app_nil_r. do 2 f_equal. lia.
  - rewrite inline_step_spec, filter_cons. case_bool_decide as Hin.
    + rewrite decide_False by tauto. apply IH.
    + rewrite decide_True by done. rewrite IH. cbn [dedup_keep_first].
      assert (Hk :
        filter (fun y => y ≠ ref_key m)
          (dedup_keep_first (filter (fun k => k ∉ seen) (map ref_key ms))) =
        dedup_keep_first
          (filter (fun k => k ∉ ref_key m :: seen) (map ref_key ms))).
      { rewrite <- dedup_filter, list_filter_filter. f_equal.
        apply list_filter_iff. intros k. rewrite elem_of_cons. tauto. }
      rewrite Hk. set (keys := dedup_keep_first _).
      rewrite reverse_cons, <- !app_assoc. cbn [app length].
      rewrite imap_cons. f_equal; [f_equal|].
      * f_equal. rewrite Nat.add_0_r. f_equal.
        apply imap_ext. intros i k _. unfold compose. f_equal. lia.
      * f_equal. lia.
Qed.

Lemma extract_inline_refs_spec section tbl :
  _extract_inline_refs section tbl =
  imap (inline_entry tbl)
       (dedup_keep_first (map ref_key (finditer REF_RE section))).
Proof.
  unfold _extract_inline_refs.
  pose proof (foldl_inline_step tbl (finditer REF_RE section) [] [] 0) as H.
  cbn zeta in H. change (Z.of_nat 0 + 1) with 1 in H. rewrite H.
  rewrite filter_every by (intros; apply not_elem_of_nil). done.
Qed.

Lemma inline_identities tbl keys :
  map identity (imap (inline_entry tbl) keys) = keys.
Proof.
  apply list_eq. intros i. rewrite list_lookup_fmap, list_lookup_imap.
  by destruct (keys !! i) as [[t id]|].
Qed.

Lemma table_items_no_valid tbl section :
  count_valid (section_rows section) = 0%nat -> table_items tbl section = [].
Proof.
  intros H0. rewrite table_items_groups.
  pose proof (length_row_groups tbl (section_rows section) 1) as Hlen.
  rewrite H0 in Hlen. by apply length_zero_iff_nil in Hlen as ->.
Qed.

(** The items of a section without a valid table row: the inline
    references in a gems and enchants guide, nothing otherwise. *)
Lemma section_inline_items (tbl : gmap string string) (section : string) :
  count_valid (section_rows section) = 0%nat ->
  section_items tbl "gems_enchants" section =
    imap (inline_entry tbl)
         (dedup_keep_first (map ref_key (finditer REF_RE section))) /\
  forall guide_type, guide_type <> "gems_enchants" ->
    section_items tbl guide_type section = [].
Proof.
  intros H0. unfold section_items.
  rewrite (table_items_no_valid tbl section H0). split.
  - apply extract_inline_refs_spec.
  - intros gt Hgt. by rewrite (proj2 (String.eqb_neq gt "gems_enchants")).
Qed.

(** *** The headers *)

Lemma header_step_spec markup tbl gt headers results ih :
  header_step markup tbl gt headers results ih =
  results ++ option_list (header_result markup tbl gt headers ih).
Proof.
  destruct ih as [i hd]. unfold header_step, header_result. cbn [fst snd].
  destruct (mem _ _); cbn [negb]; [|by rewrite app_nil_r].
  destruct (section_items _ _ _); [by rewrite app_nil_r|done].
Qed.

Lemma foldl_header_step markup tbl gt headers l : forall results,
  foldl (header_step markup tbl gt headers) results l =
  results ++ omap (header_result markup tbl gt headers) l.
Proof.
  induction l as [|ih l IH]; intros results; cbn [foldl].
  - cbn. by rewrite app_nil_r.
  - rewrite IH, header_step_spec, <- app_assoc. f_equal. cbn.
    by destruct (header_result _ _ _ _ _).
Qed.

Lemma extract_by_slot_spec markup tbl gt :
  extract_by_slot markup tbl gt =
  omap (header_result markup tbl gt (headers_of markup))
       (imap pair (headers_of markup)).
Proof. unfold extract_by_slot. by rewrite foldl_header_step. Qed.

Lemma extract_by_slot_elem markup tbl gt se :
  se ∈ extract_by_slot markup tbl gt ->
  exists i hd,
    headers_of markup !! i = Some hd /\
    items se = section_items tbl gt (section_of markup (headers_of markup) i hd) /\
    items se <> [].
Proof.
  rewrite extract_by_slot_spec, list_elem_of_omap.
  intros ([i hd] & Hin & Hres).
  apply elem_of_lookup_imap in Hin as (i' & hd' & [= -> ->] & Hhd).
  exists i', hd'. split; [done|].
  unfold header_result in Hres. cbn [fst snd] in Hres.
  destruct (mem _ _); [|done].
  destruct (section_items _ _ _) as [|e es] eqn:E; [done|].
  injection Hres as <-. by cbn.
Qed.

(** C7 (amended). A header adds a slot entry to the result only when its
    section has items: a classified section with no table row and no inline
    reference leaves the result as it is, so every slot entry of the result
    has at least one item (and no error is raised: the function is total). *)
Theorem empty_section_dropped (markup : string) (tbl : gmap string string)
    (guide_type : string) :
  (forall results i hd,
     section_items tbl guide_type
       (section_of markup (headers_of markup) i hd) = [] ->
     header_step markup tbl guide_type (headers_of markup) results (i, hd)
       = results) /\
  Forall (fun se => items se <> []) (extract_by_slot markup tbl guide_type).
Proof.
  split.
  - intros results i hd Hnil. rewrite header_step_spec.
    unfold header_result. cbn [fst snd]. rewrite Hnil.
    destruct (mem _ _); apply app_nil_r.
  - apply Forall_forall. intros se Hse.
    by apply extract_by_slot_elem in Hse as (i & hd & _ & _ & Hne).
Qed.

(** C3 (amended). Every slot entry of the result lists the items of one
    section as a sequence of tie groups: the entries of the group number [k]
    (from 1) all have the order [k], so the order is constant within a tie
    group and strictly increasing from one table row to the next, and each
    entry records the size of its group.  The groups are those of the valid
    table rows, which keep every item reference they have; when the section
    has no table item the list comes from the inline references, one group
    for each, and then no two entries share (ref_type, ref_id). *)
Theorem slot_list_order (markup : string) (tbl : gmap string string)
    (guide_type : string) :
  Forall (fun se =>
    exists section groups,
      items se = section_items tbl guide_type section /\
      items se = concat groups /\
      (forall k g, groups !! k = Some g ->
         g <> [] /\
         Forall (fun e => order e = Z.of_nat k + 1 /\
                          tie_group_size e = Z.of_nat (length g)) g) /\
      (table_items tbl section <> [] ->
         groups = row_groups tbl 1 (section_rows section)) /\
      (table_items tbl section = [] ->
         groups = map (fun e => [e]) (items se) /\
         NoDup (map identity (items se))))
    (extract_by_slot markup tbl guide_type).
Proof.
  apply Forall_forall. intros se Hse.
  apply extract_by_slot_elem in Hse as (i & hd & _ & Hitems & Hne).
  set (section := section_of markup (headers_of markup) i hd) in *.
  exists section.
  destruct (table_items tbl section) as [|e0 es] eqn:Etab.
  - (* the inline references *)
    assert (Hinl : items se = imap (inline_entry tbl)
              (dedup_keep_first (map ref_key (finditer REF_RE section)))).
    { rewrite Hitems. unfold section_items. rewrite Etab.
      destruct (String.eqb guide_type "gems_enchants") eqn:Egt.
      - apply extract_inline_refs_spec.
      - exfalso. apply Hne. rewrite Hitems. unfold section_items.
        by rewrite Etab, Egt. }
    exists (map (fun e => [e]) (items se)).
    split; [done|]. split; [|split; [|split]].
    + clear. induction (items se) as [|e l IH]; [done|]. cbn. by f_equal.
    + intros k g Hg. rewrite list_lookup_fmap in Hg.
      destruct (items se !! k) as [e|] eqn:Ek; [|done]. injection Hg as <-.
      split; [done|]. constructor; [|constructor].
      rewrite Hinl, list_lookup_imap in Ek.
      destruct (_ !! k) as [key|]; [|done]. by injection Ek as <-.
    + done.
    + intros _. split; [done|].
      rewrite Hinl, inline_identities. apply NoDup_dedup.
  - (* the table rows *)
    exists (row_groups tbl 1 (section_rows section)).
    assert (Htab : items se = table_items tbl section).
    { rewrite Hitems. apply section_items_tables. by rewrite Etab. }
    split; [done|]. split; [|split; [|split]].
    + by rewrite Htab, table_items_groups.
    + intros k g Hg.
      apply row_groups_lookup in Hg as (r & _ & Hv & ->).
      split; [by apply row_group_nonempty|].
      apply Forall_forall. intros e He.
      apply row_group_order in He as [-> ->].
      rewrite length_row_group. split; [lia|done].
    + done.
    + done.
Qed.

(** *** A header and its slot entry *)

Lemma extract_by_slot_intro markup tbl gt i hd se :
  headers_of markup !! i = Some hd ->
  header_result markup tbl gt (headers_of markup) (i, hd) = Some se ->
  se ∈ extract_by_slot markup tbl gt.
Proof.
  intros Hhd Hres. rewrite extract_by_slot_spec, list_elem_of_omap.
  exists (i, hd). split; [|done]. apply elem_of_lookup_imap. eauto.
Qed.

(** C2. For a header of the markup that is classified to a valid slot and a
    table row of its section that passes the row checks and has [n] item
    references in its second cell, the extractor emits a slot entry for the
    header in which the row has exactly [n] entries: they share one order
    (the number of the row among the valid rows of the section), no other
    entry of the slot has that order, each has [tie_group_size = n], they
    carry the indices 1..n in cell order, and every one but the first, so
    [n - 1] of them, has [tie_with_previous] set. *)
Theorem tie_group (tbl : gmap string string) (guide_type markup : string)
    (i : nat) (hd : header) (pre post : list rmatch) (row : rmatch) :
  headers_of markup !! i = Some hd ->
  mem (slot_name_of guide_type (h_name hd)) (valid_slots_of guide_type)
    = true ->
  section_rows (section_of markup (headers_of markup) i hd)
    = pre ++ row :: post ->
  row_valid row = true ->
  let ids := row_item_ids row in
  let n := length ids in
  let o := 1 + Z.of_nat (count_valid pre) in
  exists se,
    se ∈ extract_by_slot markup tbl guide_type /\
    slot se = slot_name_of guide_type (h_name hd) /\
    items se =
      section_items tbl guide_type
        (section_of markup (headers_of markup) i hd) /\
    let group := filter (fun e => order e = o) (items se) in
    (1 <= n)%nat /\
    group = row_group tbl o row /\
    length group = n /\
    Forall (fun e => order e = o /\ tie_group_size e = Z.of_nat n) group /\
    map tie_group_index group = map Z.of_nat (seq 1 n) /\
    map ref_id group = map int ids /\
    Forall (fun e => tie_with_previous e = true <-> tie_group_index e <> 1)
           group /\
    length (filter (fun e => tie_with_previous e = true) group) = (n - 1)%nat.
Proof.
  intros Hhd Hvalid Hrows Hv ids n o.
  set (section := section_of markup (headers_of markup) i hd) in *.
  pose proof (table_items_nonempty tbl section pre row post Hrows Hv) as Hne.
  pose proof (section_items_tables tbl guide_type section Hne) as Hitems.
  exists {| slot := slot_name_of guide_type (h_name hd);
            items := section_items tbl guide_type section |}.
  split; [|split; [done|split; [done|]]].
  - apply (extract_by_slot_intro _ _ _ i hd); [done|].
    unfold header_result. cbn [fst snd]. rewrite Hvalid. fold section.
    destruct (section_items tbl guide_type section) eqn:E; [|done].
    by rewrite Hitems in E.
  - cbn [items]. by apply (row_tie_group tbl guide_type section pre post row).
Qed.

(** C5 (amended). For a header of the markup whose section has no valid
    table row: in a gems and enchants guide, when the header is classified to
    a valid bucket and its section has an inline reference, the extractor
    emits for it the slot entry of the inline [item=]/[spell=] references of
    the section text in document order, one entry for each
    (ref_type, ref_id) at its first mention, with the orders 1, 2, 3, ..., the
    first labelled "Best" and the others "Alternative".  For any other guide
    type there is no fallback: the section has no item, the header adds no
    slot entry, and every slot entry of the result comes from a section that
    has a valid table row. *)
Theorem inline_fallback (tbl : gmap string string) (markup : string)
    (i : nat) (hd : header) :
  headers_of markup !! i = Some hd ->
  let section := section_of markup (headers_of markup) i hd in
  count_valid (section_rows section) = 0%nat ->
  let keys := dedup_keep_first (map ref_key (finditer REF_RE section)) in
  let name := slot_name_of "gems_enchants" (h_name hd) in
  section_items tbl "gems_enchants" section = imap (inline_entry tbl) keys /\
  (mem name (valid_slots_of "gems_enchants") = true -> keys <> [] ->
   {| slot := name; items := imap (inline_entry tbl) keys |}
     ∈ extract_by_slot markup tbl "gems_enchants") /\
  (forall guide_type, guide_type <> "gems_enchants" ->
     section_items tbl guide_type section = [] /\
     (forall results,
        header_step markup tbl guide_type (headers_of markup) results (i, hd)
          = results) /\
     Forall (fun se =>
               exists j hd',
                 headers_of markup !! j = Some hd' /\
                 items se =
                   table_items tbl
                     (section_of markup (headers_of markup) j hd') /\
                 count_valid
                   (section_rows
                      (section_of markup (headers_of markup) j hd'))
                   <> 0%nat)
            (extract_by_slot markup tbl guide_type)).
Proof.
  intros Hhd section H0 keys name.
  destruct (section_inline_items tbl section H0) as [Hgems Hother].
  split; [exact Hgems|]. split.
  - intros Hvalid Hkeys.
    apply (extract_by_slot_intro _ _ _ i hd); [done|].
    unfold header_result. cbn [fst snd]. fold name section.
    rewrite Hvalid, Hgems. fold keys.
    destruct (imap (inline_entry tbl) keys) eqn:E; [|done].
    apply (f_equal length) in E. rewrite length_imap in E.
    by destruct keys.
  - intros gt Hgt. split; [by apply Hother|]. split.
    + intros results. rewrite header_step_spec. unfold header_result.
      cbn [fst snd]. fold section. rewrite (Hother gt Hgt).
      destruct (mem _ _); apply app_nil_r.
    + apply Forall_forall. intros se Hse.
      apply extract_by_slot_elem in Hse as (j & hd' & Hj & Hitems & Hne).
      exists j, hd'. split; [done|].
      set (sec := section_of markup (headers_of markup) j hd') in *.
      assert (Htab : items se = table_items tbl sec).
      { rewrite Hitems. unfold section_items.
        destruct (table_items tbl sec) eqn:E; [|done].
        by rewrite (proj2 (String.eqb_neq gt "gems_enchants")). }
      split; [done|]. intros Hzero. apply Hne.
      by rewrite Htab, table_items_no_valid.
Qed.

End extractor_properties.

(** ** The markup locators *)

Section locator_properties.
Import Str Re.

Lemma app_assoc_str (a b c : string) : (a +:+ b) +:+ c = a +:+ (b +:+ c).
Proof.
  induction a as [|x a IH]; [done|].
  change (String x ((a +:+ b) +:+ c) = String x (a +:+ (b +:+ c))).
  by rewrite IH.
Qed.

(** *** Soundness: whatever the backtracking search finds is a match *)

Lemma star_loop_sound {R} r (body : matcher R) k :
  matcher_sound r body ->
  forall fuel s cs x, star_loop body k fuel s cs = Some x ->
    exists s1 s2 cs', s = s1 +:+ s2 /\ matches (Star r) s1 s2 /\
                      k s2 cs' = Some x.
Proof.
  intros Hbody. induction fuel as [|fuel IHf]; intros s cs x; cbn [star_loop].
  - intros Hk. exists "", s, cs. split; [done|]. split; [constructor|done].
  - match goal with
    | |- context [body s cs ?k1] => destruct (body s cs k1) as [y|] eqn:E1
    end.
    + intros [= ->]. apply Hbody in E1 as (a & b & cs1 & -> & Ha & H).
      destruct (_ <? _)%nat; [|done].
      apply IHf in H as (c & d & cs2 & -> & Hc & H).
      exists (a +:+ c), d, cs2. rewrite app_assoc_str.
      split; [done|]. split; [by apply matches_star_cons|done].
    + intros Hk. exists "", s, cs.
      split; [done|]. split; [constructor|done].
Qed.

Lemma lazy_loop_sound {R} r (body : matcher R) k :
  matcher_sound r body ->
  forall fuel s cs x, lazy_loop body k fuel s cs = Some x ->
    exists s1 s2 cs', s = s1 +:+ s2 /\ matches (StarLazy r) s1 s2 /\
                      k s2 cs' = Some x.
Proof.
  intros Hbody. induction fuel as [|fuel IHf]; intros s cs x; cbn [lazy_loop].
  - destruct (k s cs) as [y|] eqn:Ek; [|done].
    intros [= ->]. exists "", s, cs.
    split; [done|]. split; [constructor|done].
  - destruct (k s cs) as [y|] eqn:Ek.
    + intros [= ->]. exists "", s, cs.
      split; [done|]. split; [constructor|done].
    + intros E1. apply Hbody in E1 as (a & b & cs1 & -> & Ha & H).
      destruct (_ <? _)%nat; [|done].
      apply IHf in H as (c & d & cs2 & -> & Hc & H).
      exists (a +:+ c), d, cs2. rewrite app_assoc_str.
      split; [done|]. split; [by apply matches_lazy_cons|done].
Qed.

Lemma exec_sound {R} (r : regex) : matcher_sound r (@exec R r).
Proof.
  induction r as [|p|r1 IH1 r2 IH2|r1 IH1 r2 IH2|r1 IH1|r1 IH1|n r1 IH1|];
    intros s cs k x; cbn [exec].
  - intros Hk. exists "", s, cs. split; [done|]. split; [constructor|done].
  - destruct s as [|c s']; [done|]. destruct (p c) eqn:Ep; [|done].
    intros Hk. exists (String c ""), s', cs.
    split; [done|]. split; [by constructor|done].
  - intros H. apply IH1 in H as (a & b & cs1 & -> & Ha & H).
    apply IH2 in H as (c & d & cs2 & -> & Hc & H).
    exists (a +:+ c), d, cs2. rewrite app_assoc_str.
    split; [done|]. split; [by constructor|done].
  - destruct (exec r1 s cs k) as [y|] eqn:E1.
    + intros [= ->]. apply IH1 in E1 as (a & b & cs1 & -> & Ha & H).
      exists a, b, cs1. split; [done|]. split; [by apply matches_alt_l|done].
    + intros H. apply IH2 in H as (a & b & cs1 & -> & Ha & H).
      exists a, b, cs1. split; [done|]. split; [by apply matches_alt_r|done].
  - by apply star_loop_sound.
  - by apply lazy_loop_sound.
  - intros H. apply IH1 in H as (a & b & cs1 & -> & Ha & H).
    eexists a, b, _. split; [done|]. split; [by constructor|exact H].
  - destruct (at_end s) eqn:Ee; [|done].
    intros Hk. exists "", s, cs. split; [done|]. split; [by constructor|done].
Qed.

Lemma search_from_sound r s : forall pos m,
  search_from r pos s = Some m -> occurs r s.
Proof.
  induction s as [|c s IH]; intros pos m; cbn [search_from].
  - destruct (exec r "" [] _) as [[s' cs']|] eqn:E; [|done].
    intros _. apply exec_sound in E as (a & b & cs1 & Hs & Ha & _).
    exists "", a, b. done.
  - destruct (exec r (String c s) [] _) as [[s' cs']|] eqn:E.
    + intros _. apply exec_sound in E as (a & b & cs1 & Hs & Ha & _).
      exists "", a, b. done.
    + intros H. apply IH in H as (pre & mid & post & -> & Hm).
      exists (String c pre), mid, post. done.
Qed.

Lemma search_none r text : ~ occurs r text -> search r text = None.
Proof.
  intros Hno. destruct (search r text) as [m|] eqn:E; [|done].
  exfalso. apply Hno. by apply (search_from_sound r text 0 m).
Qed.

(** *** Completeness: the search finds a match when there is one *)

Lemma star_loop_ext {R} (body : matcher R) k1 k2 :
  matcher_ext body -> (forall s c, k1 s c = k2 s c) ->
  forall fuel s cs, star_loop body k1 fuel s cs = star_loop body k2 fuel s cs.
Proof.
  intros Hbody Hk.
  induction fuel as [|fuel IHf]; intros s cs; cbn [star_loop]; [done|].
  rewrite Hk. erewrite Hbody; [done|].
  intros s' c. cbn. by rewrite IHf.
Qed.

Lemma lazy_loop_ext {R} (body : matcher R) k1 k2 :
  matcher_ext body -> (forall s c, k1 s c = k2 s c) ->
  forall fuel s cs, lazy_loop body k1 fuel s cs = lazy_loop body k2 fuel s cs.
Proof.
  intros Hbody Hk.
  induction fuel as [|fuel IHf]; intros s cs; cbn [lazy_loop];
    rewrite Hk; [done|].
  erewrite Hbody; [done|]. intros s' c. cbn. by rewrite IHf.
Qed.

Lemma exec_ext {R} (r : regex) : matcher_ext (@exec R r).
Proof.
  induction r as [|p|r1 IH1 r2 IH2|r1 IH1 r2 IH2|r1 IH1|r1 IH1|n r1 IH1|];
    intros s cs k1 k2 Hk; cbn [exec].
  - apply Hk.
  - destruct s as [|c s']; [done|]. by rewrite Hk.
  - apply IH1. intros s' c. by apply IH2.
  - by rewrite (IH1 _ _ k1 k2), (IH2 _ _ k1 k2).
  - by apply star_loop_ext.
  - by apply lazy_loop_ext.
  - apply IH1. intros s' c. apply Hk.
  - by rewrite Hk.
Qed.

Lemma exec_fail {R} (r : regex) : matcher_fail (@exec R r).
Proof.
  intros s cs k Hk. destruct (exec r s cs k) as [x|] eqn:E; [|done].
  apply exec_sound in E as (s1 & s2 & cs' & _ & _ & H).
  by rewrite Hk in H.
Qed.

(** More fuel than the length of the text changes nothing. *)
Lemma star_loop_fuel {R} (body : matcher R) k :
  matcher_ext body -> matcher_fail body ->
  forall f1 f2 s cs,
    (String.length s <= f1)%nat -> (String.length s <= f2)%nat ->
    star_loop body k f1 s cs = star_loop body k f2 s cs.
Proof.
  intros Hext Hfail.
  assert (Hempty : forall f cs, star_loop body k f "" cs = k "" cs).
  { intros [|f] cs; cbn [star_loop]; [done|]. by rewrite Hfail. }
  induction f1 as [|f1 IH]; intros f2 s cs H1 H2.
  - destruct s; [|cbn in H1; lia]. by rewrite !Hempty.
  - destruct f2 as [|f2].
    + destruct s; [|cbn in H2; lia]. by rewrite !Hempty.
    + cbn [star_loop].
      assert (Hk :
        body s cs (fun s' cs' =>
          if (String.length s' <? String.length s)%nat
          then star_loop body k f1 s' cs' else None) =
        body s cs (fun s' cs' =>
          if (String.length s' <? String.length s)%nat
          then star_loop body k f2 s' cs' else None)).
      { apply Hext. intros s' c.
        destruct (Nat.ltb_spec (String.length s') (String.length s)); [|done].
        apply IH; lia. }
      by rewrite Hk.
Qed.

Lemma lazy_loop_fuel {R} (body : matcher R) k :
  matcher_ext body -> matcher_fail body ->
  forall f1 f2 s cs,
    (String.length s <= f1)%nat -> (String.length s <= f2)%nat ->
    lazy_loop body k f1 s cs = lazy_loop body k f2 s cs.
Proof.
  intros Hext Hfail.
  assert (Hempty : forall f cs, lazy_loop body k f "" cs = k "" cs).
  { intros [|f] cs; cbn [lazy_loop]; destruct (k "" cs); try done.
    by rewrite Hfail. }
  induction f1 as [|f1 IH]; intros f2 s cs H1 H2.
  - destruct s; [|cbn in H1; lia]. by rewrite !Hempty.
  - destruct f2 as [|f2].
    + destruct s; [|cbn in H2; lia]. by rewrite !Hempty.
    + cbn [lazy_loop]. destruct (k s cs); [done|].
      apply Hext. intros s' c.
      destruct (Nat.ltb_spec (String.length s') (String.length s)); [|done].
      apply IH; lia.
Qed.

Lemma length_append (a b : string) :
  String.length (a +:+ b) = (String.length a + String.length b)%nat.
Proof.
  induction a as [|x a IH]; [done|].
  change (S (String.length (a +:+ b)) = S (String.length a + String.length b)).
  by rewrite IH.
Qed.

(** A match of the pattern whose rest is accepted, whatever the groups, is
    found (or an earlier way to match is). *)
Lemma exec_complete (r : regex) (s rest : string) :
  matches r s rest ->
  forall R (k : string -> captures -> option R),
    (forall c, is_Some (k rest c)) ->
    forall cs, is_Some (exec r (s +:+ rest) cs k).
Proof.
  induction 1 as [rest|p c rest Hp|r1 r2 s1 s2 rest _ IH1 _ IH2
                 |r1 r2 s rest _ IH|r1 r2 s rest _ IH
                 |r rest|r s1 s2 rest _ IH1 _ IH2
                 |r rest|r s1 s2 rest _ IH1 _ IH2
                 |n r s rest _ IH|rest He];
    intros R k Hk cs; cbn [exec].
  - apply Hk.
  - change (String c "" +:+ rest) with (String c rest). cbv beta iota.
    rewrite Hp. apply Hk.
  - rewrite app_assoc_str. apply IH1. intros c. by apply IH2.
  - destruct (exec r1 (s +:+ rest) cs k) eqn:E; [done|].
    specialize (IH R k Hk cs). rewrite E in IH. by destruct IH.
  - destruct (exec r1 (s +:+ rest) cs k) eqn:E; [done|]. by apply IH.
  - change ("" +:+ rest) with rest.
    destruct (String.length rest); cbn [star_loop]; [apply Hk|].
    destruct (exec r rest cs _); [done|apply Hk].
  - destruct s1 as [|c s1].
    { change ("" +:+ s2) with s2. by apply IH2. }
    rewrite app_assoc_str.
    change (String.length (String c s1 +:+ s2 +:+ rest))
      with (S (String.length (s1 +:+ s2 +:+ rest))).
    cbn [star_loop].
    match goal with
    | |- is_Some (match ?e with _ => _ end) =>
        assert (Hs : is_Some e); [|by destruct Hs as [x ->]]
    end.
    apply IH1. intros c'.
    rewrite (proj2 (Nat.ltb_lt _ _)).
    2:{ change (String.length (String c s1 +:+ s2 +:+ rest))
          with (S (String.length (s1 +:+ s2 +:+ rest))).
        rewrite !length_append. lia. }
    specialize (IH2 R k Hk c'). cbn [exec] in IH2.
    erewrite star_loop_fuel; [exact IH2|apply exec_ext|apply exec_fail| |lia].
    rewrite !length_append. lia.
  - change ("" +:+ rest) with rest.
    destruct (Hk cs) as [x Hx].
    destruct (String.length rest); cbn [lazy_loop]; by rewrite Hx.
  - destruct s1 as [|c s1].
    { change ("" +:+ s2) with s2. by apply IH2. }
    rewrite app_assoc_str.
    change (String.length (String c s1 +:+ s2 +:+ rest))
      with (S (String.length (s1 +:+ s2 +:+ rest))).
    cbn [lazy_loop]. destruct (k _ cs); [done|].
    apply IH1. intros c'.
    rewrite (proj2 (Nat.ltb_lt _ _)).
    2:{ change (String.length (String c s1 +:+ s2 +:+ rest))
          with (S (String.length (s1 +:+ s2 +:+ rest))).
        rewrite !length_append. lia. }
    specialize (IH2 R k Hk c'). cbn [exec] in IH2.
    erewrite lazy_loop_fuel; [exact IH2|apply exec_ext|apply exec_fail| |lia].
    rewrite !length_append. lia.
  - apply IH. intros c. apply Hk.
  - change ("" +:+ rest) with rest. rewrite He. apply Hk.
Qed.

Lemma search_from_complete r pre mid post :
  matches r mid post ->
  forall pos, is_Some (search_from r pos (pre +:+ mid +:+ post)).
Proof.
  intros Hm.
  assert (Hhere : forall s cs, s = mid +:+ post ->
    is_Some (exec r s cs (fun s' cs' => Some (s', cs')))).
  { intros s cs ->. by apply (exec_complete r mid post Hm). }
  induction pre as [|c pre IH]; intros pos.
  - change ("" +:+ mid +:+ post) with (mid +:+ post).
    destruct (mid +:+ post) as [|c s] eqn:Es; cbn [search_from].
    + destruct (Hhere "" [] eq_refl) as [[s' cs'] ->]. done.
    + destruct (Hhere (String c s) [] eq_refl) as [[s' cs'] ->]. done.
  - change (String c pre +:+ mid +:+ post)
      with (String c (pre +:+ mid +:+ post)).
    cbn [search_from].
    destruct (exec r _ [] _) as [[s' cs']|]; [done|apply IH].
Qed.

(** [pattern.search] returns [None] exactly when the pattern matches
    nowhere in the text. *)
Lemma search_none_iff r text : search r text = None <-> ~ occurs r text.
Proof.
  split; [|apply search_none].
  intros Hnone (pre & mid & post & -> & Hm).
  destruct (search_from_complete r pre mid post Hm 0) as [m Hsome].
  unfold search in Hnone. congruence.
Qed.

(** C6 (amended). [extract_markup] raises its [ValueError] exactly when its
    pattern matches nowhere in the page, and then returns no markup.  The
    locator of the numeric parser returns [None] exactly in that case for its
    own pattern, without raising; [parse_guide_slots] then falls back to the
    [<noscript>] block: its result is what the section loop gives on the text
    of that block with the HTML headings, and the empty map when the page has
    no such block (or an empty one).  [extract_print_html_payload] returns
    [None] exactly when neither of its patterns matches. *)
Theorem markup_not_found (json_loads : string -> option string)
    (html_unescape : string -> string) (html_text : string) :
  (~ occurs Items.PRINT_HTML_RE html_text <->
   Items.extract_markup json_loads html_text =
     Items.Raise (Items.ValueError "Could not find WH.markup.printHtml content")) /\
  (~ occurs Parser.GUIDE_MARKUP_RE html_text <->
   Parser.extract_guide_markup html_text = None) /\
  (~ occurs Parser.NOSCRIPT_RE html_text <->
   Parser.extract_noscript html_text = None) /\
  (~ occurs Parser.GUIDE_MARKUP_RE html_text ->
   Parser.parse_guide_slots html_unescape html_text =
     match Parser.extract_noscript html_text with
     | Some (String c rest) =>
         Parser.parse_sections html_unescape false (String c rest)
           (finditer Parser.HTML_HEADING_RE (String c rest))
     | _ => ∅
     end) /\
  (~ occurs Parser.GUIDE_MARKUP_RE html_text ->
   ~ occurs Parser.NOSCRIPT_RE html_text ->
   Parser.parse_guide_slots html_unescape html_text = ∅) /\
  (~ occurs Markup.PRINT_HTML_RE html_text /\
   ~ occurs Markup.PRINT_HTML_FALLBACK_RE html_text <->
   Markup.extract_print_html_payload html_text = None).
Proof.
  rewrite <- !search_none_iff.
  unfold Items.extract_markup, Parser.parse_guide_slots,
    Parser.extract_noscript, Parser.extract_guide_markup,
    Markup.extract_print_html_payload.
  destruct (search Items.PRINT_HTML_RE html_text) as [m1|];
    destruct (search Parser.GUIDE_MARKUP_RE html_text) as [m2|];
    destruct (search Parser.NOSCRIPT_RE html_text) as [m3|];
    destruct (search Markup.PRINT_HTML_RE html_text) as [m4|];
    destruct (search Markup.PRINT_HTML_FALLBACK_RE html_text) as [m5|];
    try destruct (json_loads _); intuition congruence.
Qed.

End locator_properties.

(** ** The section loop of the numeric parser *)

Section parser_properties.
Import Str Re Parser.

Lemma assign_slots_lookup (d : slot_map) targets ranked s :
  assign_slots d targets ranked !! s =
  if decide (s ∈ targets) then Some ranked else d !! s.
Proof.
  unfold assign_slots. revert d.
  induction targets as [|t targets IH]; intros d; cbn [foldl].
  - by rewrite decide_False by apply not_elem_of_nil.
  - rewrite IH. destruct (decide (s ∈ targets)) as [Hin|Hnin].
    + by rewrite decide_True by (by right).
    + destruct (decide (s = t)) as [->|Hne].
      * rewrite lookup_insert_eq. by rewrite decide_True by left.
      * rewrite lookup_insert_ne by done.
        rewrite decide_False; [done|]. rewrite elem_of_cons. tauto.
Qed.

Section section_loop.
Variable html_unescape : string -> string.
Variables (is_markup : bool) (source_text : string) (sections : list rmatch).

Lemma section_step_spec d im :
  section_step html_unescape is_markup source_text sections d im =
  match section_assignment html_unescape is_markup source_text sections im with
  | Some (targets, ranked) => assign_slots d targets ranked
  | None => d
  end.
Proof.
  destruct im as [idx m]. unfold section_step, section_assignment.
  cbn [fst snd].
  destruct (section_slot_ids _ _) as [|t ts]; [done|].
  by destruct (ranked_of_section _ _).
Qed.

Lemma last_assigned_snoc s made a :
  last_assigned s (made ++ [a]) =
  if decide (s ∈ fst a) then Some (snd a) else last_assigned s made.
Proof.
  unfold last_assigned. rewrite filter_app, filter_cons, filter_nil.
  destruct (decide (s ∈ a.1)).
  - by rewrite last_snoc.
  - by rewrite app_nil_r.
Qed.

Lemma foldl_section_step l : forall d s,
  foldl (section_step html_unescape is_markup source_text sections) d l !! s =
  match last_assigned s
          (omap (section_assignment html_unescape is_markup source_text
                   sections) l) with
  | Some ranked => Some ranked
  | None => d !! s
  end.
Proof.
  induction l as [|im l IH] using rev_ind; intros d s; [done|].
  rewrite foldl_app. cbn [foldl]. rewrite section_step_spec, omap_app.
  cbn. destruct (section_assignment _ _ _ _ im) as [[targets ranked]|].
  - rewrite last_assigned_snoc, assign_slots_lookup. cbn [fst snd].
    destruct (decide (s ∈ targets)); [done|apply IH].
  - rewrite app_nil_r. apply IH.
Qed.
End section_loop.

(** C10 (amended). [parse_guide_slots] maps a slot id to the ranked list of
    the last section in document order that targets the slot and has at
    least one ranked item (a section without items assigns nothing, so it
    replaces nothing), and to nothing when there is no such section; an
    assignment gives the same list to every one of its target ids. *)
Theorem last_section_wins (html_unescape : string -> string)
    (html_text : string) (s : Z) :
  parse_guide_slots html_unescape html_text !! s =
    last_assigned s (guide_assignments html_unescape html_text)
  /\
  forall (d : slot_map) targets ranked,
    Forall (fun t => assign_slots d targets ranked !! t = Some ranked) targets.
Proof.
  split.
  - unfold parse_guide_slots, guide_assignments, parse_sections, assignments.
    destruct (extract_guide_markup html_text) as [[|c rest]|];
      [| rewrite foldl_section_step; by destruct (last_assigned _ _) |];
      (destruct (extract_noscript html_text) as [[|c' rest']|];
       [done| rewrite foldl_section_step; by destruct (last_assigned _ _) |done]).
  - intros d targets ranked. apply Forall_forall. intros t Ht.
    by rewrite assign_slots_lookup, decide_True.
Qed.

End parser_properties.

(** ** The examples *)

Section example_properties.
Import Str Re Examples.

(** The scenario of the test suite. *)
Example smoke_extract :
  Items.extract_by_slot smoke_markup smoke_lookup "bis" =
  [ {| Items.slot := "Head";
       Items.items :=
         [ Items.row_entry smoke_lookup 1 "Rank 1" "Source" 1 1 "12345" ] |} ].
Proof. vm_compute. reflexivity. Qed.

Lemma tie_group_witness :
  let hd : Items.header := (0%nat, 14%nat, "Hands") in
  let ids := Items.row_item_ids tied_row in
  let n := length ids in
  let o := 1 + Z.of_nat (Items.count_valid [tied_header_row]) in
  exists se,
    se ∈ Items.extract_by_slot tied_markup ∅ "bis" /\
    Items.slot se = Items.slot_name_of "bis" (Items.h_name hd) /\
    Items.items se =
      Items.section_items ∅ "bis"
        (Items.section_of tied_markup (Items.headers_of tied_markup) 0 hd) /\
    let group := filter (fun e => Items.order e = o) (Items.items se) in
    (1 <= n)%nat /\
    group = Items.row_group ∅ o tied_row /\
    length group = n /\
    Forall (fun e => Items.order e = o /\
                     Items.tie_group_size e = Z.of_nat n) group /\
    map Items.tie_group_index group = map Z.of_nat (seq 1 n) /\
    map Items.ref_id group = map int ids /\
    Forall (fun e => Items.tie_with_previous e = true <->
                     Items.tie_group_index e <> 1) group /\
    length (filter (fun e => Items.tie_with_previous e = true) group)
      = (n - 1)%nat.
Proof.
  apply (tie_group ∅ "bis" tied_markup 0 (0%nat, 14%nat, "Hands")
           [tied_header_row] [tied_last_row] tied_row);
    vm_compute; reflexivity.
Defined.

(** The entries of the example, by order, tie fields and item. *)
Example tied_extract :
  map (fun se =>
         (Items.slot se,
          map (fun e => (Items.order e, Items.tie_group_size e,
                         Items.tie_group_index e, Items.tie_with_previous e,
                         Items.ref_id e))
              (Items.items se)))
      (Items.extract_by_slot tied_markup ∅ "bis")
  = [ ("Hands", [ (1, 2, 1, false, 5); (1, 2, 2, true, 6);
                  (2, 1, 1, false, 5) ]) ].
Proof. vm_compute. reflexivity. Qed.

(** The textual classifier knows the hands by "hand" and "hands"; it has no
    alias for "Gloves", which it leaves as it is and which is no valid slot. *)
Example normalize_slot_hands :
  map Items.normalize_slot ["Hands"; "hand"; "Hands for Druids"; "Gloves"]
    = ["Hands"; "Hands"; "Hands"; "Gloves"] /\
  mem "Gloves" Items.VALID_SLOTS = false.
Proof. vm_compute. split; reflexivity. Qed.

(** C3 (as stated) fails: the list of a slot built from table rows keeps a
    reference that appears in two rows, here item 5, twice. *)
Lemma slot_list_identity_counterexample :
  map (fun se => (Items.slot se, map Items.identity (Items.items se)))
      (Items.extract_by_slot tied_markup ∅ "bis")
    = [ ("Hands", [ ("item", 5); ("item", 6); ("item", 5) ]) ] /\
  ~ NoDup [ ("item", 5); ("item", 6); ("item", 5) ].
Proof.
  split; [vm_compute; reflexivity|].
  intros Hnd. apply NoDup_cons in Hnd as [Hnin _].
  apply Hnin. right. left.
Qed.

Lemma inline_fallback_witness :
  let hd : Items.header := (0%nat, 22%nat, "Best Red Gems") in
  let section :=
    Items.section_of inline_markup (Items.headers_of inline_markup) 0 hd in
  let keys := [ ("item", 1); ("spell", 2); ("item", 3) ] in
  Items.section_items ∅ "gems_enchants" section =
    imap (Items.inline_entry ∅) keys /\
  {| Items.slot := "Red"; Items.items := imap (Items.inline_entry ∅) keys |}
    ∈ Items.extract_by_slot inline_markup ∅ "gems_enchants".
Proof.
  assert (Hhd : Items.headers_of inline_markup !! 0%nat =
                Some (0%nat, 22%nat, "Best Red Gems"))
    by (vm_compute; reflexivity).
  assert (H0 : Items.count_valid
                 (Items.section_rows
                    (Items.section_of inline_markup
                       (Items.headers_of inline_markup) 0
                       (0%nat, 22%nat, "Best Red Gems"))) = 0%nat)
    by (vm_compute; reflexivity).
  destruct (inline_fallback ∅ inline_markup 0 (0%nat, 22%nat, "Best Red Gems")
              Hhd H0) as (Hitems & Hentry & _).
  split.
  - etransitivity; [exact Hitems|]. vm_compute. reflexivity.
  - assert (Hslot :
      {| Items.slot := "Red";
         Items.items :=
           imap (Items.inline_entry ∅)
                [ ("item", 1); ("spell", 2); ("item", 3) ] |} =
      {| Items.slot :=
           Items.slot_name_of "gems_enchants"
             (Items.h_name (0%nat, 22%nat, "Best Red Gems"));
         Items.items :=
           imap (Items.inline_entry ∅)
             (dedup_keep_first
                (map Items.ref_key
                   (finditer Items.REF_RE
                      (Items.section_of inline_markup
                         (Items.headers_of inline_markup) 0
                         (0%nat, 22%nat, "Best Red Gems"))))) |})
      by (vm_compute; reflexivity).
    rewrite Hslot. apply Hentry; [vm_compute; reflexivity|].
    vm_compute. discriminate.
Defined.

Example inline_extract :
  map (fun se =>
         (Items.slot se,
          map (fun e => (Items.order e, Items.rank e, Items.ref_type e,
                         Items.ref_id e))
              (Items.items se)))
      (Items.extract_by_slot inline_markup ∅ "gems_enchants")
  = [ ("Red", [ (1, "Best", "item", 1); (2, "Alternative", "spell", 2);
                (3, "Alternative", "item", 3) ]) ].
Proof. vm_compute. reflexivity. Qed.

(** C5 (as stated) fails: in a guide of type "bis" the section of the
    classified header "Head" has no valid table row and three inline
    references, and gets no entry at all. *)
Lemma inline_fallback_counterexample :
  Items.headers_of inline_head_markup = [ (0%nat, 13%nat, "Head") ] /\
  mem (Items.normalize_slot "Head") Items.VALID_SLOTS = true /\
  Items.count_valid (Items.section_rows inline_section) = 0%nat /\
  length (Items._extract_inline_refs inline_section ∅) = 3%nat /\
  Items.extract_by_slot inline_head_markup ∅ "bis" = [].
Proof. vm_compute. repeat split. Qed.

(** C7 (as stated) fails: the classified header "Head" has a section with no
    table row and no inline reference, and the result has no entry for it
    (the claim has [{slot: Head, items: []}]). *)
Lemma empty_slot_counterexample :
  Items.headers_of bare_markup = [ (0%nat, 13%nat, "Head") ] /\
  Items.extract_by_slot bare_markup ∅ "bis" = [] /\
  Items.extract_by_slot bare_markup ∅ "gems_enchants" = [] /\
  Items.extract_by_slot bare_markup ∅ "bis"
    <> [ {| Items.slot := "Head"; Items.items := [] |} ].
Proof. vm_compute. repeat split. discriminate. Qed.

(** C6 (as stated) fails: on a page with no [printHtml] at all the locator of
    the numeric parser returns [None] and [parse_guide_slots] returns the
    empty map: no error is raised. *)
Lemma markup_not_found_counterexample :
  contains "printHtml" plain_page = false /\
  Parser.extract_guide_markup plain_page = None /\
  Parser.parse_guide_slots (fun s => s) plain_page = ∅ /\
  Markup.extract_print_html_payload plain_page = None.
Proof. vm_compute. repeat split. Qed.

(** No pattern of a locator matches in the page that is not a guide. *)
Example plain_page_no_markup :
  ~ occurs Items.PRINT_HTML_RE plain_page /\
  ~ occurs Parser.GUIDE_MARKUP_RE plain_page /\
  ~ occurs Parser.NOSCRIPT_RE plain_page /\
  ~ occurs Markup.PRINT_HTML_RE plain_page /\
  ~ occurs Markup.PRINT_HTML_FALLBACK_RE plain_page.
Proof. rewrite <- !search_none_iff. vm_compute. repeat split. Qed.

Example markup_not_found_run :
  Items.extract_markup Some plain_page =
  Items.Raise (Items.ValueError "Could not find WH.markup.printHtml content").
Proof. vm_compute. reflexivity. Qed.

(** The fallback of [parse_guide_slots]: the page has no guide markup, and
    the slots are those of its [<noscript>] block. *)
Example noscript_fallback_run :
  Parser.extract_guide_markup noscript_page = None /\
  Parser.parse_guide_slots (fun s => s) noscript_page = {[1 := [77]]}.
Proof. vm_compute. split; reflexivity. Qed.

(** The hands rule lists "main hand" and "off-hand" among its weapon cues but
    not the hyphenated "main-hand", which [has_mainhand] tests further down:
    the heading "Main-Hand" stops at the hands rule. *)
Example main_hand_heading :
  Parser.mentions Parser.weapon_hand_cues "Main-Hand" = false /\
  Parser.section_slot_ids "Main-Hand" "" = [10] /\
  Parser.section_slot_ids "Off-Hand" "" = [17].
Proof. vm_compute. repeat split. Qed.

(** C10 (as stated) fails: the last section that classifies to slot 1 is the
    third one, whose ranked list is empty, and the slot keeps the list of the
    first section. *)
Lemma last_section_counterexample :
  let sections := finditer Parser.HEADING_RE two_heads in
  Parser.extract_guide_markup (page two_heads) = Some two_heads /\
  map (fun im =>
         let text := Parser.section_text two_heads sections (fst im) (snd im) in
         (Parser.section_slot_ids
            (Parser.section_heading (fun s => s) (snd im)) text,
          Parser.ranked_of_section true text))
      (imap pair sections)
    = [ ([1], [1]); ([11; 12], [7; 8]); ([1], []) ] /\
  Parser.parse_guide_slots (fun s => s) (page two_heads) !! 1 = Some [1].
Proof. vm_compute. repeat split. Qed.

Example two_heads_slots :
  Parser.parse_guide_slots (fun s => s) (page two_heads)
  = {[ 1 := [1]; 11 := [7; 8]; 12 := [7; 8] ]}.
Proof. vm_compute. reflexivity. Qed.

End example_properties.

(** ** The algebra of the merge *)

Section merge_algebra.
Import Parser.

Lemma dedup_dedup_app `{EqDecision A} (a b : list A) :
  dedup_keep_first (dedup_keep_first a ++ b) = dedup_keep_first (a ++ b).
Proof.
  rewrite !dedup_app, (dedup_id (dedup_keep_first a)) by apply NoDup_dedup.
  f_equal. apply list_filter_iff. intros y. by rewrite elem_of_dedup.
Qed.

Lemma merge_slot_maps_get_eq (m1 m2 : slot_map) :
  (forall s, match dict_get m1 s with [] => None | l => Some l end = m1 !! s) ->
  (forall s, match dict_get m2 s with [] => None | l => Some l end = m2 !! s) ->
  (forall s, dict_get m1 s = dict_get m2 s) -> m1 = m2.
Proof.
  intros H1 H2 H. apply map_eq. intros s. by rewrite <- H1, <- H2, H.
Qed.

Lemma merge_slot_maps_canonical A B s :
  match dict_get (merge_slot_maps A B) s with [] => None | l => Some l end =
  merge_slot_maps A B !! s.
Proof.
  rewrite dict_get_merge, merge_slot_maps_lookup, merge_slot_dedup. done.
Qed.

Lemma well_ranked_canonical m s :
  well_ranked m ->
  match dict_get m s with [] => None | l => Some l end = m !! s.
Proof.
  intros Hm. unfold dict_get. destruct (m !! s) as [l|] eqn:E; [|done].
  apply Hm in E as [Hne _]. by destruct l.
Qed.

Lemma well_ranked_merge A B : well_ranked (merge_slot_maps A B).
Proof.
  intros s l. rewrite merge_slot_maps_lookup, merge_slot_dedup.
  destruct (dedup_keep_first _) as [|x l'] eqn:E; [done|].
  intros [= <-]. split; [done|]. rewrite <- E. apply NoDup_dedup.
Qed.

Lemma well_ranked_get m s : well_ranked m -> NoDup (dict_get m s).
Proof.
  intros Hm. unfold dict_get. destruct (m !! s) as [l|] eqn:E; [|constructor].
  by apply Hm in E as [_ ?].
Qed.

(** X1. Merging is associative: for a prior map [A], a map [B] read next and
    a map [C] read last, merging [C] over the merge of [A] and [B] gives the
    same map as merging the merge of [B] and [C] over [A]. *)
Theorem merge_slot_maps_assoc (A B C : slot_map) :
  merge_slot_maps (merge_slot_maps A B) C =
  merge_slot_maps A (merge_slot_maps B C).
Proof.
  apply merge_slot_maps_get_eq; try apply merge_slot_maps_canonical.
  intros s. rewrite !dict_get_merge.
  by rewrite dedup_app_dedup, dedup_dedup_app, <- app_assoc.
Qed.

Lemma merge_slot_maps_empty_l (B : slot_map) :
  well_ranked B -> merge_slot_maps ∅ B = B.
Proof.
  intros HB. apply merge_slot_maps_get_eq;
    [apply merge_slot_maps_canonical
    |intros s; by apply well_ranked_canonical|].
  intros s. rewrite dict_get_merge.
  change (dict_get ∅ s) with (@nil Z). rewrite app_nil_r.
  by apply dedup_id, well_ranked_get.
Qed.

Lemma merge_slot_maps_empty_r (B : slot_map) :
  well_ranked B -> merge_slot_maps B ∅ = B.
Proof.
  intros HB. apply merge_slot_maps_get_eq;
    [apply merge_slot_maps_canonical
    |intros s; by apply well_ranked_canonical|].
  intros s. rewrite dict_get_merge.
  change (dict_get ∅ s) with (@nil Z). cbn [app].
  by apply dedup_id, well_ranked_get.
Qed.

(** X2. On a map [B] whose lists have an item and no duplicate (as the
    parser and the merge produce them) the empty map is neutral on both
    sides: a phase that read nothing keeps the prior map, and a guide merged
    over nothing is kept as read.  Merging [B] with itself gives [B]. *)
Theorem merge_slot_maps_neutral (B : slot_map) :
  well_ranked B ->
  merge_slot_maps ∅ B = B /\ merge_slot_maps B ∅ = B /\
  merge_slot_maps B B = B.
Proof.
  intros HB.
  split; [by apply merge_slot_maps_empty_l|].
  split; [by apply merge_slot_maps_empty_r|].
  apply merge_slot_maps_get_eq;
    [apply merge_slot_maps_canonical
    |intros s; by apply well_ranked_canonical|].
  intros s. rewrite dict_get_merge.
  rewrite dedup_app, filter_none, app_nil_r.
  - by apply dedup_id, well_ranked_get.
  - intros x Hx Hn. apply Hn. rewrite elem_of_dedup in Hx. exact Hx.
Qed.

Lemma well_ranked_example : well_ranked {[1 := [20; 10]; 16 := [30]]}.
Proof. unfold well_ranked. apply (bool_decide_unpack _). vm_compute. exact I. Qed.

Lemma merge_slot_maps_neutral_witness :
  let B : slot_map := {[1 := [20; 10]; 16 := [30]]} in
  merge_slot_maps ∅ B = B /\ merge_slot_maps B ∅ = B /\
  merge_slot_maps B B = B.
Proof.
  apply (merge_slot_maps_neutral {[1 := [20; 10]; 16 := [30]]}).
  unfold well_ranked. apply (bool_decide_unpack _). vm_compute. exact I.
Defined.

Lemma recent_first_S parsed k s m :
  parsed !! k = Some m ->
  recent_first parsed (S k) s = dict_get m s ++ recent_first parsed k s.
Proof.
  intros Hk. unfold recent_first.
  rewrite (take_S_r _ _ _ Hk), map_app, reverse_app. cbn [map].
  by rewrite reverse_singleton.
Qed.

Lemma run_phases_well_ranked ms : forall phase prev i,
  1 < phase ->
  well_ranked (default ∅ (mjoin (run_phases phase prev ms !! i))).
Proof.
  induction ms as [|m ms IH]; intros phase prev i Hph.
  - apply map_Forall_empty.
  - cbn [run_phases]. unfold phase_step.
    rewrite (proj2 (Z.ltb_lt 1 phase)) by done.
    case_bool_decide as Hempty; destruct i as [|i]; cbn [lookup list_lookup].
    + apply map_Forall_empty.
    + apply IH. lia.
    + apply well_ranked_merge.
    + apply IH. lia.
Qed.

Lemma phase_slots_well_ranked parsed k :
  well_ranked (phase_slots parsed (S (S k))).
Proof.
  unfold phase_slots, main_phases. replace (S (S k) - 1)%nat with (S k) by lia.
  destruct parsed as [|m0 rest]; [apply map_Forall_empty|].
  cbn [run_phases]. destruct (phase_step 1 ∅ m0) as [stored prev'].
  cbn [lookup list_lookup]. by apply run_phases_well_ranked.
Qed.

Lemma phase_slots_merge (parsed : list slot_map) (k : nat) (m m' : slot_map) :
  parsed !! k = Some m -> parsed !! S k = Some m' ->
  phase_slots parsed (S (S k)) =
    merge_slot_maps (phase_slots parsed (S k)) m'.
Proof.
  intros Hk Hk'. apply merge_slot_maps_get_eq.
  - intros s. apply well_ranked_canonical, phase_slots_well_ranked.
  - apply merge_slot_maps_canonical.
  - intros s. rewrite dict_get_merge.
    rewrite (phase_slots_get _ _ _ m') by done.
    rewrite (phase_slots_get _ _ _ m) by done.
    rewrite (recent_first_S _ _ _ m') by done.
    destruct k as [|k].
    + unfold recent_first at 1.
      destruct parsed as [|m0 rest]; [done|].
      cbn in Hk. injection Hk as ->. change (take 1 (m :: rest)) with [m].
      cbn. by rewrite app_nil_r.
    + by rewrite dedup_app_dedup.
Qed.

(** X3. The phase loop is a chain of merges that never loses an item.  For
    two consecutive phases that both have an entry in the list of maps read,
    the slots of the later phase are the merge of the map read for it over
    the slots of the phase before; every list of that phase has an item and
    no duplicate; and an item listed for a slot at some phase is listed for
    it at every later phase. *)
Theorem phases_step_by_step (parsed : list slot_map) (k : nat)
    (m m' : slot_map) :
  parsed !! k = Some m -> parsed !! S k = Some m' ->
  phase_slots parsed (S (S k)) =
    merge_slot_maps (phase_slots parsed (S k)) m' /\
  well_ranked (phase_slots parsed (S (S k))) /\
  (forall (j : nat) (mj : slot_map) (s x : Z),
     (k <= j)%nat -> parsed !! j = Some mj ->
     x ∈ dict_get (phase_slots parsed (S k)) s ->
     x ∈ dict_get (phase_slots parsed (S j)) s).
Proof.
  intros Hk Hk'. split; [by apply (phase_slots_merge _ _ m)|split].
  - apply phase_slots_well_ranked.
  - intros j mj s x Hj Hmj.
    rewrite (phase_slots_get _ _ _ m), (phase_slots_get _ _ _ mj) by done.
    destruct k as [|k], j as [|j]; try lia.
    + congruence.
    + rewrite elem_of_dedup, elem_of_recent_first.
      intros Hx. exists 0%nat, m. split; [lia|done].
    + rewrite !elem_of_dedup, !elem_of_recent_first.
      intros (i & mi & Hi & Hmi & Hx). exists i, mi. split; [lia|done].
Qed.

Lemma phases_step_by_step_witness :
  let parsed := Examples.example_phases in
  phase_slots parsed 5 = merge_slot_maps (phase_slots parsed 4) {[1 := [50]]} /\
  well_ranked (phase_slots parsed 5) /\
  (forall (j : nat) (mj : slot_map) (s x : Z),
     (3 <= j)%nat -> parsed !! j = Some mj ->
     x ∈ dict_get (phase_slots parsed 4) s ->
     x ∈ dict_get (phase_slots parsed (S j)) s).
Proof.
  apply (phases_step_by_step Examples.example_phases 3
           {[1 := [40; 10]]} {[1 := [50]]}); reflexivity.
Defined.

End merge_algebra.

(** ** What the numeric parser keeps true *)

Section parser_invariants.
Import Str Re Parser.

Lemma lower_char_idemp c : lower_char (lower_char c) = lower_char c.
Proof. destruct c as [[] [] [] [] [] [] [] []]; reflexivity. Qed.

Lemma lower_idemp s : lower (lower s) = lower s.
Proof.
  induction s as [|c s IH]; [done|]. cbn [lower].
  by rewrite lower_char_idemp, IH.
Qed.

Lemma section_slot_ids_range heading_text section_text :
  In (section_slot_ids heading_text section_text) ([] :: slot_id_groups).
Proof.
  unfold section_slot_ids. cbv zeta.
  repeat match goal with
         | |- In (if ?c then _ else _) _ => destruct c
         end; cbn; tauto.
Qed.

Lemma slot_id_groups_shape targets :
  In targets ([] :: slot_id_groups) ->
  (forall s, s ∈ targets -> s ∈ known_slot_ids) /\
  (11 ∈ targets <-> 12 ∈ targets) /\ (13 ∈ targets <-> 14 ∈ targets).
Proof.
  cbn. intros H.
  repeat (destruct H as [<-|H]); [..|done];
    (split; [|split; compute_done]);
    intros s Hs%list_elem_of_In; cbn in Hs; intuition subst; compute_done.
Qed.

(** X5. The classifier returns no slot or one of sixteen fixed lists: every
    slot id it names is one of 1-3 and 5-18 (never 4 or 19, the shirt and the
    tabard), the two ring slots 11 and 12 are always named together, and so
    are the two trinket slots 13 and 14.  It reads the heading and the
    section text up to letter case only. *)
Theorem section_slot_ids_shape (heading_text section_text : string) :
  let targets := section_slot_ids heading_text section_text in
  (targets = [] \/ In targets slot_id_groups) /\
  (forall s, s ∈ targets -> s ∈ known_slot_ids) /\
  (11 ∈ targets <-> 12 ∈ targets) /\ (13 ∈ targets <-> 14 ∈ targets) /\
  section_slot_ids (lower heading_text) (lower section_text) = targets.
Proof.
  intros targets.
  pose proof (section_slot_ids_range heading_text section_text) as Hr.
  pose proof (slot_id_groups_shape _ Hr) as (H1 & H2 & H3).
  split; [destruct Hr as [Hr|Hr]; [left; symmetry; exact Hr|by right]|].
  do 3 (split; [done|]).
  unfold targets, section_slot_ids. by rewrite !lower_idemp.
Qed.

Lemma extend_new_NoDup acc l : NoDup acc -> NoDup (extend_new acc l).
Proof.
  intros Hacc. rewrite extend_new_spec. apply NoDup_app. split; [done|].
  split; [|apply NoDup_dedup].
  intros x Hx. rewrite elem_of_dedup, list_elem_of_filter. tauto.
Qed.

Lemma foldl_NoDup {B} (f : list Z -> B -> list Z) (l : list B) :
  (forall acc b, NoDup acc -> NoDup (f acc b)) ->
  forall acc, NoDup acc -> NoDup (foldl f acc l).
Proof.
  intros Hf. induction l as [|b l IH]; intros acc Hacc; [done|].
  cbn [foldl]. by apply IH, Hf.
Qed.

Lemma parse_ranked_items_from_table_NoDup table_html :
  NoDup (parse_ranked_items_from_table table_html).
Proof.
  unfold parse_ranked_items_from_table.
  apply foldl_NoDup; [|constructor].
  intros acc row Hacc. unfold ranked_row_step.
  destruct (_ <? _)%nat; [done|by apply extend_new_NoDup].
Qed.

Lemma ranked_of_section_NoDup is_markup section_html :
  NoDup (ranked_of_section is_markup section_html).
Proof.
  unfold ranked_of_section.
  assert (H : NoDup (if is_markup
                     then foldl markup_table_step []
                            (findall TABLE_RE section_html)
                     else foldl html_table_step []
                            (findall0 HTML_TABLE_RE section_html))).
  { destruct is_markup; (apply foldl_NoDup; [|constructor]); intros acc b Hacc.
    - unfold markup_table_step.
      destruct (parse_ranked_items_from_table _);
        repeat apply extend_new_NoDup; done.
    - by apply extend_new_NoDup. }
  destruct (if is_markup then _ else _); [|done].
  apply extend_new_NoDup. constructor.
Qed.

Lemma assign_slots_inv d targets ranked :
  slots_inv d -> In targets ([] :: slot_id_groups) ->
  ranked <> [] -> NoDup ranked ->
  slots_inv (assign_slots d targets ranked).
Proof.
  intros (Hwr & Hdom & H11 & H13) Ht Hne Hnd.
  apply slot_id_groups_shape in Ht as (Hk & Hr & Htr).
  split; [|split; [|split]].
  - intros s l. rewrite assign_slots_lookup.
    destruct (decide (s ∈ targets)); [by intros [= <-]|apply Hwr].
  - intros s. rewrite elem_of_dom, assign_slots_lookup.
    destruct (decide (s ∈ targets)); [auto|].
    intros Hs. apply Hdom. by apply elem_of_dom.
  - rewrite !assign_slots_lookup.
    destruct (decide (11 ∈ targets)), (decide (12 ∈ targets)); tauto.
  - rewrite !assign_slots_lookup.
    destruct (decide (13 ∈ targets)), (decide (14 ∈ targets)); tauto.
Qed.

Lemma parse_sections_inv html_unescape is_markup source_text sections :
  slots_inv (parse_sections html_unescape is_markup source_text sections).
Proof.
  unfold parse_sections.
  assert (H0 : slots_inv ∅).
  { split; [apply map_Forall_empty|]. split; [|done].
    intros s. by rewrite dom_empty, elem_of_empty. }
  revert H0. generalize (∅ : slot_map).
  generalize (imap pair sections) at 1. intros l.
  induction l as [|[idx m] l IH]; intros d Hd; [done|].
  cbn [foldl]. apply IH. unfold section_step.
  pose proof (section_slot_ids_range
                (section_heading html_unescape m)
                (section_text source_text sections idx m)) as Hr.
  destruct (section_slot_ids _ _) as [|t ts] eqn:Et; [done|].
  pose proof (ranked_of_section_NoDup is_markup
                (section_text source_text sections idx m)) as Hnd.
  destruct (ranked_of_section _ _) as [|x r] eqn:Er; [done|].
  by apply assign_slots_inv.
Qed.

(** X4. Whatever the page, every list in the result of [parse_guide_slots]
    has an item and names no item twice; every key is one of the slot ids
    1-3 and 5-18; and the two ring slots hold the same list (or are both
    absent), as do the two trinket slots. *)
Theorem parse_guide_slots_invariant (html_unescape : string -> string)
    (html_text : string) :
  let slots := parse_guide_slots html_unescape html_text in
  well_ranked slots /\
  (forall s, s ∈ dom slots -> s ∈ known_slot_ids) /\
  slots !! 11 = slots !! 12 /\ slots !! 13 = slots !! 14.
Proof.
  cbv zeta. unfold parse_guide_slots.
  assert (H0 : slots_inv ∅).
  { split; [apply map_Forall_empty|]. split; [|done].
    intros s. by rewrite dom_empty, elem_of_empty. }
  destruct (extract_guide_markup html_text) as [[|c rest]|];
    try apply parse_sections_inv;
    destruct (extract_noscript html_text) as [[|c' rest']|];
    try apply parse_sections_inv; exact H0.
Qed.

End parser_invariants.

(** ** What the item extractor keeps true *)

Section extractor_invariants.
Import Str Re Items.

(** *** The alias table of the slot names *)

Lemma assoc_in key table v :
  assoc key table = Some v -> In v (map snd table).
Proof.
  induction table as [|[k w] table IH]; [done|]. cbn.
  destruct (String.eqb key k); [intros [= ->]; by left|auto].
Qed.

Lemma mem_in x l : mem x l = true <-> In x l.
Proof.
  unfold mem. rewrite existsb_exists. split.
  - intros (y & Hy & ->%String.eqb_eq). done.
  - intros Hx. exists x. by rewrite String.eqb_refl.
Qed.

Lemma slot_alias_values v :
  In v (map snd slot_alias) -> mem v VALID_SLOTS = true.
Proof.
  cbn. intros H. repeat (destruct H as [<-|H]; [reflexivity|]). done.
Qed.

Lemma valid_slot_alias v :
  In v VALID_SLOTS -> assoc (lower v) slot_alias = Some v.
Proof.
  cbn. intros H. repeat (destruct H as [<-|H]; [reflexivity|]). done.
Qed.

(** X6. [normalize_slot] looks the heading up in its alias table under the
    key [slot_key]: the heading stripped, without its "for ..." tail, with
    its whitespace collapsed and in lower case.  When the key is in the
    table the result is its alias, which is one of the nineteen slot names;
    when it is not, the result is none of them.  So in a guide that is not a
    gems and enchants guide every slot of the result is the alias of one of
    the headers of the markup. *)
Theorem normalize_slot_valid (raw : string) :
  match assoc (slot_key raw) slot_alias with
  | Some alias =>
      normalize_slot raw = alias /\ mem alias VALID_SLOTS = true
  | None => mem (normalize_slot raw) VALID_SLOTS = false
  end /\
  (forall markup tbl guide_type,
     guide_type <> "gems_enchants" ->
     Forall (fun se =>
               exists hd, hd ∈ headers_of markup /\
                 assoc (slot_key (h_name hd)) slot_alias = Some (slot se) /\
                 normalize_slot (h_name hd) = slot se)
            (extract_by_slot markup tbl guide_type)).
Proof.
  assert (Hcase : forall raw,
    match assoc (slot_key raw) slot_alias with
    | Some alias =>
        normalize_slot raw = alias /\ mem alias VALID_SLOTS = true
    | None => mem (normalize_slot raw) VALID_SLOTS = false
    end).
  { clear raw. intros raw. unfold normalize_slot, slot_key. cbv zeta.
    set (cleaned := strip (sub WS_RE " " (sub FOR_RE "" (strip raw)))).
    destruct (assoc (lower cleaned) slot_alias) as [v|] eqn:E; cbn [default].
    - split; [done|]. by apply slot_alias_values, (assoc_in _ _ _ E).
    - destruct (mem cleaned VALID_SLOTS) eqn:Hm; [|done].
      apply mem_in, valid_slot_alias in Hm. congruence. }
  split; [apply Hcase|].
  intros markup tbl gt Hgt. apply Forall_forall. intros se.
  rewrite extract_by_slot_spec, list_elem_of_omap.
  intros ([i hd] & Hin & Hres).
  apply elem_of_lookup_imap in Hin as (i' & hd' & [= -> ->] & Hhd).
  exists hd'. split; [by eapply list_elem_of_lookup_2|].
  unfold header_result, slot_name_of, valid_slots_of in Hres.
  cbn [fst snd] in Hres.
  rewrite (proj2 (String.eqb_neq gt "gems_enchants")) in Hres by done.
  destruct (mem _ _) eqn:Hm; [|done].
  destruct (section_items _ _ _); [done|]. injection Hres as <-. cbn [slot].
  pose proof (Hcase (h_name hd')) as Hc.
  destruct (assoc (slot_key (h_name hd')) slot_alias) as [alias|].
  - destruct Hc as [-> _]. done.
  - congruence.
Qed.

Lemma normalize_slot_valid_witness :
  Forall (fun se =>
            exists hd, hd ∈ headers_of Examples.smoke_markup /\
              assoc (slot_key (h_name hd)) slot_alias = Some (slot se) /\
              normalize_slot (h_name hd) = slot se)
         (extract_by_slot Examples.smoke_markup Examples.smoke_lookup "bis").
Proof.
  apply (proj2 (normalize_slot_valid "Head")). done.
Defined.

(** *** Neighbours in a ranked list *)

Lemma chain_intro {A} (R : A -> A -> Prop) (l : list A) :
  (forall i a b, l !! i = Some a -> l !! S i = Some b -> R a b) -> chain R l.
Proof.
  induction l as [|a l IH]; intros H; [done|]. cbn [chain]. split.
  - destruct l as [|b l]; [done|]. by apply (H 0%nat).
  - apply IH. intros i x y Hx Hy. by apply (H (S i)).
Qed.

Lemma chain_lookup {A} (R : A -> A -> Prop) (l : list A) :
  chain R l -> forall i a b, l !! i = Some a -> l !! S i = Some b -> R a b.
Proof.
  induction l as [|x l IH]; intros Hc i a b Ha Hb; [done|].
  destruct Hc as [H1 H2]. destruct i as [|i]; cbn [lookup list_lookup] in *.
  - injection Ha as ->. destruct l as [|y l]; [done|]. cbn in Hb. congruence.
  - by apply (IH H2 i).
Qed.

Lemma chain_app {A} (R : A -> A -> Prop) (l1 l2 : list A) :
  chain R l1 -> chain R l2 ->
  (forall a b, last l1 = Some a -> head l2 = Some b -> R a b) ->
  chain R (l1 ++ l2).
Proof.
  induction l1 as [|x l1 IH]; intros H1 H2 H; [done|].
  destruct H1 as [Hx H1]. cbn [app chain]. split.
  - destruct l1 as [|y l1]; [|done]. cbn [app].
    destruct l2 as [|b l2]; [done|]. by apply H.
  - apply IH; [done..|]. intros a b Ha Hb. apply H; [|done].
    destruct l1; [done|]. done.
Qed.

Lemma row_group_chain tbl o r : chain tie_next (row_group tbl o r).
Proof.
  apply chain_intro. intros i a b. rewrite !row_group_lookup.
  destruct (row_item_ids r !! i) as [ia|]; [|done].
  destruct (row_item_ids r !! S i) as [ib|]; [|done].
  intros [= <-] [= <-]. left. cbn. repeat split; try lia.
  apply Z.ltb_lt. lia.
Qed.

Lemma row_group_head tbl o r e :
  head (row_group tbl o r) = Some e ->
  order e = o /\ tie_group_index e = 1 /\ tie_with_previous e = false.
Proof.
  rewrite head_lookup, row_group_lookup.
  destruct (row_item_ids r !! 0%nat); [|done]. by intros [= <-].
Qed.

Lemma row_group_last tbl o r e :
  last (row_group tbl o r) = Some e -> order e = o /\ tie_last e.
Proof.
  rewrite last_lookup, row_group_lookup, length_row_group.
  destruct (row_item_ids r !! _) as [id|] eqn:E; [|done]. intros [= <-].
  split; [done|]. unfold tie_last.
  cbn [tie_group_index tie_group_size row_entry].
  apply lookup_lt_Some in E. lia.
Qed.

Lemma row_groups_chain tbl rows : forall o,
  let l := concat (row_groups tbl o rows) in
  chain tie_next l /\
  (forall e, head l = Some e ->
     order e = o /\ tie_group_index e = 1 /\ tie_with_previous e = false) /\
  (forall e, last l = Some e -> tie_last e).
Proof.
  induction rows as [|r rows IH]; intros o; cbn [row_groups]; [done|].
  destruct (row_valid r) eqn:Ev; [|apply IH].
  destruct (IH (o + 1)) as (Hc & Hh & Hl). cbn [concat].
  pose proof (row_group_nonempty tbl o r Ev) as Hne.
  split; [|split].
  - apply chain_app; [apply row_group_chain|done|].
    intros a b [Ha Hla]%row_group_last (Hb1 & Hb2 & Hb3)%Hh.
    right. unfold tie_last in Hla. repeat split; try done. lia.
  - intros e. destruct (row_group tbl o r) as [|e0 g] eqn:Eg; [done|].
    cbn [app head]. intros [= <-]. apply (row_group_head tbl o r).
    by rewrite Eg.
  - intros e. destruct (concat (row_groups tbl (o + 1) rows)) as [|x l] eqn:El.
    + rewrite app_nil_r. by intros [_ ?]%row_group_last.
    + rewrite last_app. cbn [last]. 
      destruct (last (x :: l)) as [y|] eqn:Ey.
      * intros [= <-]. by apply Hl.
      * by apply last_None in Ey.
Qed.

Lemma inline_chain tbl keys :
  let l := imap (inline_entry tbl) keys in
  chain tie_next l /\ (forall e, head l = Some e -> tie_first e) /\
  (forall e, last l = Some e -> tie_last e).
Proof.
  cbv zeta. split; [|split].
  - apply chain_intro. intros i a b. rewrite !list_lookup_imap.
    destruct (keys !! i); [|done]. destruct (keys !! S i); [|done].
    intros [= <-] [= <-]. right. cbn. repeat split; lia.
  - intros e. rewrite head_lookup, list_lookup_imap.
    destruct (keys !! 0%nat); [|done]. by intros [= <-].
  - intros e. rewrite last_lookup, list_lookup_imap.
    destruct (keys !! _); [|done]. by intros [= <-].
Qed.

Lemma section_items_cases tbl gt section :
  section_items tbl gt section =
    concat (row_groups tbl 1 (section_rows section)) \/
  section_items tbl gt section =
    imap (inline_entry tbl)
         (dedup_keep_first (map ref_key (finditer REF_RE section))).
Proof.
  unfold section_items. rewrite <- table_items_groups.
  destruct (table_items tbl section) as [|e l] eqn:E; [|by left].
  destruct (String.eqb gt "gems_enchants").
  - right. apply extract_inline_refs_spec.
  - left. done.
Qed.

(** X7. In every slot entry of the result the flat list encodes its tie
    groups consistently.  The first entry has order 1, index 1 and no
    [tie_with_previous]; of two neighbours, either the second is flagged
    [tie_with_previous] and has the order, rank, source and group size of the
    first and the next index, or it is not flagged, has the next order and
    the index 1, and the first was the last of its group (its index is its
    group size); and the last entry is the last of its group. *)
Theorem tie_flags_consistent (markup : string) (tbl : gmap string string)
    (guide_type : string) :
  Forall (fun se =>
    (forall e, head (items se) = Some e -> tie_first e) /\
    (forall i e1 e2, items se !! i = Some e1 -> items se !! S i = Some e2 ->
       tie_next e1 e2) /\
    (forall e, last (items se) = Some e -> tie_last e))
    (extract_by_slot markup tbl guide_type).
Proof.
  apply Forall_forall. intros se Hse.
  apply extract_by_slot_elem in Hse as (i & hd & _ & -> & _).
  destruct (section_items_cases tbl guide_type
              (section_of markup (headers_of markup) i hd)) as [-> | ->].
  - destruct (row_groups_chain tbl
                (section_rows (section_of markup (headers_of markup) i hd)) 1)
      as (Hc & Hh & Hl).
    split; [|split; [by apply chain_lookup|done]].
    intros e He. by apply Hh.
  - destruct (inline_chain tbl
                (dedup_keep_first (map ref_key (finditer REF_RE
                   (section_of markup (headers_of markup) i hd)))))
      as (Hc & Hh & Hl).
    split; [done|]. split; [by apply chain_lookup|done].
Qed.

(** X8. Every entry of the result names one reference: an entry of type
    "item" has [item_id] equal to [ref_id], an [item_name] key and no
    [spell_id]; any other entry has [spell_id] equal to [ref_id] and neither
    [item_id] nor [item_name].  Its order is at least 1 and its index lies
    between 1 and its group size.  In a guide that is not a gems and
    enchants guide every entry is an item. *)
Theorem entry_reference_fields (markup : string) (tbl : gmap string string)
    (guide_type : string) :
  Forall (fun se =>
    Forall (fun e =>
      ref_fields_ok e /\ 1 <= order e /\
      1 <= tie_group_index e <= tie_group_size e /\
      (String.eqb guide_type "gems_enchants" = false -> ref_type e = "item"))
      (items se))
    (extract_by_slot markup tbl guide_type).
Proof.
  apply Forall_forall. intros se Hse.
  apply extract_by_slot_elem in Hse as (i & hd & _ & -> & _).
  set (section := section_of markup (headers_of markup) i hd).
  apply Forall_forall. intros e He.
  unfold section_items in He. rewrite table_items_groups in He.
  assert (Htab : e ∈ concat (row_groups tbl 1 (section_rows section)) ->
    ref_fields_ok e /\ 1 <= order e /\
    1 <= tie_group_index e <= tie_group_size e /\ ref_type e = "item").
  { intros (k & g & Hk & Hg)%elem_of_concat.
    apply row_groups_lookup in Hk as (r & _ & _ & ->).
    apply list_elem_of_lookup in Hg as [j Hj].
    rewrite row_group_lookup in Hj.
    destruct (row_item_ids r !! j) as [id|] eqn:Ej; [|done].
    injection Hj as <-. apply lookup_lt_Some in Ej. unfold ref_fields_ok.
    cbn [order tie_group_index tie_group_size ref_type ref_id item_id
         item_name spell_id row_entry].
    split; [left; by eauto|]. split; [lia|]. split; [lia|done]. }
  destruct (concat (row_groups tbl 1 (section_rows section))) as [|e0 l] eqn:E.
  - destruct (String.eqb guide_type "gems_enchants") eqn:Egt;
      [|by apply elem_of_nil in He].
    rewrite extract_inline_refs_spec in He.
    apply elem_of_lookup_imap in He as (j & key & -> & _).
    unfold ref_fields_ok.
    cbn [order tie_group_index tie_group_size ref_type ref_id item_id
         item_name spell_id inline_entry].
    split; [|split; [lia|split; [lia|done]]].
    destruct (String.eqb (fst key) "item") eqn:Ek.
    + left. apply String.eqb_eq in Ek. by eauto.
    + right. by apply String.eqb_neq in Ek.
  - destruct (Htab He) as (H1 & H2 & H3 & H4). by rewrite H4.
Qed.

End extractor_invariants.

(** ** Escapes, quoting and the id report *)

Section text_properties.
Import Str Re.

(** *** [str.replace] *)

Lemma append_cons c (a b : string) : String c a +:+ b = String c (a +:+ b).
Proof. reflexivity. Qed.

Lemma append_nil_l (b : string) : "" +:+ b = b.
Proof. reflexivity. Qed.

Lemma prefix_cons c old d s :
  String.prefix (String c old) (String d s) =
  Ascii.eqb c d && String.prefix old s.
Proof.
  cbn [String.prefix]. destruct (ascii_dec c d) as [->|Hne].
  - by rewrite Ascii.eqb_refl.
  - by rewrite (proj2 (Ascii.eqb_neq c d)).
Qed.

Lemma prefix_length old s :
  String.prefix old s = true -> (String.length old <= String.length s)%nat.
Proof.
  revert s; induction old as [|c old IH]; intros s; [cbn; lia|].
  destruct s as [|d s]; [done|]. rewrite prefix_cons.
  intros [_ H]%andb_prop. apply IH in H. cbn [String.length]. lia.
Qed.

(** A text without the first character of [old] has no occurrence of
    [old]. *)
Lemma contains_first c old s :
  contains (String c old) s = true -> contains (String c "") s = true.
Proof.
  induction s as [|d s IH]; [done|]. cbn [contains].
  rewrite !prefix_cons. destruct (Ascii.eqb c d); [by destruct s|].
  cbn [andb]. exact IH.
Qed.

Lemma replace_absent old new s :
  contains old s = false -> replace old new s = s.
Proof.
  unfold replace. induction s as [|d s IH]; [done|].
  cbn [contains replace_from].
  destruct (String.prefix old (String d s)); [done|].
  intros H. by rewrite IH.
Qed.

Lemma contains_first_absent c old s :
  contains (String c "") s = false -> contains (String c old) s = false.
Proof.
  intros H. destruct (contains (String c old) s) eqn:E; [|done].
  apply contains_first in E. congruence.
Qed.

(** X10. A text with no backslash has no escape to undo: both chains of
    replacements return it as it is. *)
Theorem unescape_plain (value : string) :
  contains "\" value = false ->
  Parser.unescape_js_string value = value /\ Markup.unescape value = value.
Proof.
  intros H. unfold Parser.unescape_js_string, Markup.unescape, Markup.backslash.
  by rewrite !(replace_absent _ _ value) by (by apply contains_first_absent).
Qed.

Lemma unescape_plain_witness :
  Parser.unescape_js_string "[h2]Head[/h2][item=28963]" =
    "[h2]Head[/h2][item=28963]" /\
  Markup.unescape "[h2]Head[/h2][item=28963]" = "[h2]Head[/h2][item=28963]".
Proof. apply (unescape_plain "[h2]Head[/h2][item=28963]"). reflexivity. Defined.

(** Replacing a single character: each character on its own. *)
Lemma replace_char c new d s :
  replace (String c "") new (String d s) =
  (if Ascii.eqb c d then new else String d "") +:+
  replace (String c "") new s.
Proof.
  unfold replace. cbn [replace_from]. rewrite prefix_cons.
  destruct (Ascii.eqb c d), s; reflexivity.
Qed.

Lemma append_assoc (a b c : string) : (a +:+ b) +:+ c = a +:+ (b +:+ c).
Proof.
  induction a as [|x a IH]; [done|]. by rewrite !append_cons, IH.
Qed.

Lemma replace_char_app c new a b :
  replace (String c "") new (a +:+ b) =
  replace (String c "") new a +:+ replace (String c "") new b.
Proof.
  induction a as [|x a IH]; [done|].
  by rewrite append_cons, !replace_char, IH, append_assoc.
Qed.

(** *** [lua_quote] *)

Lemma lua_body_cons d s :
  let body s :=
    replace (String dq "") (Markup.backslash (String dq ""))
      (replace "\" (Markup.backslash "\") s) in
  body (String d s) =
  (if Ascii.eqb d "\" then "\\"
   else if Ascii.eqb d dq then String "\" (String dq "")
   else String d "") +:+ body s.
Proof.
  cbv beta zeta. rewrite (replace_char "\"), replace_char_app. f_equal.
  rewrite (Ascii.eqb_sym d "\").
  destruct (Ascii.eqb "\" d) eqn:E1; [reflexivity|].
  rewrite (replace_char dq), (Ascii.eqb_sym d dq).
  by destruct (Ascii.eqb dq d).
Qed.

Lemma unquote_body s :
  Parser.unquote_from
    (replace (String dq "") (Markup.backslash (String dq ""))
       (replace "\" (Markup.backslash "\") s) +:+ String dq "") = Some s.
Proof.
  induction s as [|d s IH]; [reflexivity|].
  rewrite (lua_body_cons d s).
  destruct (Ascii.eqb d "\") eqn:E1.
  - apply Ascii.eqb_eq in E1 as ->.
    rewrite !append_cons, append_nil_l. cbn [Parser.unquote_from].
    change (Ascii.eqb "\" dq) with false. rewrite Ascii.eqb_refl.
    cbv iota. by rewrite IH.
  - destruct (Ascii.eqb d dq) eqn:E2.
    + apply Ascii.eqb_eq in E2 as ->.
      rewrite !append_cons, append_nil_l. cbn [Parser.unquote_from].
      change (Ascii.eqb "\" dq) with false. rewrite Ascii.eqb_refl.
      cbv iota. by rewrite IH.
    + rewrite !append_cons, append_nil_l. cbn [Parser.unquote_from].
      rewrite E1, E2. by rewrite IH.
Qed.

(** X9. [lua_quote] loses nothing.  Reading its output as a quoted literal
    (the character after a backslash taken as it is, the first quote that has
    no backslash ending the text) gives back the value, with nothing left
    after the closing quote; so two values with the same literal are the
    same value. *)
Theorem lua_quote_round_trip (value : string) :
  Parser.lua_unquote (Parser.lua_quote value) = Some value /\
  (forall other, Parser.lua_quote other = Parser.lua_quote value ->
                 other = value).
Proof.
  assert (H : forall v, Parser.lua_unquote (Parser.lua_quote v) = Some v).
  { intros v. unfold Parser.lua_quote, Parser.lua_unquote.
    rewrite append_cons, append_nil_l, Ascii.eqb_refl. apply unquote_body. }
  split; [apply H|].
  intros other Heq. pose proof (H other) as Ho. rewrite Heq, H in Ho.
  congruence.
Qed.

(** *** [process_file] *)

Lemma length_replace_from old new s :
  (String.length new <= String.length old)%nat ->
  forall k,
    (String.length (replace_from old new k s) <= String.length s - k)%nat.
Proof.
  intros Hlen. induction s as [|c s IH]; intros k; [cbn; lia|].
  cbn [replace_from]. destruct k as [|k].
  - destruct (String.prefix old (String c s)) eqn:E.
    + apply prefix_length in E. cbn [String.length] in E |- *.
      rewrite length_append.
      pose proof (IH (String.length old - 1)%nat). lia.
    + pose proof (IH 0%nat). cbn [String.length]. lia.
  - pose proof (IH k). cbn [String.length]. lia.
Qed.

Lemma length_substring_le n s :
  (String.length (substring 0 n s) <= n)%nat.
Proof.
  revert s; induction n as [|n IH]; intros [|c s]; cbn; try lia.
  specialize (IH s). lia.
Qed.

Lemma contains_char_app c (a b : string) :
  contains (String c "") (a +:+ b) =
  contains (String c "") a || contains (String c "") b.
Proof.
  induction a as [|x a IH].
  - rewrite append_nil_l. cbn. done.
  - rewrite append_cons. cbn [contains]. rewrite !prefix_cons, IH.
    destruct (Ascii.eqb c x); [|done]. cbn [andb].
    by destruct a, b.
Qed.

Lemma replace_char_gone c new s :
  contains (String c "") new = false ->
  contains (String c "") (replace (String c "") new s) = false.
Proof.
  intros Hnew. induction s as [|d s IH]; [done|].
  rewrite replace_char, contains_char_app, IH, orb_false_r.
  destruct (Ascii.eqb c d) eqn:E; [done|].
  cbn [contains]. rewrite prefix_cons, E. done.
Qed.

Lemma fromkeys_dedup ids : Markup.fromkeys ids = dedup_keep_first ids.
Proof.
  change (Markup.fromkeys ids) with (Parser.extend_new [] ids).
  rewrite extend_new_spec. cbn [app]. by rewrite filter_not_in_nil.
Qed.

(** X11. [process_file] reports no markup exactly when the page has no
    payload or an empty one.  Otherwise each of its three id lists holds the
    ids of the tags of the payload, each once, where it first appears; and
    unless [items_only] is set it gives the length of the payload and a
    preview of at most 500 characters with no newline. *)
Theorem process_file_report (path text : string) (items_only : bool) :
  match Markup.process_file path text items_only with
  | Markup.NoMarkup p =>
      p = path /\
      (Markup.extract_print_html_payload text = None \/
       Markup.extract_print_html_payload text = Some "")
  | Markup.Found p item_ids spell_ids enchant_ids markup =>
      p = path /\
      exists payload,
        Markup.extract_print_html_payload text = Some payload /\
        payload <> "" /\
        item_ids =
          dedup_keep_first (map int (findall Markup.ITEM_TAG_RE payload)) /\
        spell_ids =
          dedup_keep_first (map int (findall Markup.SPELL_TAG_RE payload)) /\
        enchant_ids =
          dedup_keep_first (map int (findall Markup.ENCHANT_TAG_RE payload)) /\
        NoDup item_ids /\ NoDup spell_ids /\ NoDup enchant_ids /\
        match markup with
        | None => items_only = true
        | Some (n, preview) =>
            items_only = false /\ n = String.length payload /\
            (String.length preview <= 500)%nat /\
            contains (String nl "") preview = false
        end
  end.
Proof.
  unfold Markup.process_file.
  destruct (Markup.extract_print_html_payload text) as [[|c rest]|] eqn:E;
    [by auto| |by auto].
  unfold Markup.extract_ids_from_markup. rewrite !fromkeys_dedup.
  split; [done|]. exists (String c rest).
  split; [done|]. split; [done|]. do 3 (split; [done|]).
  do 3 (split; [apply NoDup_dedup|]).
  destruct items_only; [done|]. split; [done|]. split; [done|]. split.
  - unfold replace.
    pose proof (length_replace_from (String nl "") " "
                  (replace_from Markup.crnl (String nl "") 0
                     (slice (String c rest) 0 500))
                  ltac:(cbn; lia) 0%nat) as H1.
    pose proof (length_replace_from Markup.crnl (String nl "")
                  (slice (String c rest) 0 500) ltac:(cbn; lia) 0%nat) as H2.
    pose proof (length_substring_le 500 (String c rest)) as H3.
    unfold slice in *. change (500 - 0)%nat with 500%nat in *. lia.
  - by apply replace_char_gone.
Qed.

End text_properties.

(** ** The lists of the merged dict *)

Section fresh_properties.
Import PyHeap.

Section fresh_lists.
Context (h0 : heap) (prev curr merged : loc) (e_p e_c : gmap Z loc).
Hypothesis Hprev : h0 !! prev = Some (PyDict e_p).
Hypothesis Hcurr : h0 !! curr = Some (PyDict e_c).
Hypothesis Hprev_lists : forall k l, e_p !! k = Some l -> is_Some (list_at h0 l).
Hypothesis Hcurr_lists : forall k l, e_c !! k = Some l -> is_Some (list_at h0 l).
Hypothesis Hmerged : h0 !! merged = None.

Lemma merge_body_fresh k h :
  fresh_inv h0 merged h ->
  wp (merge_body prev curr merged k) h (fun _ h' => fresh_inv h0 merged h').
Proof.
  intros (Hsub & e & Hm & Hval & Hinj). unfold merge_body.
  apply wp_bind, wp_alloc. intros ordered Hord.
  set (h1 := <[ordered := PyList []]> h).
  assert (Hsub1 : h ⊆ h1) by (by apply insert_subseteq).
  apply wp_bind, (wp_dict_get_or_new h0 _ curr e_c);
    [by etrans|done|done|]. intros d1 src1 Hd1 Hsrc1.
  set (h2 := <[d1 := PyList []]> h1) in *.
  assert (Hsub2 : h1 ⊆ h2) by (by apply insert_subseteq).
  apply wp_bind.
  eapply (wp_extend_new _ _ _ []);
    [apply (lookup_weaken h1); [apply lookup_insert_eq|done]
    |by apply list_at_lookup|].
  set (l1 := Parser.extend_new [] _).
  set (h3 := <[ordered := PyList l1]> h2).
  assert (Hsub3 : h ⊆ h3).
  { apply insert_subseteq_r; [done|by etrans]. }
  apply wp_bind, (wp_dict_get_or_new h0 _ prev e_p);
    [by etrans|done|done|]. intros d2 src2 Hd2 Hsrc2.
  set (h4 := <[d2 := PyList []]> h3) in *.
  assert (Hsub4 : h3 ⊆ h4) by (by apply insert_subseteq).
  apply wp_bind.
  eapply (wp_extend_new _ _ _ l1);
    [apply (lookup_weaken h3); [apply lookup_insert_eq|done]
    |by apply list_at_lookup|].
  set (l2 := Parser.extend_new l1 _).
  set (h5 := <[ordered := PyList l2]> h4).
  assert (Hsub5 : h ⊆ h5).
  { apply insert_subseteq_r; [done|by etrans]. }
  assert (Hne : ordered <> merged) by congruence.
  assert (Hord0 : h0 !! ordered = None).
  { destruct (h0 !! ordered) eqn:E; [|done].
    by rewrite (lookup_weaken _ _ _ _ E Hsub) in Hord. }
  apply wp_bind, (wp_read_list _ l2); [apply lookup_insert_eq|].
  destruct l2 as [|x xs] eqn:El2.
  - apply wp_ret. split; [by transitivity h|]. exists e.
    split; [by apply (lookup_weaken h)|]. split; [|done].
    intros k' l Hl. destruct (Hval _ _ Hl) as (? & [ys Hys] & ?).
    split; [done|]. split; [|done]. exists ys. by apply (list_at_weaken h).
  - apply (wp_dict_setitem _ _ _ e); [by apply (lookup_weaken h)|].
    set (h6 := <[merged := _]> h5).
    assert (Hat : forall l ys, l <> merged -> list_at h l = Some ys ->
              list_at h6 l = Some ys).
    { intros l ys Hl Hys. unfold list_at, h6. rewrite lookup_insert_ne by done.
      by apply (list_at_weaken h). }
    assert (Hato : list_at h6 ordered = Some (x :: xs)).
    { unfold list_at, h6, h5. rewrite lookup_insert_ne by done.
      by rewrite lookup_insert_eq. }
    assert (Hnew : forall k' l, e !! k' = Some l -> l <> ordered).
    { intros k' l Hl ->. destruct (Hval _ _ Hl) as (_ & [ys Hys] & _).
      apply list_at_lookup in Hys. congruence. }
    split; [apply insert_subseteq_r; [done|by transitivity h]|].
    exists (<[k := ordered]> e). split; [apply lookup_insert_eq|]. split.
    + intros k' l Hl. destruct (decide (k' = k)) as [->|Hk].
      * rewrite lookup_insert_eq in Hl. injection Hl as <-. eauto.
      * rewrite lookup_insert_ne in Hl by done.
        destruct (Hval _ _ Hl) as (? & [ys Hys] & ?). split; [done|].
        split; [|done]. exists ys. by apply Hat.
    + intros k1 k2 l H1 H2.
      destruct (decide (k1 = k)) as [->|Hk1], (decide (k2 = k)) as [->|Hk2];
        try done.
      * rewrite lookup_insert_eq in H1. rewrite lookup_insert_ne in H2 by done.
        injection H1 as <-. by apply Hnew in H2.
      * rewrite lookup_insert_eq in H2. rewrite lookup_insert_ne in H1 by done.
        injection H2 as <-. by apply Hnew in H1.
      * rewrite lookup_insert_ne in H1, H2 by done. by apply (Hinj _ _ l).
Qed.
End fresh_lists.

(** X12. The lists of the dict that [merge_slot_maps] returns are objects of
    their own: every list it refers to was made during the call (none is a
    list of an input, or any object that existed before), and no two slots
    refer to the same list. *)
Theorem merge_slot_maps_fresh_lists (h : heap) (prev curr : loc) :
  is_slot_map h prev = true -> is_slot_map h curr = true ->
  exists merged h' e,
    PyHeap.merge_slot_maps prev curr h = Some (merged, h') /\
    h' !! merged = Some (PyDict e) /\
    (forall k l, e !! k = Some l ->
       h !! l = None /\ l <> merged /\ is_Some (list_at h' l)) /\
    (forall k1 k2 l, e !! k1 = Some l -> e !! k2 = Some l -> k1 = k2).
Proof.
  intros (e_p & Hp & Hpl)%is_slot_map_inv (e_c & Hc & Hcl)%is_slot_map_inv.
  assert (Hwp : wp (PyHeap.merge_slot_maps prev curr) h (fun merged h' =>
    fresh_inv h merged h')).
  { unfold PyHeap.merge_slot_maps.
    apply wp_bind, wp_alloc. intros merged Hfresh.
    assert (Hsub : h ⊆ <[merged := PyDict ∅]> h) by (by apply insert_subseteq).
    apply wp_bind, (wp_read_dict _ e_p); [by apply (lookup_weaken h)|].
    apply wp_bind, (wp_read_dict _ e_c); [by apply (lookup_weaken h)|].
    apply wp_bind.
    apply (wp_for_each (fun _ => fresh_inv h merged)).
    - split; [done|]. exists ∅. split; [apply lookup_insert_eq|].
      split; by intros *; rewrite lookup_empty.
    - intros done_ k h' Hinv. by apply (merge_body_fresh h prev curr _ e_p e_c).
    - intros h' Hinv. by apply wp_ret. }
  unfold wp in Hwp.
  destruct (PyHeap.merge_slot_maps prev curr h) as [[merged h']|]; [|done].
  destruct Hwp as (Hsub & e & Hm & Hval & Hinj).
  exists merged, h', e. split; [done|]. split; [done|]. split; [|done].
  intros k l Hl. destruct (Hval _ _ Hl) as (? & ? & ?). done.
Qed.

Lemma merge_slot_maps_fresh_lists_witness :
  exists merged h' e,
    PyHeap.merge_slot_maps 1 2 Examples.example_heap = Some (merged, h') /\
    h' !! merged = Some (PyDict e) /\
    (forall k l, e !! k = Some l ->
       Examples.example_heap !! l = None /\ l <> merged /\
       is_Some (list_at h' l)) /\
    (forall k1 k2 l, e !! k1 = Some l -> e !! k2 = Some l -> k1 = k2).
Proof.
  apply (merge_slot_maps_fresh_lists Examples.example_heap 1 2);
    vm_compute; reflexivity.
Defined.

End fresh_properties.

(** ** The phases of a spec *)

Section spec_properties.
Import Str Re Parser.

Lemma by_category_lookup (pages : list (string * string)) category :
  foldl (fun (d : gmap string string) item => <[fst item := snd item]> d)
        ∅ pages !! category = last_page category pages.
Proof.
  unfold last_page.
  induction pages as [|[c p] pages IH] using rev_ind; [done|].
  rewrite foldl_app, filter_app, filter_cons, filter_nil. cbn [foldl fst snd].
  destruct (decide (c = category)) as [->|Hne].
  - by rewrite lookup_insert_eq, last_snoc.
  - rewrite lookup_insert_ne by done. by rewrite app_nil_r.
Qed.

Lemma phase_path_step_lookup by_category (d : gmap Z string) ph category
    phase :
  phase_path_step by_category d (ph, category) !! phase =
  if decide (phase = ph) then
    match (if negb (truthy (by_category !! category)) && (ph =? 1)
           then by_category !! "phase_pre_raid"
           else by_category !! category) with
    | Some (String c rest) => Some (String c rest)
    | _ => d !! phase
    end
  else d !! phase.
Proof.
  unfold phase_path_step.
  destruct (if _ && _ then _ else _) as [[|c rest]|];
    destruct (decide (phase = ph)) as [->|Hne]; try done.
  - by rewrite lookup_insert_eq.
  - by rewrite lookup_insert_ne.
Qed.

(** X13. [build_spec_phase_paths] keeps, for each category, the path of the
    last page of the spec that has it, and uses it only when it is not
    empty.  The phases 2 to 5 get the path of their own category or none;
    the phase 1 gets the path of "phase_1" and, only when there is none, the
    path of "phase_pre_raid"; no other phase number gets a path. *)
Theorem build_spec_phase_paths_lookup (pages : list (string * string))
    (phase : Z) :
  build_spec_phase_paths pages !! phase =
  match phase with
  | 1 => match usable_page "phase_1" pages with
         | Some p => Some p
         | None => usable_page "phase_pre_raid" pages
         end
  | 2 => usable_page "phase_2" pages
  | 3 => usable_page "phase_3" pages
  | 4 => usable_page "phase_4" pages
  | 5 => usable_page "phase_5" pages
  | _ => None
  end.
Proof.
  unfold build_spec_phase_paths, usable_page. cbv zeta.
  set (by_category := foldl _ ∅ pages).
  rewrite <- !(by_category_lookup pages). fold by_category.
  unfold PHASE_CATEGORY. cbn [foldl].
  rewrite !phase_path_step_lookup, lookup_empty. cbn [truthy negb andb].
  change (1 =? 1) with true. change (2 =? 1) with false.
  change (3 =? 1) with false. change (4 =? 1) with false.
  change (5 =? 1) with false. rewrite !andb_false_r, !andb_true_r.
  repeat (destruct (decide (phase = _)) as [->|?];
          [repeat (rewrite decide_False by done)|]).
  - done.
  - done.
  - done.
  - done.
  - unfold truthy.
    by destruct (by_category !! "phase_1") as [[|c1 r1]|];
      destruct (by_category !! "phase_pre_raid") as [[|c0 r0]|].
  - by destruct phase as [|[[[]|[]|]|[[]|[]|]|]|].
Qed.

(** *** The phases of one spec *)

Lemma slots_inv_empty : slots_inv ∅.
Proof.
  split; [apply map_Forall_empty|]. split; [|done].
  intros s. by rewrite dom_empty, elem_of_empty.
Qed.

Lemma slots_inv_merge A B :
  slots_inv A -> slots_inv B -> slots_inv (merge_slot_maps A B).
Proof.
  intros (_ & HdA & HA11 & HA13) (_ & HdB & HB11 & HB13).
  split; [apply well_ranked_merge|]. split; [|split].
  - intros s Hs. apply elem_of_dom in Hs as [l Hl].
    destruct (A !! s) as [la|] eqn:Ea; [apply HdA, elem_of_dom; eauto|].
    destruct (B !! s) as [lb|] eqn:Eb; [apply HdB, elem_of_dom; eauto|].
    rewrite merge_slot_maps_lookup, merge_slot_dedup in Hl.
    by rewrite !dict_get_nil_absent in Hl.
  - rewrite !merge_slot_maps_lookup, !merge_slot_dedup.
    unfold dict_get. by rewrite HA11, HB11.
  - rewrite !merge_slot_maps_lookup, !merge_slot_dedup.
    unfold dict_get. by rewrite HA13, HB13.
Qed.

Lemma run_phases_inv ms : forall phase prev i,
  slots_inv prev -> Forall slots_inv ms ->
  slots_inv (default ∅ (mjoin (run_phases phase prev ms !! i))).
Proof.
  induction ms as [|m ms IH]; intros phase prev i Hprev Hms;
    [apply slots_inv_empty|].
  apply Forall_cons in Hms as [Hm Hms].
  cbn [run_phases]. unfold phase_step.
  set (sm := if 1 <? phase then merge_slot_maps prev m else m).
  assert (Hsm : slots_inv sm).
  { unfold sm. destruct (1 <? phase); [by apply slots_inv_merge|done]. }
  case_bool_decide; destruct i as [|i]; cbn [lookup list_lookup];
    try (by apply IH); [apply slots_inv_empty|done].
Qed.

Section spec_loop.
Variable html_unescape : string -> string.
Variable read_text : string -> option string.

Lemma phase_guide_inv paths phase :
  slots_inv (phase_guide html_unescape read_text paths phase).
Proof.
  unfold phase_guide. destruct (paths !! phase) as [p|];
    [|apply slots_inv_empty].
  destruct (read_text p) as [html|]; [|apply slots_inv_empty].
  unfold parse_guide_slots.
  destruct (extract_guide_markup html) as [[|c rest]|];
    try apply parse_sections_inv;
    destruct (extract_noscript html) as [[|c' rest']|];
    try apply parse_sections_inv; apply slots_inv_empty.
Qed.

Lemma spec_guides_inv pages :
  Forall slots_inv (spec_guides html_unescape read_text pages).
Proof.
  unfold spec_guides. apply Forall_fmap, Forall_forall. intros phase _.
  apply phase_guide_inv.
Qed.

Lemma spec_phase_slots_inv pages k :
  slots_inv (spec_phase_slots html_unescape read_text pages k).
Proof.
  unfold spec_phase_slots, phase_slots, main_phases.
  apply run_phases_inv; [apply slots_inv_empty|apply spec_guides_inv].
Qed.
End spec_loop.

(** X14. What [main] stores for a spec, from its pages and the files on
    disk.  At every phase the slots are well formed: every list has an item
    and no duplicate, every key is one of the slot ids 1-3 and 5-18, and the
    two ring slots hold the same list, as do the two trinket slots.  A phase
    after the first for which nothing is read (no usable page, no file, or a
    page without ranked items) has the slots of the phase before. *)
Theorem spec_phases_carry_over (html_unescape : string -> string)
    (read_text : string -> option string) (pages : list (string * string))
    (k : nat) :
  let slots := spec_phase_slots html_unescape read_text pages in
  slots_inv (slots k) /\
  ((1 <= k <= 4)%nat ->
   phase_guide html_unescape read_text (build_spec_phase_paths pages)
     (Z.of_nat (S k)) = ∅ ->
   slots (S k) = slots k).
Proof.
  cbv zeta. split; [apply spec_phase_slots_inv|].
  intros Hk Hempty. destruct k as [|k]; [lia|].
  unfold spec_phase_slots.
  set (parsed := spec_guides html_unescape read_text pages).
  assert (Hlen : length parsed = 5%nat) by done.
  destruct (lookup_lt_is_Some_2 parsed k) as [m Hm]; [lia|].
  assert (Hnext : parsed !! S k = Some ∅).
  { unfold parsed, spec_guides. rewrite list_lookup_fmap.
    assert (Hph : [1; 2; 3; 4; 5] !! S k = Some (Z.of_nat (S (S k)))).
    { destruct k as [|[|[|[|k]]]]; try done. lia. }
    rewrite Hph.
    change (Some (phase_guide html_unescape read_text
                    (build_spec_phase_paths pages) (Z.of_nat (S (S k)))) =
            Some ∅).
    by rewrite Hempty. }
  rewrite (phase_slots_merge _ _ m ∅) by done.
  apply merge_slot_maps_empty_r.
  apply (spec_phase_slots_inv html_unescape read_text pages (S k)).
Qed.

Lemma spec_phases_carry_over_witness :
  let slots :=
    spec_phase_slots (fun s => s) Examples.example_files
                     Examples.example_pages in
  slots_inv (slots 2%nat) /\ slots 3%nat = slots 2%nat.
Proof.
  destruct (spec_phases_carry_over (fun s => s) Examples.example_files
              Examples.example_pages 2) as [Hinv Hcarry].
  split; [exact Hinv|]. apply Hcarry; [lia|]. vm_compute. reflexivity.
Defined.

Example spec_phases_run :
  map (spec_phase_slots (fun s => s) Examples.example_files
                        Examples.example_pages) [1; 2; 3; 4; 5]%nat =
  [ {[1 := [1]; 11 := [7; 8]; 12 := [7; 8]]};
    {[1 := [1]; 2 := [9]; 11 := [7; 8]; 12 := [7; 8]]};
    {[1 := [1]; 2 := [9]; 11 := [7; 8]; 12 := [7; 8]]};
    {[1 := [1]; 2 := [9]; 11 := [7; 8]; 12 := [7; 8]]};
    {[1 := [1]; 2 := [9]; 11 := [7; 8]; 12 := [7; 8]]} ] /\
  build_spec_phase_paths Examples.example_pages =
    {[1 := "druid/pre.html"; 2 := "druid/p2b.html"]}.
Proof. vm_compute. split; reflexivity. Qed.

End spec_properties.

(** ** The phase maps of the checker *)

Section check_properties.
Import Str Re Parser Check.

(** *** Counting the slots and the ranked items *)

Lemma sum_list_perm (l1 l2 : list nat) : l1 ≡ₚ l2 -> sum_list l1 = sum_list l2.
Proof. induction 1; cbn; lia. Qed.

Lemma ranked_total_insert (m : slot_map) s l :
  m !! s = None ->
  sum_list (length <$> (map_to_list (<[s := l]> m)).*2) =
  (length l + sum_list (length <$> (map_to_list m).*2))%nat.
Proof.
  intros Hs. rewrite (sum_list_perm _ (length <$> ((s, l) :: map_to_list m).*2)).
  - done.
  - by rewrite (map_to_list_insert m s l Hs).
Qed.

Lemma ranked_total_le (p : slot_map) : forall c : slot_map,
  (forall s l, p !! s = Some l ->
     exists l', c !! s = Some l' /\ (length l <= length l')%nat) ->
  (sum_list (length <$> (map_to_list p).*2) <=
   sum_list (length <$> (map_to_list c).*2))%nat.
Proof.
  induction p as [|s l p Hs IH] using map_ind; intros c Hc.
  - rewrite map_to_list_empty. cbn. lia.
  - destruct (Hc s l) as (l' & Hl' & Hlen); [apply lookup_insert_eq|].
    rewrite <- (insert_delete_id c s l') by done.
    rewrite !ranked_total_insert by (done || apply lookup_delete_eq).
    specialize (IH (delete s c)).
    assert (sum_list (length <$> (map_to_list p).*2) <=
            sum_list (length <$> (map_to_list (delete s c)).*2))%nat; [|lia].
    apply IH. intros k x Hk.
    assert (k <> s) by (intros ->; congruence).
    destruct (Hc k x) as (x' & Hx' & ?); [by rewrite lookup_insert_ne|].
    exists x'. by rewrite lookup_delete_ne.
Qed.

Lemma length_dedup_app_ge (a b : list Z) :
  NoDup b -> (length b <= length (dedup_keep_first (a ++ b)))%nat.
Proof.
  intros Hb. apply submseteq_length, NoDup_submseteq; [done|].
  intros x Hx. rewrite elem_of_dedup, elem_of_app. by right.
Qed.

Lemma merge_grows (p B : slot_map) :
  well_ranked p ->
  let c := merge_slot_maps p B in
  (size p <= size c)%nat /\
  (sum_list (length <$> (map_to_list p).*2) <=
   sum_list (length <$> (map_to_list c).*2))%nat.
Proof.
  intros Hp c.
  assert (Hc : forall s l, p !! s = Some l ->
            exists l', c !! s = Some l' /\ (length l <= length l')%nat).
  { intros s l Hl. destruct (Hp s l Hl) as [Hne Hnd].
    exists (dedup_keep_first (dict_get B s ++ l)).
    unfold c. rewrite merge_slot_maps_lookup, merge_slot_dedup.
    unfold dict_get at 2. rewrite Hl. cbn [default].
    pose proof (length_dedup_app_ge (dict_get B s) l Hnd) as Hlen.
    split; [|done].
    destruct (dedup_keep_first _) eqn:E; [|done].
    destruct l; [done|]. cbn in Hlen. lia. }
  split; [|by apply ranked_total_le].
  rewrite <- !size_dom. apply subseteq_size.
  intros s [l Hl]%elem_of_dom. apply elem_of_dom.
  destruct (Hc s l Hl) as (l' & -> & _). done.
Qed.

Section check_loop.
Variable html_unescape : string -> string.
Variable read_text : string -> option string.
Variable phase_paths : gmap Z string.

Lemma check_phase_step_inv n st :
  check_inv (phase_guide html_unescape read_text phase_paths) n st ->
  check_inv (phase_guide html_unescape read_text phase_paths) (S n)
    (check_phase_step html_unescape read_text phase_paths st
       (Z.of_nat (S n))).
Proof.
  destruct st as [pm prev]. intros (Ha & Hb & Hc & Hd).
  cbn [fst snd] in *. unfold check_phase_step.
  pose proof (phase_guide_inv html_unescape read_text phase_paths
                (Z.of_nat (S n))) as Hparsed.
  assert (Hparse : forall rel html_text,
    phase_paths !! Z.of_nat (S n) = Some rel ->
    read_text rel = Some html_text ->
    parse_guide_slots html_unescape html_text =
    phase_guide html_unescape read_text phase_paths (Z.of_nat (S n))).
  { intros rel html_text Hrel Hread. unfold phase_guide.
    by rewrite Hrel, Hread. }
  assert (Hkeep : check_inv
            (phase_guide html_unescape read_text phase_paths) (S n) (pm, prev)).
  { split; [|split; [done|split]]; cbn [fst snd].
    - intros k m Hk. destruct (Ha k m Hk). split; [lia|done].
    - intros m Hm. destruct (Ha _ _ Hm). lia.
    - done. }
  destruct (phase_paths !! Z.of_nat (S n)) as [rel|] eqn:Erel; [|done].
  destruct (read_text rel) as [html_text|] eqn:Eread; [|done].
  rewrite (Hparse rel html_text) by done.
  set (parsed := phase_guide html_unescape read_text phase_paths) in *.
  set (sm := if 1 <? Z.of_nat (S n)
             then merge_slot_maps prev (parsed (Z.of_nat (S n)))
             else parsed (Z.of_nat (S n))).
  assert (Hsm : slots_inv sm).
  { unfold sm. destruct (1 <? _); [by apply slots_inv_merge|done]. }
  split; [|split; [done|split]]; cbn [fst snd].
  - intros k m. destruct (decide (k = Z.of_nat (S n))) as [->|Hk].
    + rewrite lookup_insert_eq. intros [= <-]. split; [lia|done].
    + rewrite lookup_insert_ne by done. intros Hm.
      destruct (Ha k m Hm). split; [lia|done].
  - intros m. rewrite lookup_insert_eq. by intros [= <-].
  - intros k p c Hk2.
    destruct (decide (k = Z.of_nat (S n))) as [->|Hk].
    + rewrite lookup_insert_eq, lookup_insert_ne by lia.
      replace (Z.of_nat (S n) - 1) with (Z.of_nat n) by lia.
      intros Hp [= <-]. unfold sm.
      rewrite (proj2 (Z.ltb_lt 1 (Z.of_nat (S n)))) by lia.
      by rewrite (Hc p Hp).
    + rewrite (lookup_insert_ne _ _ k) by done. intros Hp Hcur.
      destruct (Ha k c Hcur).
      rewrite lookup_insert_ne in Hp by lia. by apply Hd.
Qed.

Lemma check_phases_inv :
  check_inv (phase_guide html_unescape read_text phase_paths) 5
    (foldl (check_phase_step html_unescape read_text phase_paths)
           (∅, ∅) [1; 2; 3; 4; 5]).
Proof.
  cbn [foldl].
  apply (check_phase_step_inv 4), (check_phase_step_inv 3),
    (check_phase_step_inv 2), (check_phase_step_inv 1),
    (check_phase_step_inv 0).
  split; [|split; [apply slots_inv_empty|split]]; cbn [fst snd];
    intros *; by rewrite ?lookup_empty.
Qed.
End check_loop.

(** X15. In [check_spec] the maps of two consecutive phases never shrink.
    When the second loop reaches its tests at [phase] (both [phase - 1] and
    [phase] have a map that is not empty), the later map is the merge of the
    guide of [phase] over the earlier map, so it has at least as many slots
    and at least as many ranked items: both differences that the loop tests
    are at most zero.  For a threshold that is not negative the finding
    "slot_drop_between_phases" is therefore never made (nor, the quotient of
    the second difference being at most zero, the finding
    "ranked_item_drop_between_phases"). *)
Theorem check_spec_no_drop (html_unescape : string -> string)
    (read_text : string -> option string) (pages : list (string * string))
    (phase slot_drop rank_drop : Z) :
  let phase_maps := check_phase_maps html_unescape read_text pages in
  2 <= phase ->
  phase_drops phase_maps phase = Some (slot_drop, rank_drop) ->
  slot_drop <= 0 /\ rank_drop <= 0 /\
  (forall max_slot_drop, 0 <= max_slot_drop ->
     slot_drop_found max_slot_drop phase_maps phase = false) /\
  exists prev,
    phase_maps !! (phase - 1) = Some prev /\
    phase_maps !! phase =
      Some (merge_slot_maps prev
              (phase_guide html_unescape read_text
                 (build_spec_phase_paths pages) phase)).
Proof.
  cbv zeta. unfold check_phase_maps.
  pose proof (check_phases_inv html_unescape read_text
                (build_spec_phase_paths pages)) as (Ha & _ & _ & Hd).
  set (pm := fst _) in *. intros Hph Hdrops.
  assert (Hprev : exists prev,
    pm !! (phase - 1) = Some prev /\
    pm !! phase =
      Some (merge_slot_maps prev
              (phase_guide html_unescape read_text
                 (build_spec_phase_paths pages) phase))).
  { unfold phase_drops in Hdrops. cbv zeta in Hdrops.
    destruct (bool_decide (default ∅ (pm !! (phase - 1)) = ∅)) eqn:E1;
      [done|].
    destruct (bool_decide (default ∅ (pm !! phase) = ∅)) eqn:E2; [done|].
    apply bool_decide_eq_false in E1, E2.
    destruct (pm !! (phase - 1)) as [prev|] eqn:Ep; [|done].
    destruct (pm !! phase) as [curr|] eqn:Ec; [|done].
    exists prev. split; [done|]. f_equal. by apply Hd. }
  destruct Hprev as (prev & Ep & Ec).
  assert (Hle : slot_drop <= 0 /\ rank_drop <= 0).
  { unfold phase_drops in Hdrops. cbv zeta in Hdrops. rewrite Ep, Ec in Hdrops.
    cbn [default from_option id] in Hdrops.
    destruct (_ || _); [done|].
    destruct (Ha _ _ Ep) as [_ [Hwr _]].
    destruct (merge_grows prev
                (phase_guide html_unescape read_text
                   (build_spec_phase_paths pages) phase) Hwr) as [H1 H2].
    unfold summarize_phase in Hdrops. injection Hdrops as <- <-. lia. }
  split; [apply Hle|]. split; [apply Hle|]. split; [|by exists prev].
  intros msd Hmsd. unfold slot_drop_found. rewrite Hdrops.
  apply Z.ltb_ge. lia.
Qed.

Lemma check_spec_no_drop_witness :
  let phase_maps :=
    check_phase_maps (fun s => s) Examples.example_files
                     Examples.example_pages in
  -1 <= 0 /\ -1 <= 0 /\
  (forall max_slot_drop, 0 <= max_slot_drop ->
     slot_drop_found max_slot_drop phase_maps 2 = false) /\
  exists prev,
    phase_maps !! (2 - 1) = Some prev /\
    phase_maps !! 2 =
      Some (merge_slot_maps prev
              (phase_guide (fun s => s) Examples.example_files
                 (build_spec_phase_paths Examples.example_pages) 2)).
Proof.
  apply (check_spec_no_drop (fun s => s) Examples.example_files
           Examples.example_pages 2 (-1) (-1)); [lia|].
  vm_compute. reflexivity.
Defined.

End check_properties.

(** ** The ranked list of a section *)

Section ranked_properties.
Import Str Re Parser.

Lemma foldl_same {A B} (f g : A -> B -> A) (l : list B) :
  (forall a x, f a x = g a x) -> forall a, foldl f a l = foldl g a l.
Proof.
  intros Hfg. induction l as [|x l IH]; intros a; cbn [foldl]; [done|].
  by rewrite Hfg, IH.
Qed.

Lemma extend_new_nil l : extend_new [] l = dedup_keep_first l.
Proof. rewrite extend_new_spec. cbn [app]. by rewrite filter_not_in_nil. Qed.

Lemma extend_new_app acc l1 l2 :
  extend_new (extend_new acc l1) l2 = extend_new acc (l1 ++ l2).
Proof. unfold extend_new. by rewrite foldl_app. Qed.

Lemma foldl_extend_new {B} (f : B -> list Z) (l : list B) : forall acc,
  foldl (fun acc x => extend_new acc (f x)) acc l =
  extend_new acc (concat (map f l)).
Proof.
  induction l as [|x l IH]; intros acc; cbn [foldl map concat]; [done|].
  by rewrite IH, extend_new_app.
Qed.

Lemma extend_new_dedup acc l :
  extend_new acc (dedup_keep_first l) = extend_new acc l.
Proof.
  rewrite !extend_new_spec. f_equal.
  rewrite <- dedup_filter. apply dedup_id, NoDup_dedup.
Qed.

Lemma parse_ranked_items_from_table_spec table_html :
  parse_ranked_items_from_table table_html =
  dedup_keep_first (table_row_ids table_html).
Proof.
  unfold parse_ranked_items_from_table, table_row_ids. cbv zeta.
  rewrite <- extend_new_nil, <- foldl_extend_new.
  apply foldl_same. intros acc row. unfold ranked_row_step, ranked_row_ids.
  cbv zeta. by destruct (_ <? _)%nat.
Qed.

Lemma markup_table_step_spec ranked table_inner :
  markup_table_step ranked table_inner =
  extend_new ranked (markup_table_ids table_inner).
Proof.
  unfold markup_table_step, markup_table_ids. cbv zeta.
  rewrite parse_ranked_items_from_table_spec.
  destruct (dedup_keep_first _) as [|x xs]; [|done].
  by rewrite extend_new_app.
Qed.

(** X16. The ranked list of a section in closed form.  A table gives the
    item ids of the second cells of its rows that have two cells; a markup
    table whose rows give none gives every [item] tag it has.  The list of
    the section is the ids of its tables in document order, each id where it
    first appears; when that is empty it is the ids of all item links and
    tags of the section text, each where it first appears. *)
Theorem ranked_of_section_spec (is_markup : bool) (section_html : string) :
  let from_tables :=
    dedup_keep_first
      (if is_markup
       then concat (map markup_table_ids (findall TABLE_RE section_html))
       else concat (map table_row_ids
                        (findall0 HTML_TABLE_RE section_html))) in
  ranked_of_section is_markup section_html =
    match from_tables with
    | [] =>
        dedup_keep_first
          (map int (findall_or LINK_ITEM_RE ITEM_WS_RE section_html))
    | ranked => ranked
    end /\
  forall table_html,
    parse_ranked_items_from_table table_html =
    dedup_keep_first (table_row_ids table_html).
Proof.
  cbv zeta. split; [|apply parse_ranked_items_from_table_spec].
  unfold ranked_of_section, parse_linked_item_ids. cbv zeta.
  rewrite extend_new_nil.
  destruct is_markup.
  - rewrite (foldl_same _ (fun acc x => extend_new acc (markup_table_ids x)))
      by (intros; apply markup_table_step_spec).
    by rewrite foldl_extend_new, extend_new_nil.
  - unfold html_table_step.
    rewrite (foldl_same _ (fun acc x => extend_new acc (table_row_ids x))).
    + by rewrite foldl_extend_new, extend_new_nil.
    + intros acc x. rewrite parse_ranked_items_from_table_spec.
      apply extend_new_dedup.
Qed.

End ranked_properties.

(** ** One locator against the other *)

Section locator_relation.
Import Str Re.

(** *** One locator against the other *)

Lemma matches_rest r s rest :
  matches r s rest -> eos_free r = true -> forall rest', matches r s rest'.
Proof.
  induction 1 as [rest|p c rest Hp|r1 r2 s1 s2 rest _ IH1 _ IH2
                 |r1 r2 s rest _ IH|r1 r2 s rest _ IH
                 |r rest|r s1 s2 rest _ IH1 _ IH2
                 |r rest|r s1 s2 rest _ IH1 _ IH2
                 |n r s rest _ IH|rest Hend];
    cbn [eos_free]; intros Hfree rest'.
  - constructor.
  - by constructor.
  - apply andb_prop in Hfree as [H1 H2]. constructor; auto.
  - apply andb_prop in Hfree as [H1 H2]. apply matches_alt_l; auto.
  - apply andb_prop in Hfree as [H1 H2]. apply matches_alt_r; auto.
  - constructor.
  - apply matches_star_cons; auto.
  - constructor.
  - apply matches_lazy_cons; auto.
  - constructor; auto.
  - done.
Qed.

Lemma matches_cat_inv r1 r2 s rest :
  matches (Cat r1 r2) s rest ->
  exists s1 s2, s = s1 +:+ s2 /\ matches r1 s1 (s2 +:+ rest) /\
                matches r2 s2 rest.
Proof. inversion 1; subst; eauto. Qed.

Lemma matches_eps_inv s rest : matches Eps s rest -> s = "".
Proof. by inversion 1. Qed.

Lemma matches_grp_inv n r s rest : matches (Grp n r) s rest -> matches r s rest.
Proof. by inversion 1. Qed.

Lemma matches_star_map r r' s rest :
  (forall s rest, matches r s rest -> forall rest', matches r' s rest') ->
  matches (Star r) s rest -> forall rest', matches (Star r') s rest'.
Proof.
  intros Hr H. remember (Star r) as sr eqn:E.
  induction H as [| | | | |r0 rest|r0 s1 s2 rest H1 _ H2 IH2| | | |];
    try discriminate; injection E as ->; intros rest'.
  - constructor.
  - apply matches_star_cons; [by eapply Hr|by apply IH2].
Qed.

Lemma js_char_either s rest :
  matches Markup.js_char s rest ->
  forall rest',
    matches (Alt (Cat (chr "\") any)
                 (Chr (fun c => negb (Ascii.eqb c dq || Ascii.eqb c "\"))))
            s rest'.
Proof.
  unfold Markup.js_char. inversion 1 as [| | |? ? ? ? Hl|? ? ? ? Hr| | | | | |];
    subst; intros rest'.
  - apply matches_alt_r. by apply (matches_rest _ _ rest).
  - apply matches_alt_l. by apply (matches_rest _ _ rest).
Qed.

Lemma guide_markup_occurs html_text :
  occurs Parser.GUIDE_MARKUP_RE html_text ->
  occurs Items.PRINT_HTML_RE html_text.
Proof.
  intros (pre & mid & post & -> & Hm).
  unfold Parser.GUIDE_MARKUP_RE in Hm. cbn [Seq] in Hm.
  apply matches_cat_inv in Hm as (a1 & t1 & -> & H1 & Hm).
  apply matches_cat_inv in Hm as (a2 & t2 & -> & H2 & Hm).
  apply matches_cat_inv in Hm as (a3 & t3 & -> & H3 & Hm).
  apply matches_cat_inv in Hm as (a4 & t4 & -> & H4 & Hm).
  apply matches_cat_inv in Hm as (a5 & t5 & -> & H5 & Hm).
  apply matches_cat_inv in Hm as (a6 & t6 & -> & H6 & Hm).
  apply matches_cat_inv in Hm as (a7 & t7 & -> & H7 & _).
  apply matches_grp_inv in H4.
  exists pre, (a1 +:+ a2 +:+ (a3 +:+ a4 +:+ a5 +:+ "") +:+ a6 +:+ a7 +:+ ""),
    (t7 +:+ post).
  split.
  { assert (Hnil : forall s : string, "" +:+ s = s) by done.
    by rewrite !app_assoc_str, !Hnil. }
  unfold Items.PRINT_HTML_RE. cbn [Seq].
  constructor; [by apply (matches_rest _ _ _ H1)|].
  constructor; [by apply (matches_rest _ _ _ H2)|].
  constructor.
  { constructor. constructor; [by apply (matches_rest _ _ _ H3)|].
    constructor; [|constructor; [by apply (matches_rest _ _ _ H5)|constructor]].
    eapply matches_star_map; [|exact H4]. apply js_char_either. }
  constructor; [by apply (matches_rest _ _ _ H6)|].
  constructor; [|constructor].
  apply matches_alt_l. by apply (matches_rest _ _ _ H7).
Qed.

(** X17. A page in which the numeric parser finds its guide markup is a page
    in which the item extractor finds a [printHtml] call too: the extractor
    does not raise its "Could not find" error there, and what it returns is
    decided by [json.loads] on the literal of the first call it finds. *)
Theorem guide_markup_found_by_extractor (json_loads : string -> option string)
    (html_text markup : string) :
  Parser.extract_guide_markup html_text = Some markup ->
  occurs Items.PRINT_HTML_RE html_text /\
  exists m,
    search Items.PRINT_HTML_RE html_text = Some m /\
    Items.extract_markup json_loads html_text =
      match json_loads (group 1 m) with
      | Some decoded => Items.Return decoded
      | None => Items.Raise Items.JSONDecodeError
      end.
Proof.
  unfold Parser.extract_guide_markup, Items.extract_markup.
  destruct (search Parser.GUIDE_MARKUP_RE html_text) as [m0|] eqn:E0; [|done].
  intros _.
  assert (Hocc : occurs Items.PRINT_HTML_RE html_text).
  { apply guide_markup_occurs. by apply (search_from_sound _ _ 0 m0). }
  split; [done|].
  destruct (search Items.PRINT_HTML_RE html_text) as [m|] eqn:E.
  - by exists m.
  - by apply search_none_iff in E.
Qed.

Lemma guide_markup_found_by_extractor_witness :
  occurs Items.PRINT_HTML_RE (Examples.page Examples.two_heads) /\
  exists m,
    search Items.PRINT_HTML_RE (Examples.page Examples.two_heads) = Some m /\
    Items.extract_markup (fun s => Some s) (Examples.page Examples.two_heads) =
      match (fun s => Some s) (group 1 m) with
      | Some decoded => Items.Return decoded
      | None => Items.Raise Items.JSONDecodeError
      end.
Proof.
  apply (guide_markup_found_by_extractor (fun s => Some s)
           (Examples.page Examples.two_heads) Examples.two_heads).
  vm_compute. reflexivity.
Defined.

End locator_relation.

(** ** Whitespace *)

Section whitespace_properties.
Import Str Re.

(** *** Runs of whitespace *)

Lemma lstrip_nonspace c s : is_space c = false -> lstrip (String c s) = String c s.
Proof. intros H. cbn [lstrip]. by rewrite H. Qed.

Lemma length_lstrip s : (String.length (lstrip s) <= String.length s)%nat.
Proof.
  induction s as [|c s IH]; [done|]. cbn [lstrip].
  destruct (is_space c); cbn [String.length]; lia.
Qed.

Lemma word_after_word s : s = word s +:+ after_word s.
Proof.
  induction s as [|c s IH]; [done|]. cbn [word after_word].
  destruct (is_space c); [done|]. by rewrite append_cons, <- IH.
Qed.

Lemma length_after_word s :
  (String.length s = String.length (word s) + String.length (after_word s))%nat.
Proof. by rewrite <- length_append, <- word_after_word. Qed.

Lemma after_word_space s :
  match after_word s with
  | EmptyString => True
  | String c _ => is_space c = true
  end.
Proof.
  induction s as [|c s IH]; [done|]. cbn [after_word].
  by destruct (is_space c) eqn:E.
Qed.

Lemma collapse_true_lstrip s :
  collapse_from true s = collapse_from false (lstrip s).
Proof.
  induction s as [|c s IH]; [done|]. cbn [collapse_from lstrip].
  destruct (is_space c) eqn:E; [done|]. cbn [collapse_from]. by rewrite E.
Qed.

Lemma collapse_word s :
  collapse_from false s =
  word s +:+
  match after_word s with
  | EmptyString => EmptyString
  | aw => String " " (collapse_from false (lstrip aw))
  end.
Proof.
  induction s as [|c s IH]; [done|]. cbn [collapse_from word after_word].
  destruct (is_space c) eqn:E.
  - rewrite append_nil_l. cbn [lstrip]. rewrite E.
    by rewrite collapse_true_lstrip.
  - by rewrite append_cons, <- IH.
Qed.

(** *** The pattern [\s+] *)

Lemma star_space_loop {R} (k : string -> captures -> option R) fuel :
  (forall s cs, is_Some (k s cs)) ->
  forall s cs, (String.length s <= fuel)%nat ->
  star_loop (exec space) k fuel s cs = k (lstrip s) cs.
Proof.
  intros Hk.
  induction fuel as [|fuel IH]; intros s cs Hlen; cbn [star_loop].
  - destruct s; [done|cbn in Hlen; lia].
  - unfold space at 1. cbn [exec]. destruct s as [|c s]; [done|].
    cbn [lstrip]. destruct (is_space c); [|done].
    cbn [String.length] in *.
    rewrite (proj2 (Nat.ltb_lt _ _)) by lia.
    fold space. rewrite IH by lia.
    by destruct (Hk (lstrip s) cs) as [x ->].
Qed.

Lemma exec_ws s :
  exec (Plus space) s [] (fun s' cs => Some (s', cs)) =
  match s with
  | String c s' => if is_space c then Some (lstrip s', []) else None
  | EmptyString => None
  end.
Proof.
  unfold Plus. cbn [exec]. unfold space at 1. cbn [exec]. destruct s as [|c s]; [done|].
  destruct (is_space c); [|done].
  fold space. by rewrite star_space_loop by (eauto || lia).
Qed.

Lemma search_from_ws s : forall pos,
  search_from (Plus space) pos s =
  match after_word s with
  | EmptyString => None
  | aw =>
      Some {| m_start := pos + String.length (word s);
              m_end := pos + String.length (word s)
                       + (String.length aw - String.length (lstrip aw));
              m_groups := [] |}
  end.
Proof.
  induction s as [|c s IH]; intros pos.
  - cbn [search_from]. by rewrite exec_ws.
  - cbn [search_from]. rewrite exec_ws. cbn [word after_word].
    destruct (is_space c) eqn:E.
    + cbn [lstrip String.length]. rewrite E. do 2 f_equal; lia.
    + rewrite IH. destruct (after_word s); [done|].
      cbn [String.length]. do 2 f_equal; lia.
Qed.

Lemma drop_drop a : forall b s, drop a (drop b s) = drop (b + a) s.
Proof.
  intros b. induction b as [|b IH]; intros s; [done|].
  destruct s as [|c s]; [by destruct a|]. cbn [drop Nat.add]. apply IH.
Qed.

Lemma drop_append (a b : string) : drop (String.length a) (a +:+ b) = b.
Proof. induction a as [|c a IH]; [by destruct b|]. by rewrite append_cons. Qed.

Lemma substring_drop n : forall pos s,
  substring pos n s = substring 0 n (drop pos s).
Proof.
  induction pos as [|pos IH]; intros s; [by destruct s|].
  destruct s as [|c s]; [by destruct n|]. cbn [substring drop]. apply IH.
Qed.

Lemma substring_append (a b : string) :
  substring 0 (String.length a) (a +:+ b) = a.
Proof.
  induction a as [|c a IH]; [by destruct b|].
  rewrite append_cons. cbn [String.length substring]. by rewrite IH.
Qed.

Lemma lstrip_drop s :
  drop (String.length s - String.length (lstrip s)) s = lstrip s.
Proof.
  induction s as [|c s IH]; [done|]. cbn [lstrip].
  destruct (is_space c).
  - pose proof (length_lstrip s). cbn [String.length].
    replace (S (String.length s) - String.length (lstrip s))%nat
      with (S (String.length s - String.length (lstrip s))) by lia.
    cbn [drop]. apply IH.
  - by rewrite Nat.sub_diag.
Qed.

Lemma sub_ws_from fuel : forall s pos,
  (String.length (drop pos s) < fuel)%nat ->
  Re.sub_from " " s pos (finditer_from fuel (Plus space) pos (drop pos s)) =
  collapse_from false (drop pos s).
Proof.
  induction fuel as [|fuel IH]; intros s pos Hlen; [lia|].
  cbn [finditer_from]. rewrite search_from_ws.
  set (t := drop pos s) in *.
  pose proof (word_after_word t) as Ht.
  pose proof (length_after_word t) as Hlt.
  pose proof (after_word_space t) as Hsp.
  rewrite (collapse_word t).
  destruct (after_word t) as [|c aw] eqn:Eaw.
  - cbn [sub_from]. fold t. by rewrite Ht at 1.
  - set (n := String.length (word t)) in *.
    set (k := (String.length (String c aw)
               - String.length (lstrip (String c aw)))%nat).
    assert (Hk : (0 < k)%nat).
    { unfold k. cbn [lstrip]. rewrite Hsp. pose proof (length_lstrip aw).
      cbn [String.length]. lia. }
    cbn [m_start m_end]. rewrite (proj2 (Nat.ltb_lt _ _)) by lia.
    cbn [sub_from m_start m_end].
    assert (Hnext : drop (pos + n + k - pos) t = drop (pos + n + k) s).
    { unfold t. rewrite drop_drop. f_equal. lia. }
    assert (Hrest : drop (pos + n + k) s = lstrip (String c aw)).
    { rewrite <- Hnext. replace (pos + n + k - pos)%nat with (n + k)%nat by lia.
      rewrite <- drop_drop, Ht. unfold n. rewrite drop_append.
      apply lstrip_drop. }
    fold k. rewrite Hnext, IH.
    2:{ rewrite Hrest. pose proof (length_lstrip (String c aw)).
        cbn [lstrip] in *. rewrite Hsp in *. pose proof (length_lstrip aw).
        cbn [String.length] in *. lia. }
    rewrite Hrest. f_equal.
    unfold slice. replace (pos + n - pos)%nat with n by lia.
      rewrite substring_drop. fold t.
      transitivity (substring 0 n (word t +:+ String c aw));
        [by rewrite <- Ht|apply substring_append].
Qed.

Lemma sub_ws s : Re.sub (Plus space) " " s = collapse_from false s.
Proof.
  unfold Re.sub, finditer.
  apply (sub_ws_from (S (String.length s)) s 0). cbn [drop].
  destruct s; cbn; lia.
Qed.

(** *** The normal form of a cleaned text *)

Lemma single_collapse s : forall b,
  single_spaced_from b (collapse_from b s) = true.
Proof.
  induction s as [|c s IH]; intros b; [done|]. cbn [collapse_from].
  destruct (is_space c) eqn:E.
  - destruct b; [apply IH|]. cbn [single_spaced_from].
    change (is_space " ") with true. cbv iota. by rewrite IH.
  - cbn [single_spaced_from]. rewrite E. apply IH.
Qed.

Lemma single_lstrip s : forall b b',
  single_spaced_from b s = true -> single_spaced_from b' (lstrip s) = true.
Proof.
  induction s as [|c s IH]; intros b b'; [done|].
  cbn [single_spaced_from lstrip]. destruct (is_space c) eqn:E.
  - intros [_ H]%andb_prop. by apply (IH true).
  - cbn [single_spaced_from]. by rewrite E.
Qed.

Lemma single_rstrip s : forall b,
  single_spaced_from b s = true -> single_spaced_from b (rstrip s) = true.
Proof.
  induction s as [|c s IH]; intros b; [done|].
  cbn [single_spaced_from rstrip]. destruct (is_space c) eqn:E.
  - intros [H1 H2]%andb_prop. apply IH in H2.
    destruct (rstrip s) as [|d r] eqn:Er; [done|]. rewrite <- Er in *.
    cbn [single_spaced_from]. rewrite E. by rewrite H1, H2.
  - intros H. apply IH in H.
    destruct (rstrip s) as [|d r] eqn:Er; [cbn; by rewrite E|].
    rewrite <- Er in *. cbn [single_spaced_from]. by rewrite E.
Qed.

Lemma rstrip_idemp s : rstrip (rstrip s) = rstrip s.
Proof.
  induction s as [|c s IH]; [done|]. cbn [rstrip].
  destruct (rstrip s) as [|d r] eqn:Er.
  - destruct (is_space c) eqn:E; [done|]. cbn [rstrip]. by rewrite E.
  - cbn [rstrip]. cbn [rstrip] in IH. by rewrite IH.
Qed.

Lemma lstrip_head s :
  match lstrip s with
  | EmptyString => True
  | String c _ => is_space c = false
  end.
Proof.
  induction s as [|c s IH]; [done|]. cbn [lstrip].
  by destruct (is_space c) eqn:E.
Qed.

Lemma strip_idemp s : strip (strip s) = strip s.
Proof.
  unfold strip. pose proof (lstrip_head s) as Hh.
  destruct (lstrip s) as [|c t]; [done|].
  assert (Hl : lstrip (rstrip (String c t)) = rstrip (String c t)).
  { cbn [rstrip]. destruct (rstrip t); rewrite ?Hh; cbn [lstrip];
      by rewrite Hh. }
  by rewrite Hl, rstrip_idemp.
Qed.

Lemma single_strip s b :
  single_spaced_from b s = true -> single_spaced (strip s) = true.
Proof.
  intros H. unfold single_spaced, strip.
  by apply single_rstrip, (single_lstrip s b).
Qed.

(** X18. A cleaned text is in normal form.  [WS_RE.sub(" ", s)] turns every
    run of whitespace of [s] into one space, so the result of either
    [clean_text] has no whitespace at its ends (stripping it again changes
    nothing) and no whitespace character inside other than single spaces
    between two other characters. *)
Theorem clean_text_normal_form (html_unescape : string -> string)
    (text : string) :
  Re.sub Items.WS_RE " " text = collapse_from false text /\
  (let cleaned := Items.clean_text text in
   strip cleaned = cleaned /\ single_spaced cleaned = true) /\
  (let cleaned := Parser.clean_text html_unescape text in
   strip cleaned = cleaned /\ single_spaced cleaned = true).
Proof.
  split; [apply sub_ws|]. cbv zeta.
  unfold Items.clean_text, Parser.clean_text, Items.WS_RE, Parser.WS_RE.
  rewrite !sub_ws.
  repeat split; try apply strip_idemp;
    by apply (single_strip _ false), single_collapse.
Qed.

End whitespace_properties.

(** ** The counts of the batch report *)

Section batch_properties.
Import Str Re Items Batch.

(** *** The counts of a guide *)

Lemma length_insert_sorted x l : length (insert_sorted x l) = S (length l).
Proof.
  induction l as [|y l IH]; [done|]. cbn [insert_sorted].
  destruct (String.leb x y); cbn [length]; by rewrite ?IH.
Qed.

Lemma length_sorted l : length (sorted l) = length l.
Proof.
  induction l as [|x l IH]; [done|]. unfold sorted in *. cbn [foldr].
  by rewrite length_insert_sorted, IH.
Qed.

Lemma elem_of_insert_sorted x y l : y ∈ insert_sorted x l <-> y = x \/ y ∈ l.
Proof.
  induction l as [|z l IH]; cbn [insert_sorted].
  - rewrite list_elem_of_singleton, elem_of_nil. tauto.
  - destruct (String.leb x z); rewrite !elem_of_cons, ?IH; tauto.
Qed.

Lemma elem_of_sorted y l : y ∈ sorted l <-> y ∈ l.
Proof.
  induction l as [|x l IH]; [done|]. unfold sorted in *. cbn [foldr].
  rewrite elem_of_insert_sorted, IH, elem_of_cons. tauto.
Qed.

Lemma item_count_ge (slots : list slot_entry) :
  Forall (fun se => items se <> []) slots ->
  (length slots <= sum_list ((fun s => length (items s)) <$> slots))%nat.
Proof.
  induction 1 as [|se slots Hse _ IH]; [done|]. cbn.
  destruct (items se); [done|]. cbn [length]. lia.
Qed.

Lemma extract_by_slot_nonempty markup tbl gt :
  Forall (fun se => items se <> []) (extract_by_slot markup tbl gt).
Proof.
  apply Forall_forall. intros se Hse.
  by apply extract_by_slot_elem in Hse as (i & hd & _ & _ & Hne).
Qed.

Lemma extract_by_slot_valid markup tbl gt :
  Forall (fun se => mem (slot se) (valid_slots_of gt) = true)
         (extract_by_slot markup tbl gt).
Proof.
  apply Forall_forall. intros se.
  rewrite extract_by_slot_spec, list_elem_of_omap.
  intros ([i hd] & _ & Hres). unfold header_result in Hres.
  destruct (mem _ _) eqn:Hm; [|done].
  destruct (section_items _ _ _); [done|]. by injection Hres as <-.
Qed.

Lemma valid_slots_expected name :
  mem name VALID_SLOTS = true -> name ∈ EXPECTED_SLOTS.
Proof.
  intros H%mem_in. cbn in H. unfold EXPECTED_SLOTS.
  repeat (destruct H as [<-|H];
          [apply elem_of_list_to_set, list_elem_of_In; cbn; tauto|]).
  done.
Qed.

Lemma size_expected : size EXPECTED_SLOTS = 19%nat.
Proof.
  unfold EXPECTED_SLOTS.
  rewrite size_list_to_set; [done|].
  apply (bool_decide_unpack _). vm_compute. exact I.
Qed.

Lemma length_elements_size_gset (X : gset string) :
  length (elements X) = size X.
Proof. reflexivity. Qed.

Lemma slot_item_counts_lookup (slots : list slot_entry) name :
  slot_item_counts slots !! name =
  (fun se => length (items se)) <$>
    last (filter (fun se => slot se = name) slots).
Proof.
  unfold slot_item_counts.
  induction slots as [|se slots IH] using rev_ind; [done|].
  rewrite foldl_app, filter_app, filter_cons, filter_nil. cbn [foldl].
  destruct (decide (slot se = name)) as [<-|Hne].
  - by rewrite lookup_insert_eq, last_snoc.
  - rewrite lookup_insert_ne by done. by rewrite app_nil_r.
Qed.

Lemma error_record e :
  let r := {| parse_error := Some e; slots := []; slot_count := 0;
              item_count := 0;
              missing_expected_slots := sorted (elements EXPECTED_SLOTS) |} in
  let names : gset string := list_to_set (slot <$> slots r) in
  slot_count r = length (slots r) /\
  (slot_count r <= item_count r)%nat /\
  (forall e, parse_error r = Some e ->
     slots r = [] /\ item_count r = 0%nat /\
     length (missing_expected_slots r) = 19%nat) /\
  (forall name, name ∈ missing_expected_slots r <->
                name ∈ EXPECTED_SLOTS /\ name ∉ names) /\
  (forall guide_type, String.eqb guide_type "gems_enchants" = false ->
   (length (missing_expected_slots r) + size names = 19)%nat) /\
  (forall name, is_Some (slot_item_counts (slots r) !! name) <->
                name ∈ names) /\
  (forall name n, slot_item_counts (slots r) !! name = Some n -> (1 <= n)%nat).
Proof.
  cbv zeta.
  cbn [parse_error slots slot_count item_count missing_expected_slots
       fmap list_fmap length].
  change (list_to_set (@nil string)) with (∅ : gset string).
  assert (Hlen : length (sorted (elements EXPECTED_SLOTS)) = 19%nat).
  { by rewrite length_sorted, length_elements_size_gset, size_expected. }
  split; [reflexivity|]. split; [apply Nat.le_refl|].
  split; [intros e' _; split; [reflexivity|split; [reflexivity|exact Hlen]]|].
  split; [|split; [|split]].
  - intros name. rewrite elem_of_sorted, elem_of_elements.
    split; [|tauto]. intros H. split; [exact H|]. apply not_elem_of_empty.
  - intros _ _. rewrite Hlen, size_empty. reflexivity.
  - intros name. unfold slot_item_counts. cbn [foldl].
    rewrite lookup_empty. split.
    + intros [x Hx]. discriminate Hx.
    + intros Hin. exfalso. revert Hin. apply not_elem_of_empty.
  - intros name n. unfold slot_item_counts. cbn [foldl].
    rewrite lookup_empty. intros [=].
Qed.

(** X19. The counts that the batch report keeps of a page.  [slot_count]
    never exceeds [item_count], because every slot of the extractor has an
    item; a page whose extraction raised has no slot, no item and all
    nineteen expected slots missing; [missing_expected_slots] lists exactly
    the expected slots that no slot entry names, and in a guide that is not a
    gems and enchants guide the missing and the named slots together are the
    nineteen expected ones.  [slot_item_counts] has an entry for exactly the
    named slots, and every count is at least 1. *)
Theorem guide_record_counts (json_loads : string -> option string)
    (extract_item_lookup : string -> outcome (gmap string string))
    (html_text guide_type : string) :
  let r := guide_record json_loads extract_item_lookup html_text guide_type in
  let names : gset string := list_to_set (slot <$> slots r) in
  slot_count r = length (slots r) /\
  (slot_count r <= item_count r)%nat /\
  (forall e, parse_error r = Some e ->
     slots r = [] /\ item_count r = 0%nat /\
     length (missing_expected_slots r) = 19%nat) /\
  (forall name, name ∈ missing_expected_slots r <->
                name ∈ EXPECTED_SLOTS /\ name ∉ names) /\
  (String.eqb guide_type "gems_enchants" = false ->
   (length (missing_expected_slots r) + size names = 19)%nat) /\
  (forall name, is_Some (slot_item_counts (slots r) !! name) <->
                name ∈ names) /\
  (forall name n, slot_item_counts (slots r) !! name = Some n -> (1 <= n)%nat).
Proof.
  cbv zeta. unfold guide_record, try_extract.
  destruct (extract_markup json_loads html_text) as [markup|e].
  2:{ destruct (error_record e) as (H1 & H2 & H3 & H4 & H5 & H6 & H7).
      exact (conj H1 (conj H2 (conj H3 (conj H4
               (conj (H5 guide_type) (conj H6 H7)))))). }
  destruct (extract_item_lookup html_text) as [tbl|e].
  2:{ destruct (error_record e) as (H1 & H2 & H3 & H4 & H5 & H6 & H7).
      exact (conj H1 (conj H2 (conj H3 (conj H4
               (conj (H5 guide_type) (conj H6 H7)))))). }
  cbn [parse_error slots slot_count item_count missing_expected_slots].
  set (found := extract_by_slot markup tbl guide_type).
  pose proof (extract_by_slot_nonempty markup tbl guide_type) as Hne.
  pose proof (extract_by_slot_valid markup tbl guide_type) as Hvalid.
  fold found in Hne, Hvalid.
  split; [reflexivity|]. split; [by apply item_count_ge|].
  split; [intros e' [=]|].
  split; [|split; [|split]].
  - intros name. rewrite elem_of_sorted, elem_of_elements. set_solver.
  - intros Hgt. rewrite length_sorted, length_elements_size_gset.
    rewrite <- size_expected.
    assert (Hsub : list_to_set (slot <$> found) ⊆ EXPECTED_SLOTS).
    { intros name [se [-> Hse]]%elem_of_list_to_set%list_elem_of_fmap.
      rewrite Forall_forall in Hvalid. specialize (Hvalid se Hse).
      unfold valid_slots_of in Hvalid. rewrite Hgt in Hvalid.
      by apply valid_slots_expected. }
    rewrite (size_difference _ _ Hsub).
    pose proof (subseteq_size _ _ Hsub). lia.
  - intros name. rewrite slot_item_counts_lookup, fmap_is_Some.
    rewrite elem_of_list_to_set, list_elem_of_fmap. split.
    + intros [se Hse]. apply last_Some_elem_of, list_elem_of_filter in Hse
        as [<- Hin]. by exists se.
    + intros (se & -> & Hin).
      destruct (last (filter (fun se0 => slot se0 = slot se) found)) eqn:E;
        [by eexists|].
      apply last_None in E.
      assert (se ∈ filter (fun se0 => slot se0 = slot se) found)
        by (by apply list_elem_of_filter).
      rewrite E in H. by apply elem_of_nil in H.
  - intros name n. rewrite slot_item_counts_lookup.
    destruct (last _) as [se|] eqn:E; [|done]. intros [= <-].
    apply last_Some_elem_of, list_elem_of_filter in E as [_ Hin].
    rewrite Forall_forall in Hne. specialize (Hne se Hin).
    destruct (items se); [done|cbn; lia].
Qed.

End batch_properties.
